(** * Memory-Map-Generator: layout engine, embedded and verified

    The repository is a single Python script, [main.py].  Its Python part
    builds a tree of address ranges, validates it ([validate_tree]) and
    flattens it ([flatten]); the flattened list is handed to a JavaScript
    program (kept in the [HTML] string of the same file) that synthesises
    gaps ([gapsFromChildren]), allocates screen heights
    ([computeHeightsToFit], [computeCompactHeights]), expands and collapses
    blocks and places the address markers.

    Numbers: Python integers are [Z].  The JavaScript side computes on
    Numbers that hold integers (addresses, pixel heights); they are [Z] as
    well, which is exact as long as the values are safe integers.  The two
    places where the script really leaves the integers are kept apart: the
    proportional split [Math.floor((s / sum) * budget)] is a parameter of
    the allocator, and measured marker positions are rationals ([Q]). *)

From Stdlib Require Import ZArith QArith Qround List String Ascii Bool Lia.
From Stdlib Require Import DecimalString HexadecimalString.
From Stdlib Require Import HexadecimalPos HexadecimalN.
From Stdlib Require Import Sorting.Sorted Permutation.
Import ListNotations.

Local Open Scope string_scope.
Local Open Scope list_scope.
Local Open Scope Z_scope.

(** ** Numbers as text *)

(** JavaScript [String(n)] / string concatenation with an integer Number
    (plain decimal digits, a leading minus sign for negatives). *)
Definition numToString (n : Z) : string :=
  DecimalString.NilZero.string_of_int (Z.to_int n).

(** ** The flattened node list (the data contract between the two halves) *)

Record FlatNode : Type := mkFlatNode {
  fn_id     : string;
  fn_name   : string;
  fn_start  : Z;
  fn_size   : Z;
  fn_end    : Z;
  fn_depth  : Z;
  fn_parent : option string
}.

(** A synthesised gap: the object literal pushed by [gapsFromChildren];
    its [_isGap: true] field is the constructor tag of [DisplayItem]. *)
Record Gap : Type := mkGap {
  gap_id    : string;
  gap_name  : string;
  gap_start : Z;
  gap_end   : Z;
  gap_size  : Z
}.

Inductive DisplayItem : Type :=
| Child (n : FlatNode)
| GapItem (g : Gap).

Definition _isGap (it : DisplayItem) : bool :=
  match it with GapItem _ => true | Child _ => false end.

Definition it_id (it : DisplayItem) : string :=
  match it with Child n => fn_id n | GapItem g => gap_id g end.
Definition it_name (it : DisplayItem) : string :=
  match it with Child n => fn_name n | GapItem g => gap_name g end.
Definition it_start (it : DisplayItem) : Z :=
  match it with Child n => fn_start n | GapItem g => gap_start g end.
Definition it_end (it : DisplayItem) : Z :=
  match it with Child n => fn_end n | GapItem g => gap_end g end.
Definition it_size (it : DisplayItem) : Z :=
  match it with Child n => fn_size n | GapItem g => gap_size g end.

(** ** The Python half: range tree, validator, flattener *)

Module Py.

(** [class Node]: [name], [start], [size] and the ordered [children];
    [end] is the derived property [start + size]. *)
#[warnings="-register-all"]
Inductive Node : Type :=
| mkNode (name : string) (start size : Z) (children : list Node).

Definition n_name (n : Node) : string :=
  match n with mkNode name _ _ _ => name end.
Definition n_start (n : Node) : Z :=
  match n with mkNode _ start _ _ => start end.
Definition n_size (n : Node) : Z :=
  match n with mkNode _ _ size _ => size end.
Definition n_children (n : Node) : list Node :=
  match n with mkNode _ _ _ children => children end.
Definition n_end (n : Node) : Z := n_start n + n_size n.

(** Python's [hex]: lowercase digits after [0x], a minus sign in front of
    a negative number. *)
Definition hex (n : Z) : string :=
  ((if (n <? 0)%Z then "-" else "") ++ "0x" ++
   HexadecimalString.NilZero.string_of_uint (N.to_hex_uint (Z.abs_N n)))%string.

(** [s.strip("/")], as [lstrip] then [rstrip] of the one character. *)
Fixpoint lstrip (ch : ascii) (s : string) : string :=
  match s with
  | EmptyString => EmptyString
  | String c s' => if Ascii.eqb c ch then lstrip ch s' else s
  end.

Fixpoint rstrip (ch : ascii) (s : string) : string :=
  match s with
  | EmptyString => EmptyString
  | String c s' =>
      match rstrip ch s' with
      | EmptyString => if Ascii.eqb c ch then EmptyString
                       else String c EmptyString
      | r => String c r
      end
  end.

Definition strip (ch : ascii) (s : string) : string := rstrip ch (lstrip ch s).

(** The two messages of [validate_tree]; [here] is [f"{path}/{n.name}"]. *)
Definition containmentMsg (here : string) (n c : Node) : string :=
  (here ++ ": child '" ++ n_name c ++ "' [" ++ hex (n_start c) ++ ".." ++
   hex (n_end c) ++ "] outside parent [" ++ hex (n_start n) ++ ".." ++
   hex (n_end n) ++ "]")%string.

Definition overlapMsg (here : string) (a b : Node) : string :=
  (here ++ ": overlap between '" ++ n_name a ++ "' and '" ++ n_name b ++
   "'")%string.

(** The second loop of [validate_tree]: adjacent pairs [kids[i]],
    [kids[i + 1]]. *)
Fixpoint overlapErrs (here : string) (kids : list Node) : list string :=
  match kids with
  | a :: (b :: _) as rest =>
      (if n_end a >? n_start b then [overlapMsg here a b] else []) ++
      overlapErrs here rest
  | _ => []
  end.

(** [validate_tree(n, path)]; the first call has [path = "root"]. *)
Fixpoint validate_tree (n : Node) (path : string) : list string :=
  match n with
  | mkNode name start size children =>
      let here := (path ++ "/" ++ name)%string in
      flat_map
        (fun c =>
           (if (n_start c <? start) || (n_end c >? start + size)
            then [containmentMsg here n c] else []) ++
           validate_tree c here)
        children ++
      overlapErrs here children
  end.

(** The token [f"{n.name}@{hex(n.start)}"] and the identifier
    [(parent_id + "/" + token).strip("/")]. *)
Definition token (n : Node) : string :=
  (n_name n ++ "@" ++ hex (n_start n))%string.

Definition nodeId (parent_id : string) (n : Node) : string :=
  strip "/" (parent_id ++ "/" ++ token n)%string.

(** A parent identifier is empty (at the root) or a path that does not
    start with a slash. *)
Definition pathLike (p : string) : Prop :=
  p <> EmptyString /\ lstrip "/" p = p.

(** [parent_id if parent_id else None]. *)
Definition parentOf (parent_id : string) : option string :=
  match parent_id with
  | EmptyString => None
  | _ => Some parent_id
  end.

(** [flatten(n, depth, parent_id)]; the first call has [depth = 0] and
    [parent_id = ""]. *)
Fixpoint flatten (n : Node) (depth : Z) (parent_id : string)
  : list FlatNode :=
  match n with
  | mkNode name start size children =>
      let node_id := nodeId parent_id n in
      {| fn_id := node_id; fn_name := name; fn_start := start;
         fn_size := size; fn_end := start + size; fn_depth := depth;
         fn_parent := parentOf parent_id |} ::
      flat_map (fun c => flatten c (depth + 1) node_id) children
  end.

(** A property of every node of a tree. *)
Fixpoint everyNode (P : Node -> Prop) (n : Node) : Prop :=
  match n with
  | mkNode _ _ _ children =>
      P n /\
      (fix all (cs : list Node) : Prop :=
         match cs with
         | [] => True
         | c :: cs' => everyNode P c /\ all cs'
         end) children
  end.

(** The character [ch] occurs in [s]. *)
Fixpoint hasChar (ch : ascii) (s : string) : bool :=
  match s with
  | EmptyString => false
  | String c s' => Ascii.eqb c ch || hasChar ch s'
  end.

(** [sub] occurs in [s]. *)
Fixpoint contains (sub s : string) : bool :=
  String.prefix sub s ||
  match s with
  | EmptyString => false
  | String _ s' => contains sub s'
  end.

(** The nodes of a tree with the [path] argument [validate_tree] is
    called with at each of them. *)
Inductive visits : Node -> string -> Node -> string -> Prop :=
| visits_here : forall n path, visits n path n path
| visits_child : forall n path c m p,
    In c (n_children n) ->
    visits c (path ++ "/" ++ n_name n)%string m p ->
    visits n path m p.

(** [a] and [b] are [kids[i]] and [kids[i + 1]] for some [i]. *)
Definition adjacent (a b : Node) (kids : list Node) : Prop :=
  exists l1 l2, kids = l1 ++ a :: b :: l2.

End Py.

(** ** Gap synthesis: [gapsFromChildren] *)

Module GapSynthesizer.

(** The object literal [{ id: root.id + "/gap@" + cur, ..., start: cur,
    end: stop, size: stop - cur, _isGap: true }]. *)
Definition gapAt (root : FlatNode) (cur stop : Z) : Gap :=
  {| gap_id    := (fn_id root ++ "/gap@" ++ numToString cur)%string;
     gap_name  := "Unmapped / Reserved";
     gap_start := cur;
     gap_end   := stop;
     gap_size  := stop - cur |}.

(** One turn of [for (const k of kids)]: the loop state is the array
    [gaps] built so far and the cursor [cur]. *)
Definition scanStep (root : FlatNode) (st : list Gap * Z) (k : FlatNode)
  : list Gap * Z :=
  let '(gaps, cur) := st in
  let gaps' :=
    if fn_start k >? cur then gaps ++ [gapAt root cur (fn_start k)] else gaps in
  (gaps', Z.max cur (fn_end k)).

Definition scan (root : FlatNode) (kids : list FlatNode) (st : list Gap * Z)
  : list Gap * Z :=
  fold_left (scanStep root) kids st.

Definition gapsFromChildren (root : FlatNode) (kids : list FlatNode)
  : list Gap :=
  match kids with
  | [] => []
  | _ :: _ =>
      let '(gaps, cur) := scan root kids ([], fn_start root) in
      if cur <? fn_end root then gaps ++ [gapAt root cur (fn_end root)]
      else gaps
  end.

(** Half-open membership [s <= x < e] and the number of ranges of a level
    (children and gaps together) that hold an address. *)
Definition coversb (s e x : Z) : bool := (s <=? x) && (x <? e).

Definition kidsCovering (kids : list FlatNode) (x : Z) : nat :=
  List.length (filter (fun k => coversb (fn_start k) (fn_end k) x) kids).

Definition gapsCovering (gaps : list Gap) (x : Z) : nat :=
  List.length (filter (fun g => coversb (gap_start g) (gap_end g) x) gaps).

(** What the Validator and the data model give about the children of a
    node: every child has a non-negative extent and lies inside the parent;
    adjacent children do not overlap. *)
Definition contained (root k : FlatNode) : Prop :=
  fn_start root <= fn_start k /\ fn_start k <= fn_end k /\
  fn_end k <= fn_end root.

Definition apart (a b : FlatNode) : Prop := fn_end a <= fn_start b.

Definition validChildren (root : FlatNode) (kids : list FlatNode) : Prop :=
  Forall (contained root) kids /\ Sorted apart kids.

(** Children and gaps together tile [[root.start, root.end)] exactly: an
    address of the parent lies in exactly one of them, any other address in
    none. *)
Definition tilesParent (root : FlatNode) (kids : list FlatNode)
  (gaps : list Gap) : Prop :=
  forall x : Z,
    (kidsCovering kids x + gapsCovering gaps x)%nat =
    if coversb (fn_start root) (fn_end root) x then 1%nat else 0%nat.

Definition gapsDisjoint (gaps : list Gap) : Prop :=
  ForallOrdPairs (fun g1 g2 => gap_end g1 <= gap_start g2) gaps.

Definition gapsAvoidKids (kids : list FlatNode) (gaps : list Gap) : Prop :=
  forall g k, In g gaps -> In k kids ->
    gap_end g <= fn_start k \/ fn_end k <= gap_start g.

(** A gap is non-empty and its [size] field is its length. *)
Definition positiveGap (g : Gap) : Prop :=
  gap_start g < gap_end g /\ gap_size g = gap_end g - gap_start g /\
  0 < gap_size g.

End GapSynthesizer.

(** ** Space allocation: [computeHeightsToFit], [computeCompactHeights] *)

Module SpaceAllocator.

(** [arr.map((x, i) => f(i, x))]. *)
Fixpoint mapiFrom {A B : Type} (k : nat) (f : nat -> A -> B) (l : list A)
  : list B :=
  match l with
  | [] => []
  | x :: l' => f k x :: mapiFrom (S k) f l'
  end.

Definition mapi {A B : Type} (f : nat -> A -> B) (l : list A) : list B :=
  mapiFrom 0 f l.

(** [arr[i] = v] for an index inside the array (the only use the script
    makes of it; outside, the list is left as it is). *)
Fixpoint upd {A : Type} (i : nat) (v : A) (l : list A) : list A :=
  match l, i with
  | [], _ => []
  | _ :: l', O => v :: l'
  | x :: l', S j => x :: upd j v l'
  end.

(** [arr.reduce((a, b) => a + b, 0)]. *)
Definition sum (l : list Z) : Z := fold_left Z.add l 0.

(** [n || d] on Numbers: [d] replaces a zero. *)
Definition orElse (n d : Z) : Z := if n =? 0 then d else n.

(** The exact value of [Math.floor((s / sumSize) * nonGapBudget)]; the
    script computes it in double precision, so the allocator below takes
    the split as a parameter and this is the instance used in examples. *)
Definition exactShare (s sumSize nonGapBudget : Z) : Z :=
  (s * nonGapBudget) / sumSize.

Section Fit.

(** [floorShare s sumSize nonGapBudget] stands for
    [Math.floor((s / sumSize) * nonGapBudget)]. *)
Variable floorShare : Z -> Z -> Z -> Z.

Variable items : list DisplayItem.
Variables minPx maxPx budgetPx gapPx : Z.

Definition isGap : list bool := map _isGap items.

Definition gapCount : Z := Z.of_nat (List.length (filter (fun b => b) isGap)).

Definition fixedGap : Z := gapCount * gapPx.

Definition nonGapBudget : Z := Z.max 0 (budgetPx - fixedGap).

Definition sizes : list Z :=
  map (fun it => if _isGap it then 0 else Z.max (it_size it) 1) items.

Definition sumSize : Z := orElse (sum sizes) 1.

(** The first [heights]: the fixed gap height or the proportional share. *)
Definition proportional : list Z :=
  mapi (fun i (_ : DisplayItem) =>
          if nth i isGap false then gapPx
          else floorShare (nth i sizes 0) sumSize nonGapBudget) items.

(** The second [heights]: non-gap entries clamped into [[minPx, maxPx]]. *)
Definition clamped : list Z :=
  mapi (fun i h =>
          if nth i isGap false then h else Z.max minPx (Z.min maxPx h))
       proportional.

Definition totalH (heights : list Z) : Z := sum heights.

(** Indices of the non-gap entries still below [maxPx]: the script maps
    every entry to its index or to [-1] and keeps the indices [>= 0]. *)
Definition growable (heights : list Z) : list Z :=
  filter (fun i => 0 <=? i)
    (mapi (fun i h =>
             if negb (nth i isGap false) && (h <? maxPx) then Z.of_nat i
             else -1) heights).

Definition shrinkable (heights : list Z) : list Z :=
  filter (fun i => 0 <=? i)
    (mapi (fun i h =>
             if negb (nth i isGap false) && (h >? minPx) then Z.of_nat i
             else -1) heights).

(** [for (const i of g)] of the growing branch; the state is [heights]
    and [delta], and [delta === 0] leaves the loop. *)
Fixpoint growLoop (g : list Z) (step : Z) (heights : list Z) (delta : Z)
  : list Z * Z :=
  match g with
  | [] => (heights, delta)
  | i :: g' =>
      let h := nth (Z.to_nat i) heights 0 in
      let add := Z.min (Z.min step (maxPx - h)) delta in
      let heights' := upd (Z.to_nat i) (h + add) heights in
      let delta' := delta - add in
      if delta' =? 0 then (heights', delta')
      else growLoop g' step heights' delta'
  end.

(** [for (const i of s)] of the shrinking branch; [need] is the constant
    [-delta] taken before the loop. *)
Fixpoint shrinkLoop (s : list Z) (step need : Z) (heights : list Z)
  (delta : Z) : list Z * Z :=
  match s with
  | [] => (heights, delta)
  | i :: s' =>
      let h := nth (Z.to_nat i) heights 0 in
      let sub := Z.min (Z.min step (h - minPx)) need in
      let heights' := upd (Z.to_nat i) (h - sub) heights in
      let delta' := delta + sub in
      if delta' =? 0 then (heights', delta')
      else shrinkLoop s' step need heights' delta'
  end.

(** One turn of [while (delta !== 0 && guard < 2000)], the loop test
    excluded: [None] is the [break] on an empty index list. *)
Definition redistributeStep (heights : list Z) (delta : Z)
  : option (list Z * Z) :=
  if delta >? 0 then
    match growable heights with
    | [] => None
    | g =>
        let step := Z.max 1 (delta / Z.of_nat (List.length g)) in
        Some (growLoop g step heights delta)
    end
  else
    match shrinkable heights with
    | [] => None
    | s =>
        let need := - delta in
        let step := Z.max 1 (need / Z.of_nat (List.length s)) in
        Some (shrinkLoop s step need heights delta)
    end.

(** The whole [while] loop; [guardLeft] counts the turns the guard still
    allows ([2000 - guard]). *)
Fixpoint redistribute (guardLeft : nat) (heights : list Z) (delta : Z)
  : list Z * Z :=
  match guardLeft with
  | O => (heights, delta)
  | S guardLeft' =>
      if delta =? 0 then (heights, delta)
      else
        match redistributeStep heights delta with
        | None => (heights, delta)
        | Some (heights', delta') => redistribute guardLeft' heights' delta'
        end
  end.

(** [computeHeightsToFit]: the returned record [{ heights, total }]. *)
Definition computeHeightsToFit : list Z * Z :=
  match items with
  | [] => ([], 0)
  | _ :: _ =>
      let '(heights, _) :=
        redistribute 2000 clamped (budgetPx - totalH clamped) in
      (heights, totalH heights)
  end.

End Fit.

(** [computeCompactHeights]: [{ heights, total }]. *)
Definition computeCompactHeights (items : list DisplayItem) (minPx gapPx : Z)
  : list Z * Z :=
  let heights := map (fun it => if _isGap it then gapPx else minPx) items in
  (heights, sum heights).

(** The number of non-gap items of a level. *)
Definition nonGapCount (items : list DisplayItem) : Z :=
  Z.of_nat (List.length (filter (fun it => negb (_isGap it)) items)).

End SpaceAllocator.

(** ** The inner loops of the redistribution as one pass over [heights]

    Both [for] loops of [computeHeightsToFit] visit the selected indices in
    increasing order and touch each entry once, so each is a single
    left-to-right pass over the zipped arrays [isGap] and [heights].  The
    pass is written once for both directions: [room h] is how far an entry
    may still move ([maxPx - h] when growing, [h - minPx] when shrinking),
    [move h a] moves it, [isOpen h] is the selection test, [rem] is what is
    left to hand out ([delta], or [-delta] when shrinking) and [cap rem] is
    the third argument of [Math.min] (the live [delta] when growing, the
    constant [need] when shrinking). *)

Module PassView.

Section Pass.

Variable room : Z -> Z.
Variable move : Z -> Z -> Z.
Variable isOpen : Z -> bool.
Variable cap : Z -> Z.

Definition movable (b : bool) (h : Z) : bool := negb b && isOpen h.

Fixpoint pass (step : Z) (flags : list bool) (hs : list Z) (rem : Z)
  : list Z * Z :=
  match hs with
  | [] => ([], rem)
  | h :: hs' =>
      if movable (hd false flags) h then
        let a := Z.min (Z.min step (room h)) (cap rem) in
        if rem - a =? 0 then (move h a :: hs', 0)
        else
          let '(r, d) := pass step (tl flags) hs' (rem - a) in
          (move h a :: r, d)
      else
        let '(r, d) := pass step (tl flags) hs' rem in
        (h :: r, d)
  end.

(** How many entries the pass may move. *)
Fixpoint openCount (flags : list bool) (hs : list Z) : Z :=
  match hs with
  | [] => 0
  | h :: hs' =>
      (if movable (hd false flags) h then 1 else 0) + openCount (tl flags) hs'
  end.

End Pass.

(** The layout invariant: a gap entry holds [gapPx], a non-gap entry
    satisfies [ok]. *)
Definition shaped (gapPx : Z) (ok : Z -> Prop) (flags : list bool)
  (hs : list Z) : Prop :=
  Forall2 (fun (b : bool) h => if b then h = gapPx else ok h) flags hs.

(** The sum of the non-gap entries. *)
Fixpoint nonGapSum (flags : list bool) (hs : list Z) : Z :=
  match hs with
  | [] => 0
  | h :: hs' =>
      (if hd false flags then 0 else h) + nonGapSum (tl flags) hs'
  end.

End PassView.

(** ** The node table of the page: [childrenOf], [itemsForNode] *)

Module Page.

(** [arr.sort((a, b) => key(a) - key(b))] on integer keys: the sort of
    the language is stable, so it is the insertion of each element before
    the first later element with a key that is not smaller. *)
Fixpoint insertBy {A : Type} (key : A -> Z) (x : A) (l : list A) : list A :=
  match l with
  | [] => [x]
  | y :: l' => if key x <=? key y then x :: l else y :: insertBy key x l'
  end.

Fixpoint sortBy {A : Type} (key : A -> Z) (l : list A) : list A :=
  match l with
  | [] => []
  | x :: l' => insertBy key x (sortBy key l')
  end.

Section Nodes.

(** [DATA.nodes]. *)
Variable nodes : list FlatNode.

Definition childrenOf (parentId : string) : list FlatNode :=
  sortBy fn_start
    (filter (fun n => match fn_parent n with
                      | Some p => String.eqb p parentId
                      | None => false
                      end) nodes).

Definition hasChildren (id : string) : bool :=
  negb (Nat.eqb (List.length (childrenOf id)) 0).

Definition itemsForNode (node : FlatNode) : list DisplayItem :=
  let kids := childrenOf (fn_id node) in
  let gaps := GapSynthesizer.gapsFromChildren node kids in
  sortBy it_start (map Child kids ++ map GapItem gaps).

End Nodes.

End Page.

(** ** Boundary markers: [renderOuterBoundaryLayer],
    [renderInnerLaneMarkers] *)

Module Markers.

(** What the marker code reads of an element of the page: the rectangle
    edges it measures (any real numbers the browser reports, here
    rationals), whether the slice has the class [gap], its computed
    background colour and the width of its bottom border. *)
Record Slice : Type := mkSlice {
  s_top : Q;
  s_bottom : Q;
  s_gap : bool;
  s_bg : string;
  s_borderBottom : Q
}.

(** The element positions are taken relative to. *)
Record Box : Type := mkBox {
  box_top : Q;
  box_clientTop : Q;
  box_bg : string
}.

Record Boundary : Type := mkBoundary {
  b_y : Q;
  b_addr : Z;
  b_bg : string
}.

(** A marker element: [style.top] in pixels, the fill of the pill and its
    text. *)
Record Marker : Type := mkMarker {
  m_top : Z;
  m_bg : string;
  m_text : string
}.

(** [Math.round]: the nearest integer, halves upwards. *)
Definition yKey (y : Q) : Z := Qfloor (y + (1 # 2)).

Definition localY (target : Box) (childRectTop : Q) : Q :=
  childRectTop - box_top target - box_clientTop target.

Definition localYBottom (target : Box) (childRectBottom : Q) (child : Slice)
  : Q :=
  (childRectBottom - box_top target - box_clientTop target) -
  s_borderBottom child / (2 # 1).

(** The first slice without the class [gap]. *)
Fixpoint firstSolid (slices : list Slice) : option Slice :=
  match slices with
  | [] => None
  | s :: rest => if s_gap s then firstSolid rest else Some s
  end.

(** [markerBgForSlice]: the slice's own colour, or for a gap the colour
    of the next non-gap slice, else of the previous one, else the
    fallback. *)
Definition markerBgForSlice (slices : list Slice) (idx : nat)
  (fallbackBg : string) : string :=
  match nth_error slices idx with
  | None => fallbackBg
  | Some s =>
      if negb (s_gap s) then s_bg s
      else
        match firstSolid (skipn (S idx) slices) with
        | Some t => s_bg t
        | None =>
            match firstSolid (rev (firstn idx slices)) with
            | Some t => s_bg t
            | None => fallbackBg
            end
        end
  end.

(** The first loop: one boundary at the top edge of each slice;
    [items[i]] of a missing item raises, which is [None]. *)
Fixpoint topBoundaries (target : Box) (fallbackBg : string)
  (all : list Slice) (items : list DisplayItem) (i : nat)
  (rest : list Slice) : option (list Boundary) :=
  match rest with
  | [] => Some []
  | s :: rest' =>
      match nth_error items i, topBoundaries target fallbackBg all items (S i) rest' with
      | Some it, Some bs =>
          Some ({| b_y := localY target (s_top s);
                   b_addr := it_start it;
                   b_bg := markerBgForSlice all i fallbackBg |} :: bs)
      | _, _ => None
      end
  end.

(** The block after the loop: the bottom edge of the last slice. *)
Definition bottomBoundary (target : Box) (fallbackBg : string)
  (slices : list Slice) (items : list DisplayItem) : option Boundary :=
  match last (map Some slices) None, last (map Some items) None with
  | Some s, Some it =>
      Some {| b_y := localYBottom target (s_bottom s) s;
              b_addr := it_end it;
              b_bg := markerBgForSlice slices (List.length slices - 1)
                        fallbackBg |}
  | _, _ => None
  end.

Definition boundariesOf (target : Box) (fallbackBg : string)
  (slices : list Slice) (items : list DisplayItem) : option (list Boundary) :=
  match topBoundaries target fallbackBg slices items 0 slices,
        bottomBoundary target fallbackBg slices items with
  | Some tops, Some bottom => Some (tops ++ [bottom])
  | _, _ => None
  end.

(** The [Map] [byY], in insertion order. *)
Fixpoint hasKey (key : Z) (byY : list (Z * Boundary)) : bool :=
  match byY with
  | [] => false
  | (k, _) :: rest => (k =? key) || hasKey key rest
  end.

(** [for (const b of boundaries) { if (!byY.has(key)) byY.set(key, b) }] *)
Definition keepFirst (byY : list (Z * Boundary)) (b : Boundary)
  : list (Z * Boundary) :=
  let key := yKey (b_y b) in
  if hasKey key byY then byY else byY ++ [(key, b)].

Definition collect (boundaries : list Boundary) : list (Z * Boundary) :=
  fold_left keepFirst boundaries [].

(** [.sort((a, b) => a.y - b.y)], stable. *)
Fixpoint insertY (x : Boundary) (l : list Boundary) : list Boundary :=
  match l with
  | [] => [x]
  | z :: l' =>
      if Qle_bool (b_y x) (b_y z) then x :: l else z :: insertY x l'
  end.

Fixpoint sortY (l : list Boundary) : list Boundary :=
  match l with
  | [] => []
  | x :: l' => insertY x (sortY l')
  end.

(** [uniq]: [Array.from(byY.values()).sort(...)]. *)
Definition uniq (boundaries : list Boundary) : list Boundary :=
  sortY (map snd (collect boundaries)).

(** The JavaScript [hex] of the page: upper-case digits, padded to eight,
    in groups of four joined by underscores, after [0x]. *)
Definition upperDigit (c : ascii) : ascii :=
  if (Ascii.eqb c "a") then "A"%char else
  if (Ascii.eqb c "b") then "B"%char else
  if (Ascii.eqb c "c") then "C"%char else
  if (Ascii.eqb c "d") then "D"%char else
  if (Ascii.eqb c "e") then "E"%char else
  if (Ascii.eqb c "f") then "F"%char else c.

Fixpoint mapChars (f : ascii -> ascii) (s : string) : string :=
  match s with
  | EmptyString => EmptyString
  | String c s' => String (f c) (mapChars f s')
  end.

Fixpoint zeros (n : nat) : string :=
  match n with
  | O => EmptyString
  | S n' => String "0" (zeros n')
  end.

Definition padStart8 (s : string) : string :=
  (zeros (8 - String.length s) ++ s)%string.

Fixpoint group4 (s : string) : string :=
  match s with
  | String a (String b (String c (String d (String e _ as more)))) =>
      String a (String b (String c (String d (String "_" (group4 more)))))
  | _ => s
  end.

Definition hex (n : Z) : string :=
  ("0x" ++
   group4
     (padStart8
        ((if (n <? 0)%Z then "-" else "") ++
         mapChars upperDigit
           (HexadecimalString.NilZero.string_of_uint
              (N.to_hex_uint (Z.abs_N n))))))%string.

Definition markerOf (b : Boundary) : Marker :=
  {| m_top := yKey (b_y b); m_bg := b_bg b; m_text := hex (b_addr b) |}.

(** The body shared by the two renderers: the markers appended to the
    layer, in order.  No slice: nothing is rendered. *)
Definition placeMarkers (target : Box) (fallbackBg : string)
  (slices : list Slice) (items : list DisplayItem) : option (list Marker) :=
  match slices with
  | [] => Some []
  | _ :: _ =>
      match boundariesOf target fallbackBg slices items with
      | Some boundaries => Some (map markerOf (uniq boundaries))
      | None => None
      end
  end.

(** [b] is the first boundary of the list at its rounded position. *)
Definition firstSeen (boundaries : list Boundary) (b : Boundary) : Prop :=
  find (fun b' => yKey (b_y b') =? yKey (b_y b)) boundaries = Some b.

(** What the renderers promise of the markers [out] they draw for the
    boundaries of a stack: the markers are those of the boundaries [kept],
    which are exactly the first-seen boundaries of each rounded position,
    one per position, in ascending order of position. *)
Definition dedupedSorted (boundaries : list Boundary) (out : list Marker)
  : Prop :=
  exists kept,
    out = map markerOf kept /\
    (forall b, In b kept <-> firstSeen boundaries b) /\
    (forall b, In b boundaries ->
       exists b', In b' kept /\ yKey (b_y b') = yKey (b_y b)) /\
    NoDup (map (fun b => yKey (b_y b)) kept) /\
    StronglySorted (fun a b => (b_y a <= b_y b)%Q) kept /\
    StronglySorted (fun m1 m2 => m_top m1 < m_top m2) out.

(** [renderOuterBoundaryLayer(stackEl, items)]: positions relative to the
    stack, fallback colour of the stack. *)
Definition renderOuterBoundaryLayer (stackEl : Box) (slices : list Slice)
  (items : list DisplayItem) : option (list Marker) :=
  placeMarkers stackEl (box_bg stackEl) slices items.

(** [renderInnerLaneMarkers(innerLaneEl, innerStackEl, items)]: positions
    relative to the inner stack, fallback colour of the enclosing block
    when there is one. *)
Definition renderInnerLaneMarkers (innerStackEl : Box)
  (parentBlock : option string) (slices : list Slice)
  (items : list DisplayItem) : option (list Marker) :=
  let fallbackBg :=
    match parentBlock with
    | Some bg => bg
    | None => box_bg innerStackEl
    end in
  placeMarkers innerStackEl fallbackBg slices items.

(** A renderer returned markers, and they are the deduplicated, sorted
    markers of the boundaries of its stack. *)
Definition rendersDedupedSorted (target : Box) (fallbackBg : string)
  (slices : list Slice) (items : list DisplayItem)
  (result : option (list Marker)) : Prop :=
  exists boundaries out,
    result = Some out /\
    (slices = [] /\ boundaries = [] \/
     boundariesOf target fallbackBg slices items = Some boundaries) /\
    dedupedSorted boundaries out.

End Markers.

(** ** Expanding and collapsing blocks: [renderTop], [renderInner],
    [collapseTopSliceKeepInner] *)

Module Expansion.

(** Layout constants of the page. *)
Definition GAP_PX_OUTER : Z := 52.
Definition GAP_PX_INNER : Z := 44.
Definition MIN_PX : Z := GAP_PX_OUTER.
Definition MIN_PX_INNER : Z := GAP_PX_INNER.
Definition HOME_MAX : Z := 140.

(** A block is a top-level [.slice] or a nested [.innerSlice]; the two
    carry different click handlers. *)
Inductive Kind : Type := TopSlice | InnerSlice.

(** What the controller reads and writes of a block element: the item its
    handler was created for, the class [expanded], [dataset.baseH] (absent
    until remembered), [style.height] in pixels, whether the label and the
    size annotation are displayed, and its children of class [inner], each
    with its [display] ([true] is [block], [false] is [none]) and, unless
    its [innerHTML] is empty, the slices of its inner stack. *)
#[warnings="-register-all"]
Inductive Block : Type := mkBlock {
  b_item : DisplayItem;
  b_kind : Kind;
  b_expanded : bool;
  b_baseH : option Z;
  b_height : Z;
  b_labelShown : bool;
  b_sizeShown : bool;
  b_inners : list Inner }
with Inner : Type := mkInner {
  in_display : bool;
  in_slices : option (list Block) }.

(** [rememberBaseHeight]: written once, never overwritten. *)
Definition rememberBaseHeight (blockEl : Block) (baseH : Z) : Block :=
  match b_baseH blockEl with
  | Some _ => blockEl
  | None =>
      {| b_item := b_item blockEl; b_kind := b_kind blockEl;
         b_expanded := b_expanded blockEl; b_baseH := Some baseH;
         b_height := b_height blockEl; b_labelShown := b_labelShown blockEl;
         b_sizeShown := b_sizeShown blockEl; b_inners := b_inners blockEl |}
  end.

(** [getBaseHeight]: the remembered value when it is positive, else 0. *)
Definition getBaseHeight (blockEl : Block) : Z :=
  match b_baseH blockEl with
  | Some v => if 0 <? v then v else 0
  | None => 0
  end.

(** [isActuallyExpanded]: what [relayoutAllExpanded] goes by. *)
Definition isActuallyExpanded (blockEl : Block) : bool :=
  if b_expanded blockEl then true
  else
    match b_inners blockEl with
    | [] => false
    | inner :: _ =>
        if negb (in_display inner) then false
        else match in_slices inner with Some _ => true | None => false end
    end.

Section Controller.

(** [DATA.nodes] and the root summary [DATA.root.id]. *)
Variable nodes : list FlatNode.

(** [byId.get(id)]: the map is built from [nodes] in order, so a later
    node with the same id replaces an earlier one. *)
Definition byId (id : string) : option FlatNode :=
  find (fun n => String.eqb (fn_id n) id) (rev nodes).

(** The element [renderInner] creates for one item: height set, base
    height remembered, size pill and label shown, no [inner] child. *)
Definition innerSliceOf (it : DisplayItem) (baseH : Z) : Block :=
  rememberBaseHeight
    {| b_item := it; b_kind := InnerSlice; b_expanded := false;
       b_baseH := None; b_height := baseH; b_labelShown := true;
       b_sizeShown := true; b_inners := [] |}
    baseH.

(** The slices [renderInner(parentNode, ...)] puts into the inner stack. *)
Definition renderInner (parentNode : FlatNode) : list Block :=
  let items := Page.itemsForNode nodes parentNode in
  let heights :=
    fst (SpaceAllocator.computeCompactHeights items MIN_PX_INNER
           GAP_PX_INNER) in
  SpaceAllocator.mapi (fun idx it => innerSliceOf it (nth idx heights 0))
    items.

(** The element [renderTop] creates for one item: as above, with an empty
    hidden [inner] child. *)
Definition sliceOf (it : DisplayItem) (baseH : Z) : Block :=
  rememberBaseHeight
    {| b_item := it; b_kind := TopSlice; b_expanded := false;
       b_baseH := None; b_height := baseH; b_labelShown := true;
       b_sizeShown := true;
       b_inners := [{| in_display := false; in_slices := None |}] |}
    baseH.

Section Top.

Variable floorShare : Z -> Z -> Z -> Z.

(** [renderTop]: [clientHeight] is [wrap.clientHeight] when the wrapper
    exists. *)
Definition renderTop (root : FlatNode) (clientHeight : option Z)
  : list Block :=
  let items := Page.itemsForNode nodes root in
  let minRequired :=
    Z.of_nat (List.length (filter _isGap items)) * GAP_PX_OUTER +
    Z.of_nat (List.length (filter (fun it => negb (_isGap it)) items)) *
      MIN_PX in
  let visible :=
    Z.max 320 (match clientHeight with Some h => h | None => 900 end) in
  let budget := Z.max minRequired visible in
  let heights :=
    fst (SpaceAllocator.computeHeightsToFit floorShare items MIN_PX HOME_MAX
           budget GAP_PX_OUTER) in
  SpaceAllocator.mapi (fun idx it => sliceOf it (nth idx heights 0)) items.

End Top.

(** The click handler attached by [renderInner].  [None] is the
    exception raised by [renderInner(undefined, ...)]. *)
Definition clickInner (el : Block) : option Block :=
  let it := b_item el in
  if _isGap it then Some el
  else if negb (Page.hasChildren nodes (it_id it)) then Some el
  else if negb (b_expanded el) then
    match byId (it_id it) with
    | None => None
    | Some node =>
        Some {| b_item := it; b_kind := b_kind el; b_expanded := true;
                b_baseH := b_baseH el; b_height := b_height el;
                b_labelShown := false; b_sizeShown := false;
                b_inners :=
                  b_inners el ++
                  [{| in_display := true;
                      in_slices := Some (renderInner node) |}] |}
    end
  else
    Some {| b_item := it; b_kind := b_kind el; b_expanded := false;
            b_baseH := b_baseH el; b_height := getBaseHeight el;
            b_labelShown := true; b_sizeShown := true;
            b_inners := tl (b_inners el) |}.

(** [collapseTopSliceKeepInner]. *)
Definition collapseTopSliceKeepInner (sliceEl : Block) : Block :=
  {| b_item := b_item sliceEl; b_kind := b_kind sliceEl;
     b_expanded := false; b_baseH := b_baseH sliceEl;
     b_height :=
       (let base := getBaseHeight sliceEl in
        if base =? 0 then b_height sliceEl else base);
     b_labelShown := true; b_sizeShown := true;
     b_inners :=
       match b_inners sliceEl with
       | [] => []
       | _ :: rest => {| in_display := false; in_slices := None |} :: rest
       end |}.

(** The click handler attached by [renderTop]; its [inner] is the child
    created with the slice. *)
Definition clickTop (slice : Block) : option Block :=
  let it := b_item slice in
  if _isGap it then Some slice
  else if negb (Page.hasChildren nodes (it_id it)) then Some slice
  else if negb (b_expanded slice) then
    match byId (it_id it) with
    | None => None
    | Some node =>
        Some {| b_item := it; b_kind := b_kind slice; b_expanded := true;
                b_baseH := b_baseH slice; b_height := b_height slice;
                b_labelShown := false; b_sizeShown := false;
                b_inners :=
                  match b_inners slice with
                  | [] => []
                  | _ :: rest =>
                      {| in_display := true;
                         in_slices := Some (renderInner node) |} :: rest
                  end |}
    end
  else Some (collapseTopSliceKeepInner slice).

Definition click (el : Block) : option Block :=
  match b_kind el with
  | TopSlice => clickTop el
  | InnerSlice => clickInner el
  end.

(** [collapseAll], on the slices of the top stack. *)
Definition collapseAll (slices : list Block) : list Block :=
  map collapseTopSliceKeepInner slices.

End Controller.

(** What may happen to a block while it stays expanded: a relayout gives
    it another height, and interaction below it changes the slices of its
    nested stack. *)
Definition whileExpanded (height : Z) (nested : list Block) (el : Block)
  : Block :=
  {| b_item := b_item el; b_kind := b_kind el; b_expanded := b_expanded el;
     b_baseH := b_baseH el; b_height := height;
     b_labelShown := b_labelShown el; b_sizeShown := b_sizeShown el;
     b_inners :=
       match b_kind el, b_inners el with
       | TopSlice, inner :: rest =>
           {| in_display := in_display inner; in_slices := Some nested |}
           :: rest
       | InnerSlice, [inner] =>
           [{| in_display := in_display inner; in_slices := Some nested |}]
       | _, inners => inners
       end |}.

(** A block as first laid out: collapsed, at its remembered height, with
    no nested state. *)
Definition firstLayout (el : Block) : Prop :=
  b_expanded el = false /\
  b_baseH el = Some (b_height el) /\
  0 < b_height el /\
  b_labelShown el = true /\ b_sizeShown el = true /\
  b_inners el =
    match b_kind el with
    | TopSlice => [{| in_display := false; in_slices := None |}]
    | InnerSlice => []
    end.

(** Expanding [el] and collapsing it again, whatever happened to its
    height and to its nested stack in between, gives back [el] as first
    laid out; the expanded block in between has the nested layout of its
    node, and [el] itself is not taken for expanded by a relayout. *)
Definition roundTrips (nodes : list FlatNode) (el : Block) : Prop :=
  firstLayout el /\
  isActuallyExpanded el = false /\
  exists node expandedEl,
    byId nodes (it_id (b_item el)) = Some node /\
    click nodes el = Some expandedEl /\
    b_expanded expandedEl = true /\
    last (b_inners expandedEl) {| in_display := false; in_slices := None |} =
      {| in_display := true; in_slices := Some (renderInner nodes node) |} /\
    forall height nested,
      exists collapsedEl,
        click nodes (whileExpanded height nested expandedEl) =
          Some collapsedEl /\
        collapsedEl = el /\
        Some (b_height collapsedEl) = b_baseH el /\
        Forall (fun inner => in_slices inner = None) (b_inners collapsedEl).

End Expansion.

(** ** More of the Python half: [build_node] and the shape of a tree *)

Module Tree.

Import Py.

(** The parsed JSON object [build_node] reads: the key [name] may be
    missing, [children] may be missing, null or empty (all of which are the
    empty list here), and [start] and [size] hold integers, the case in
    which [parse_int] returns its argument. *)
#[warnings="-register-all"]
Inductive Raw : Type :=
| mkRaw (name : option string) (start size : Z) (children : list Raw).

(** [build_node]: [d.get("name", "Unnamed")], the children built first
    and then sorted by [start] ([list.sort] is stable). *)
Fixpoint build_node (d : Raw) : Node :=
  match d with
  | mkRaw name start size children =>
      mkNode (match name with Some s => s | None => "Unnamed" end)
        start size
        (Page.sortBy n_start (map build_node children))
  end.

(** The nodes of a tree, parent first, children in order. *)
Fixpoint preorder (n : Node) : list Node :=
  match n with
  | mkNode _ _ _ children => n :: flat_map preorder children
  end.

(** The invariants of the Validator at one node: every child inside the
    node, each child ending where the next one starts or before. *)
Definition childInside (n c : Node) : Prop :=
  n_start n <= n_start c /\ n_end c <= n_end n.

Definition wellNested (n : Node) : Prop :=
  Forall (childInside n) (n_children n) /\
  Sorted (fun a b => n_end a <= n_start b) (n_children n).

(** A violation at node [m], reported under the path text [here], and
    its message. *)
Inductive violation (m : Node) (here : string) : string -> Prop :=
| child_outside : forall c,
    In c (n_children m) ->
    n_start c < n_start m \/ n_end m < n_end c ->
    violation m here (containmentMsg here m c)
| children_overlap : forall a b,
    adjacent a b (n_children m) ->
    n_start b < n_end a ->
    violation m here (overlapMsg here a b).

End Tree.

(** ** One level of the page *)

Module Level.

(** The record [flatten] appends for the node itself. *)
Definition record (n : Py.Node) (depth : Z) (parent_id : string)
  : FlatNode :=
  {| fn_id := Py.nodeId parent_id n; fn_name := Py.n_name n;
     fn_start := Py.n_start n; fn_size := Py.n_size n;
     fn_end := Py.n_end n; fn_depth := depth;
     fn_parent := Py.parentOf parent_id |}.

(** The number of display items of a level whose range holds an
    address. *)
Definition itemsCovering (items : list DisplayItem) (x : Z) : nat :=
  List.length
    (filter (fun it => GapSynthesizer.coversb (it_start it) (it_end it) x)
       items).

(** Every address of the node lies in exactly one item, any other address
    in none. *)
Definition tiled (node : FlatNode) (items : list DisplayItem) : Prop :=
  forall x : Z,
    itemsCovering items x =
    if GapSynthesizer.coversb (fn_start node) (fn_end node) x
    then 1%nat else 0%nat.

(** The test of [childrenOf]: [n.parent === parentId]. *)
Definition parentIs (parentId : string) (n : FlatNode) : bool :=
  match fn_parent n with
  | Some p => String.eqb p parentId
  | None => false
  end.

(** [depthClass]: the style class of a nesting depth. *)
Definition depthClass (depth : Z) : string :=
  ("depth-" ++ numToString (Z.min 4 (Z.max 0 depth)))%string.

End Level.

(** ** The top stack during a session *)

Module Session.

Import Expansion.

(** A block [cur] of the page that was created as [el]: not touched since,
    or expanded by a click and, while expanded, given another height by a
    relayout and other slices in its nested stack. *)
Definition leftAs (nodes : list FlatNode) (el cur : Block) : Prop :=
  cur = el \/
  exists expandedEl height nested,
    click nodes el = Some expandedEl /\
    cur = whileExpanded height nested expandedEl.

End Session.

(** Sample inputs: the root of the specification's scenario,
    [[0x0000_0000, 0x1000_0000)], with children [A = [0x0, 0x4_0000)] and
    [B = [0x8_0000, 0xC_0000)], and a childless node of sixteen bytes. *)
Module Samples.

Definition rootNode : FlatNode :=
  mkFlatNode "R@0x0" "R" 0 268435456 268435456 0 None.
Definition nodeA : FlatNode :=
  mkFlatNode "R@0x0/A@0x0" "A" 0 262144 262144 1 (Some "R@0x0").
Definition nodeB : FlatNode :=
  mkFlatNode "R@0x0/B@0x80000" "B" 524288 262144 786432 1 (Some "R@0x0").
Definition leafNode : FlatNode :=
  mkFlatNode "L@0x0" "L" 0 16 16 0 None.

(** The same scenario as a tree, before flattening. *)
Definition rootTree : Py.Node :=
  Py.mkNode "R" 0 268435456
    [Py.mkNode "A" 0 262144 []; Py.mkNode "B" 524288 262144 []].

(** Two children of which the first ends after the second starts. *)
Definition overlapTree : Py.Node :=
  Py.mkNode "R" 0 16 [Py.mkNode "A" 0 8 []; Py.mkNode "B" 4 8 []].

(** A child that reaches beyond its parent. *)
Definition outsideTree : Py.Node :=
  Py.mkNode "R" 0 16 [Py.mkNode "A" 0 32 []].

(** Three rendered slices (the middle one a gap) whose last top edge and
    bottom edge round to different pixels, and a stack of two slices of
    which the second is so thin that both of its edges round to the same
    pixel as well as its top edge being that of the first bottom. *)
Definition threeSlices : list Markers.Slice :=
  [Markers.mkSlice 10 62 false "tan" 1;
   Markers.mkSlice 62 114 true "grey" 1;
   Markers.mkSlice (1141 # 10) 166 false "blue" 1].

Definition threeItems : list DisplayItem :=
  [Child nodeA;
   GapItem (GapSynthesizer.gapAt rootNode 262144 524288);
   Child nodeB].

Definition thinSlices : list Markers.Slice :=
  [Markers.mkSlice 0 52 false "tan" 0;
   Markers.mkSlice 52 (261 # 5) false "blue" 0].

Definition thinItems : list DisplayItem := [Child nodeA; Child nodeB].

Definition stackBox : Markers.Box := Markers.mkBox 10 2 "white".

(** A page whose first top-level block can be drilled into: [A] has a
    child of its own. *)
Definition deepTree : Py.Node :=
  Py.mkNode "R" 0 268435456
    [Py.mkNode "A" 0 262144 [Py.mkNode "A1" 4096 8192 []];
     Py.mkNode "B" 524288 262144 []].

Definition deepNodes : list FlatNode := Py.flatten deepTree 0 "".

Definition deepRoot : FlatNode :=
  mkFlatNode "R@0x0" "R" 0 268435456 268435456 0 None.

(** Its top-level slices in a window 600 pixels high, and the first of
    them, the block of [A]. *)
Definition deepSlices : list Expansion.Block :=
  Expansion.renderTop deepNodes SpaceAllocator.exactShare deepRoot (Some 600).

Definition deepSlice : Expansion.Block :=
  nth 0 deepSlices (Expansion.sliceOf (Child deepRoot) 0).

(** Two empty ranges at the same address and with the same name. *)
Definition twinTree : Py.Node :=
  Py.mkNode "R" 0 16 [Py.mkNode "A" 5 0 []; Py.mkNode "A" 5 0 []].

(** Three leaves of equal size, as in the allocation scenario. *)
Definition threeEqual : list DisplayItem :=
  [Child (mkFlatNode "R@0x0/a@0x0" "a" 0 1 1 1 (Some "R@0x0"));
   Child (mkFlatNode "R@0x0/b@0x1" "b" 1 1 2 1 (Some "R@0x0"));
   Child (mkFlatNode "R@0x0/c@0x2" "c" 2 1 3 1 (Some "R@0x0"))].

(** The scenario as the JSON object of the input file, the children
    listed in the opposite order and the root without a name. *)
Definition rawTree : Tree.Raw :=
  Tree.mkRaw None 0 268435456
    [Tree.mkRaw (Some "B") 524288 262144 [];
     Tree.mkRaw (Some "A") 0 262144 []].

(** The top stack of the sample page after a click on its first slice
    and a relayout of the expanded block to 300 pixels. *)
Definition deepSlicesClicked : list Expansion.Block :=
  match deepSlices with
  | first :: rest =>
      match Expansion.click deepNodes first with
      | Some e => Expansion.whileExpanded 300 [] e :: rest
      | None => deepSlices
      end
  | [] => []
  end.

End Samples.

(** * Part II: properties *)

(** ** Gap synthesis *)

Lemma ForallOrdPairs_snoc {A : Type} (R : A -> A -> Prop) (l : list A) (x : A) :
  ForallOrdPairs R l -> Forall (fun y => R y x) l ->
  ForallOrdPairs R (l ++ [x]).
Proof.
  induction 1 as [|a l Ha Hl IH]; intros Hx; simpl.
  - constructor; constructor.
  - inversion Hx; subst. constructor; auto.
    apply Forall_app; split; auto.
Qed.

Section GapFacts.
Import GapSynthesizer.

Variable root : FlatNode.

Lemma coversb_spec s e x : reflect (s <= x < e) (coversb s e x).
Proof.
  unfold coversb. apply iff_reflect.
  rewrite andb_true_iff, Z.leb_le, Z.ltb_lt. tauto.
Qed.

(** Case analysis on every range test of the goal, closed by arithmetic. *)
Ltac cov :=
  repeat match goal with
  | |- context [coversb ?s ?e ?x] => destruct (coversb_spec s e x)
  end; simpl; try lia.

Lemma scan_cons k kids st :
  scan root (k :: kids) st = scan root kids (scanStep root st k).
Proof. reflexivity. Qed.

Lemma kidsCovering_cons k kids x :
  kidsCovering (k :: kids) x =
  ((if coversb (fn_start k) (fn_end k) x then 1 else 0) + kidsCovering kids x)%nat.
Proof.
  unfold kidsCovering; simpl.
  destruct (coversb (fn_start k) (fn_end k) x); reflexivity.
Qed.

Lemma gapsCovering_cons g gaps x :
  gapsCovering (g :: gaps) x =
  ((if coversb (gap_start g) (gap_end g) x then 1 else 0) + gapsCovering gaps x)%nat.
Proof.
  unfold gapsCovering; simpl.
  destruct (coversb (gap_start g) (gap_end g) x); reflexivity.
Qed.

Lemma gapsCovering_app g1 g2 x :
  gapsCovering (g1 ++ g2) x = (gapsCovering g1 x + gapsCovering g2 x)%nat.
Proof.
  unfold gapsCovering. now rewrite filter_app, length_app.
Qed.

(** The scan only ever appends to the array it was given. *)
Lemma scan_appends kids : forall gaps cur,
  exists new cur', scan root kids (gaps, cur) = (gaps ++ new, cur').
Proof.
  induction kids as [|k kids IH]; intros gaps cur.
  - exists [], cur. simpl. now rewrite app_nil_r.
  - rewrite scan_cons. simpl.
    destruct (fn_start k >? cur).
    + destruct (IH (gaps ++ [gapAt root cur (fn_start k)]) (Z.max cur (fn_end k)))
        as (new & cur' & E).
      exists (gapAt root cur (fn_start k) :: new), cur'.
      rewrite E. now rewrite <- app_assoc.
    + apply IH.
Qed.

Lemma gapAt_positive cur stop : cur < stop -> positiveGap (gapAt root cur stop).
Proof. unfold positiveGap; simpl; lia. Qed.

(** Every range the scan pushes is non-empty, for any children at all. *)
Lemma scan_positive kids : forall gaps cur,
  Forall positiveGap gaps ->
  Forall positiveGap (fst (scan root kids (gaps, cur))).
Proof.
  induction kids as [|k kids IH]; intros gaps cur Hg; [exact Hg|].
  rewrite scan_cons. simpl.
  destruct (fn_start k >? cur) eqn:E; apply IH; auto.
  apply Forall_app; split; auto.
  constructor; [|constructor]. apply gapAt_positive. now apply Z.gtb_lt.
Qed.

(** Children that follow a child in a validated list start at or after its
    end. *)
Lemma apart_all k kids :
  Sorted apart (k :: kids) ->
  Forall (fun c => fn_start c <= fn_end c) kids ->
  Forall (fun c => fn_end k <= fn_start c) kids.
Proof.
  revert k. induction kids as [|c kids IH]; intros k Hs Hw; constructor.
  - inversion Hs as [|? ? _ Hh]; subst. inversion Hh; subst. assumption.
  - inversion Hs as [|? ? Hs' Hh]; subst. inversion Hh as [|? ? Hkc]; subst.
    inversion Hw as [|? ? Hc Hw']; subst.
    specialize (IH c Hs' Hw').
    eapply Forall_impl; [|exact IH]. unfold apart in Hkc. simpl. intros; lia.
Qed.

(** The loop invariant of the scan over validated children: what was pushed
    and the children scanned tile [[cur, cur')] exactly. *)
Lemma scan_tiles kids : forall gaps cur,
  Forall (fun k => cur <= fn_start k /\ fn_start k <= fn_end k) kids ->
  Sorted apart kids ->
  exists new cur',
    scan root kids (gaps, cur) = (gaps ++ new, cur') /\
    cur <= cur' /\
    Forall (fun g => cur <= gap_start g /\ gap_end g <= cur') new /\
    Forall (fun k => fn_end k <= cur') kids /\
    (forall B, cur <= B -> Forall (fun k => fn_end k <= B) kids -> cur' <= B) /\
    ForallOrdPairs (fun g1 g2 => gap_end g1 <= gap_start g2) new /\
    (forall g k, In g new -> In k kids ->
       gap_end g <= fn_start k \/ fn_end k <= gap_start g) /\
    (forall x, (kidsCovering kids x + gapsCovering new x)%nat =
               if coversb cur cur' x then 1%nat else 0%nat).
Proof.
  induction kids as [|k kids IH]; intros gaps cur Hk Hs.
  - exists [], cur. simpl. rewrite app_nil_r.
    repeat split; auto; try lia; try constructor; try contradiction.
    intros x. cbn. cov.
  - inversion Hk as [|? ? [Hk1 Hk2] Hk']; subst.
    assert (Hs' : Sorted apart kids) by (inversion Hs; assumption).
    assert (Hnext : Forall (fun c => Z.max cur (fn_end k) <= fn_start c /\
                                     fn_start c <= fn_end c) kids).
    { assert (Ha := apart_all k kids Hs
                      (Forall_impl _ (fun c H => proj2 H) Hk')).
      rewrite Forall_forall in *. intros c Hc.
      specialize (Ha c Hc). specialize (Hk' c Hc). simpl in *. lia. }
    rewrite scan_cons. simpl.
    destruct (fn_start k >? cur) eqn:E.
    + apply Z.gtb_lt in E.
      destruct (IH (gaps ++ [gapAt root cur (fn_start k)])
                   (Z.max cur (fn_end k)) Hnext Hs')
        as (new & cur' & Esc & Hle & Hnew & Hends & Hbound & Hord & Hdis & Hcnt).
      exists (gapAt root cur (fn_start k) :: new), cur'.
      rewrite Esc, <- app_assoc. simpl.
      split; [reflexivity|]. split; [lia|].
      split.
      { constructor; [simpl; lia|].
        eapply Forall_impl; [|exact Hnew]. simpl. intros; lia. }
      split.
      { constructor; [lia|exact Hends]. }
      split.
      { intros B HB HF. inversion HF; subst. apply Hbound; auto. lia. }
      split.
      { constructor; [|exact Hord].
        eapply Forall_impl; [|exact Hnew]. simpl. intros; lia. }
      split.
      { intros g c [Hg|Hg] [Hc|Hc]; subst; simpl.
        - left; lia.
        - rewrite Forall_forall in Hnext. specialize (Hnext c Hc). left; lia.
        - rewrite Forall_forall in Hnew. specialize (Hnew g Hg). right; lia.
        - apply Hdis; assumption. }
      intros x. rewrite kidsCovering_cons, gapsCovering_cons.
      specialize (Hcnt x). simpl.
      assert (Hrest : (kidsCovering kids x + gapsCovering new x)%nat =
                      if coversb (Z.max cur (fn_end k)) cur' x then 1%nat else 0%nat)
        by exact Hcnt.
      clear Hcnt.
      transitivity
        ((if coversb (fn_start k) (fn_end k) x then 1 else 0) +
         (if coversb cur (fn_start k) x then 1 else 0) +
         (kidsCovering kids x + gapsCovering new x))%nat; [lia|].
      rewrite Hrest. cov.
    + rewrite Z.gtb_ltb in E. apply Z.ltb_ge in E.
      destruct (IH gaps (Z.max cur (fn_end k)) Hnext Hs')
        as (new & cur' & Esc & Hle & Hnew & Hends & Hbound & Hord & Hdis & Hcnt).
      exists new, cur'.
      split; [exact Esc|]. split; [lia|].
      split.
      { eapply Forall_impl; [|exact Hnew]. simpl. intros; lia. }
      split.
      { constructor; [lia|exact Hends]. }
      split.
      { intros B HB HF. inversion HF; subst. apply Hbound; auto. lia. }
      split; [exact Hord|].
      split.
      { intros g c Hg [Hc|Hc]; subst.
        - rewrite Forall_forall in Hnew. specialize (Hnew g Hg). right; lia.
        - apply Hdis; assumption. }
      intros x. rewrite kidsCovering_cons.
      specialize (Hcnt x).
      transitivity
        ((if coversb (fn_start k) (fn_end k) x then 1 else 0) +
         (kidsCovering kids x + gapsCovering new x))%nat; [lia|].
      rewrite Hcnt. cov.
Qed.

End GapFacts.

Import GapSynthesizer.

(** The scenario of the specification: the gaps of the root are
    [[0x4_0000, 0x8_0000)] and [[0xC_0000, 0x1000_0000)]. *)
Example gapsFromChildren_scenario :
  map (fun g => (gap_start g, gap_end g))
      (gapsFromChildren Samples.rootNode [Samples.nodeA; Samples.nodeB]) =
  [(262144, 524288); (786432, 268435456)].
Proof. reflexivity. Qed.

(** C1, as stated, fails: a parent without children gets no gap at all
    (the function returns early), so nothing covers its range. *)
Lemma gapsFromChildren_childless_not_tiled :
  validChildren Samples.leafNode [] /\
  ~ tilesParent Samples.leafNode [] (gapsFromChildren Samples.leafNode []).
Proof.
  split.
  - split; constructor.
  - intros H. specialize (H 0). vm_compute in H. discriminate.
Qed.

(** C1, amended: for a parent with at least one child, and children as
    the Validator leaves them (each of non-negative extent and inside the
    parent, adjacent ones not overlapping), the gaps are pairwise disjoint
    (each ends before the next starts), no gap overlaps a child, and the
    children and gaps together tile [[parent.start, parent.end)] exactly. *)
Theorem gapsFromChildren_tiles (root : FlatNode) (kids : list FlatNode) :
  kids <> [] ->
  validChildren root kids ->
  gapsDisjoint (gapsFromChildren root kids) /\
  gapsAvoidKids kids (gapsFromChildren root kids) /\
  tilesParent root kids (gapsFromChildren root kids).
Proof.
  intros Hne [Hc Hs].
  destruct kids as [|k0 kids0]; [congruence|]. clear Hne.
  set (kids := k0 :: kids0) in *.
  unfold gapsFromChildren. fold kids.
  assert (Hpre : Forall (fun k => fn_start root <= fn_start k /\
                                  fn_start k <= fn_end k) kids).
  { eapply Forall_impl; [|exact Hc]. unfold contained. intros; lia. }
  destruct (scan_tiles root kids [] (fn_start root) Hpre Hs)
    as (new & cur' & Esc & Hle & Hnew & Hends & Hbound & Hord & Hdis & Hcnt).
  assert (Hcur : cur' <= fn_end root).
  { apply Hbound.
    - inversion Hc as [|? ? Hk0 _]. unfold contained in Hk0. lia.
    - eapply Forall_impl; [|exact Hc]. unfold contained. intros; lia. }
  change (match kids with [] => [] | _ :: _ =>
            let '(gaps, cur) := scan root kids ([], fn_start root) in
            if cur <? fn_end root then gaps ++ [gapAt root cur (fn_end root)]
            else gaps end)
    with (let '(gaps, cur) := scan root kids ([], fn_start root) in
          if cur <? fn_end root then gaps ++ [gapAt root cur (fn_end root)]
          else gaps).
  rewrite Esc. simpl app.
  destruct (Z.ltb_spec cur' (fn_end root)) as [Hlt|Hge].
  - split; [|split].
    + unfold gapsDisjoint. apply ForallOrdPairs_snoc; auto.
      eapply Forall_impl; [|exact Hnew]. simpl. intros; lia.
    + intros g k Hg Hk. apply in_app_or in Hg. destruct Hg as [Hg|[Hg|[]]].
      * apply Hdis; assumption.
      * subst. simpl. right.
        rewrite Forall_forall in Hends. apply Hends; assumption.
    + intros x. rewrite gapsCovering_app, Nat.add_assoc, Hcnt.
      rewrite gapsCovering_cons. simpl gap_start. simpl gap_end.
      change (gapsCovering [] x) with 0%nat.
      repeat match goal with
      | |- context [coversb ?s ?e ?y] => destruct (coversb_spec s e y)
      end; simpl; lia.
  - assert (cur' = fn_end root) by lia. subst cur'.
    split; [exact Hord|]. split; [exact Hdis|]. exact Hcnt.
Qed.

Lemma gapsFromChildren_tiles_witness :
  [Samples.nodeA; Samples.nodeB] <> [] /\
  validChildren Samples.rootNode [Samples.nodeA; Samples.nodeB] /\
  (gapsDisjoint
     (gapsFromChildren Samples.rootNode [Samples.nodeA; Samples.nodeB]) /\
   gapsAvoidKids [Samples.nodeA; Samples.nodeB]
     (gapsFromChildren Samples.rootNode [Samples.nodeA; Samples.nodeB]) /\
   tilesParent Samples.rootNode [Samples.nodeA; Samples.nodeB]
     (gapsFromChildren Samples.rootNode [Samples.nodeA; Samples.nodeB])).
Proof.
  assert (Hv : validChildren Samples.rootNode [Samples.nodeA; Samples.nodeB]).
  { split.
    - repeat constructor; simpl; lia.
    - repeat constructor. unfold apart; simpl; lia. }
  split; [discriminate|]. split; [exact Hv|].
  apply (gapsFromChildren_tiles Samples.rootNode [Samples.nodeA; Samples.nodeB]).
  - discriminate.
  - exact Hv.
Defined.

(** C2, as stated, fails: a childless parent of positive size gets no gap,
    not one gap over its whole range. *)
Lemma gapsFromChildren_childless_no_full_gap :
  0 < fn_size Samples.leafNode /\
  gapsFromChildren Samples.leafNode [] <>
  [gapAt Samples.leafNode (fn_start Samples.leafNode) (fn_end Samples.leafNode)].
Proof. split; [reflexivity|discriminate]. Qed.

(** C2, amended: a parent with zero children gets zero gaps, whatever its
    size (the function returns the empty array before it scans). *)
Theorem gapsFromChildren_childless (root : FlatNode) :
  gapsFromChildren root [] = [].
Proof. reflexivity. Qed.

(** C9: every synthesised gap is non-empty: its start lies strictly below
    its end, and its [size] field, their difference, is strictly positive.
    No assumption on the parent or the children is needed. *)
Theorem gapsFromChildren_positive (root : FlatNode) (kids : list FlatNode) :
  Forall positiveGap (gapsFromChildren root kids).
Proof.
  unfold gapsFromChildren. destruct kids as [|k kids]; [constructor|].
  pose proof (scan_positive root (k :: kids) [] (fn_start root)
                (Forall_nil _)) as H.
  destruct (scan root (k :: kids) ([], fn_start root)) as [gaps cur].
  simpl in H.
  destruct (Z.ltb_spec cur (fn_end root)); [|exact H].
  apply Forall_app; split; [exact H|].
  constructor; [|constructor]. now apply gapAt_positive.
Qed.

(** ** Space allocation *)

Import SpaceAllocator PassView.

(** The scenario of the specification: budget 100, three equal items,
    bounds 10 and 140. *)
Example computeHeightsToFit_scenario :
  computeHeightsToFit exactShare Samples.threeEqual 10 140 100 52 =
  ([34; 33; 33], 100).
Proof. vm_compute. reflexivity. Qed.

(** *** Arrays *)

Lemma sum_from (l : list Z) : forall a, fold_left Z.add l a = a + sum l.
Proof.
  unfold sum. induction l as [|x l IH]; intros a; simpl; [lia|].
  rewrite IH, (IH x). lia.
Qed.

Lemma sum_cons (x : Z) (l : list Z) : sum (x :: l) = x + sum l.
Proof. unfold sum at 1. simpl. apply sum_from. Qed.


Lemma upd_middle {A : Type} (pre : list A) (x v : A) (post : list A) :
  upd (List.length pre) v (pre ++ x :: post) = pre ++ v :: post.
Proof. induction pre as [|y pre IH]; simpl; [reflexivity|now rewrite IH]. Qed.

Lemma hd_skipn {A : Type} (d : A) (l : list A) (k : nat) :
  hd d (skipn k l) = nth k l d.
Proof.
  revert l. induction k as [|k IH]; intros [|x l]; simpl; auto.
Qed.

Lemma tl_skipn {A : Type} (l : list A) (k : nat) :
  tl (skipn k l) = skipn (S k) l.
Proof.
  revert l. induction k as [|k IH]; intros [|x l]; simpl; auto.
Qed.

(** *** The loops of the script are passes *)

Section Bridge.

Variable items : list DisplayItem.
Variables minPx maxPx : Z.

Let flags := isGap items.

Lemma growLoop_pass (post : list Z) : forall pre step delta,
  growLoop maxPx
    (filter (fun i => 0 <=? i)
       (mapiFrom (List.length pre)
          (fun i h => if negb (nth i flags false) && (h <? maxPx)
                      then Z.of_nat i else -1) post))
    step (pre ++ post) delta =
  let '(r, d) :=
    pass (fun h => maxPx - h) Z.add (fun h => h <? maxPx) (fun r => r)
         step (skipn (List.length pre) flags) post delta in
  (pre ++ r, d).
Proof.
  induction post as [|h post IH]; intros pre step delta.
  - reflexivity.
  - cbn [mapiFrom pass]. unfold movable.
    rewrite hd_skipn, tl_skipn.
    assert (Hnext := IH (pre ++ [h])).
    rewrite length_app, Nat.add_1_r in Hnext.
    destruct (negb (nth (List.length pre) flags false) && (h <? maxPx)) eqn:E.
    + cbn [filter].
      replace (0 <=? Z.of_nat (List.length pre)) with true
        by (symmetry; apply Z.leb_le; lia).
      cbn [growLoop]. rewrite Nat2Z.id, nth_middle, upd_middle.
      destruct (Z.eqb_spec (delta - Z.min (Z.min step (maxPx - h)) delta) 0)
        as [E0|E0]; [now rewrite E0|].
      specialize (IH (pre ++ [h + Z.min (Z.min step (maxPx - h)) delta])
                     step (delta - Z.min (Z.min step (maxPx - h)) delta)).
      rewrite length_app, Nat.add_1_r, <- app_assoc in IH. cbn [app] in IH.
      rewrite IH.
      destruct (pass _ _ _ _ _ _ _ _) as [r d]. cbn iota.
      now rewrite <- app_assoc.
    + cbn [filter]. change (0 <=? -1) with false. cbn iota.
      specialize (Hnext step delta). rewrite <- app_assoc in Hnext.
      cbn [app] in Hnext. rewrite Hnext.
      destruct (pass _ _ _ _ _ _ _ _) as [r d]. cbn iota.
      now rewrite <- app_assoc.
Qed.

Lemma shrinkLoop_pass (need : Z) (post : list Z) : forall pre step delta,
  shrinkLoop minPx
    (filter (fun i => 0 <=? i)
       (mapiFrom (List.length pre)
          (fun i h => if negb (nth i flags false) && (h >? minPx)
                      then Z.of_nat i else -1) post))
    step need (pre ++ post) delta =
  let '(r, d) :=
    pass (fun h => h - minPx) Z.sub (fun h => h >? minPx) (fun _ => need)
         step (skipn (List.length pre) flags) post (- delta) in
  (pre ++ r, - d).
Proof.
  induction post as [|h post IH]; intros pre step delta.
  - cbn. now rewrite Z.opp_involutive.
  - cbn [mapiFrom pass]. unfold movable.
    rewrite hd_skipn, tl_skipn.
    assert (Hnext := IH (pre ++ [h])).
    rewrite length_app, Nat.add_1_r in Hnext.
    destruct (negb (nth (List.length pre) flags false) && (h >? minPx)) eqn:E.
    + cbn [filter].
      replace (0 <=? Z.of_nat (List.length pre)) with true
        by (symmetry; apply Z.leb_le; lia).
      cbn [shrinkLoop]. rewrite Nat2Z.id, nth_middle, upd_middle.
      set (sub := Z.min (Z.min step (h - minPx)) need).
      destruct (Z.eqb_spec (delta + sub) 0) as [E0|E0].
      * replace (- delta - sub =? 0) with true
          by (symmetry; apply Z.eqb_eq; lia).
        now rewrite E0.
      * replace (- delta - sub =? 0) with false
          by (symmetry; apply Z.eqb_neq; lia).
        specialize (IH (pre ++ [h - sub]) step (delta + sub)).
        rewrite length_app, Nat.add_1_r, <- app_assoc in IH. cbn [app] in IH.
        rewrite IH.
        replace (- (delta + sub)) with (- delta - sub) by lia.
        clear IH Hnext.
        destruct (pass _ _ _ _ _ _ _ _) as [r d]. cbn iota.
        now rewrite <- app_assoc.
    + cbn [filter]. change (0 <=? -1) with false. cbn iota.
      specialize (Hnext step delta). rewrite <- app_assoc in Hnext.
      cbn [app] in Hnext. rewrite Hnext.
      destruct (pass _ _ _ _ _ _ _ _) as [r d]. cbn iota.
      now rewrite <- app_assoc.
Qed.

End Bridge.

(** *** What one pass does *)

Section PassFacts.

Variable room : Z -> Z.
Variable move : Z -> Z -> Z.
Variable isOpen : Z -> bool.
Variable cap : Z -> Z.
Variable sgn : Z.

Hypothesis open_spec : forall h, isOpen h = true <-> 0 < room h.
Hypothesis room_move : forall h a, room (move h a) = room h - a.
Hypothesis move_sum : forall h a, move h a = h + sgn * a.

Local Abbreviation run := (pass room move isOpen cap).
Local Abbreviation cnt := (openCount isOpen).

Lemma openCount_nonneg hs : forall flags, 0 <= cnt flags hs.
Proof.
  induction hs as [|h hs IH]; intros flags; simpl; [lia|].
  specialize (IH (tl flags)). destruct (movable _ _ _); lia.
Qed.

Lemma pass_length step hs : forall flags rem,
  List.length (fst (run step flags hs rem)) = List.length hs.
Proof.
  induction hs as [|h hs IH]; intros flags rem; simpl; [reflexivity|].
  destruct (movable _ _ _).
  - destruct (_ =? 0); [reflexivity|].
    specialize (IH (tl flags)
                  (rem - Z.min (Z.min step (room h)) (cap rem))).
    destruct (run _ _ _ _) as [r d]. simpl in *. now f_equal.
  - specialize (IH (tl flags) rem).
    destruct (run _ _ _ _) as [r d]. simpl in *. now f_equal.
Qed.

(** What is handed out is exactly what the entries move by. *)
Lemma pass_sum step hs : forall flags rem,
  sum (fst (run step flags hs rem)) =
  sum hs + sgn * (rem - snd (run step flags hs rem)).
Proof.
  induction hs as [|h hs IH]; intros flags rem; simpl.
  - rewrite Z.sub_diag, Z.mul_0_r. reflexivity.
  - destruct (movable _ _ _).
    + set (a := Z.min (Z.min step (room h)) (cap rem)).
      destruct (Z.eqb_spec (rem - a) 0) as [E|E]; simpl.
      * rewrite !sum_cons, move_sum. replace (rem - 0) with a by lia. lia.
      * specialize (IH (tl flags) (rem - a)).
        destruct (run _ _ _ _) as [r d]; cbn [fst snd] in *.
        rewrite !sum_cons, move_sum, IH. lia.
    + specialize (IH (tl flags) rem).
      destruct (run _ _ _ _) as [r d]; cbn [fst snd] in *.
      rewrite !sum_cons, IH. lia.
Qed.

Section Shape.

Variable gapPx : Z.
Variable ok : Z -> Prop.
Variable live : Z -> Prop.

Hypothesis ok_move : forall h a, ok h -> 0 <= a <= room h -> ok (move h a).
Hypothesis live_cap : forall r, live r -> 0 <= cap r.
Hypothesis live_next :
  forall r a, live r -> a <= cap r -> r - a <> 0 -> live (r - a).

(** Gap entries are never touched and non-gap entries stay [ok]. *)
Lemma pass_shaped step hs : forall flags rem,
  0 <= step -> live rem ->
  shaped gapPx ok flags hs ->
  shaped gapPx ok flags (fst (run step flags hs rem)).
Proof.
  induction hs as [|h hs IH]; intros flags rem Hstep Hlive Hsh.
  - exact Hsh.
  - inversion Hsh as [|b ? flags' ? Hb Hrest]; subst. simpl.
    unfold movable. destruct b; simpl.
    + specialize (IH flags' rem Hstep Hlive Hrest).
      destruct (run _ _ _ _) as [r d]; cbn [fst snd] in *.
      constructor; assumption.
    + destruct (isOpen h) eqn:Eo.
      * apply open_spec in Eo. pose proof (live_cap _ Hlive) as Hc.
        set (a := Z.min (Z.min step (room h)) (cap rem)).
        assert (Ha : 0 <= a <= room h) by (unfold a; lia).
        destruct (Z.eqb_spec (rem - a) 0) as [E|E]; simpl.
        -- constructor; [apply ok_move; assumption|assumption].
        -- assert (Hl : live (rem - a))
             by (apply live_next; [assumption|unfold a; lia|assumption]).
           specialize (IH flags' (rem - a) Hstep Hl Hrest).
           destruct (run _ _ _ _) as [r d]; cbn [fst snd] in *.
           constructor; [apply ok_move; assumption|assumption].
      * specialize (IH flags' rem Hstep Hlive Hrest).
        destruct (run _ _ _ _) as [r d]; cbn [fst snd] in *.
        constructor; assumption.
Qed.

End Shape.

Lemma openCount_cons h hs flags :
  cnt flags (h :: hs) =
  (if movable isOpen (hd false flags) h then 1 else 0) + cnt (tl flags) hs.
Proof. reflexivity. Qed.

Lemma pass_cons step h hs flags rem :
  run step flags (h :: hs) rem =
  if movable isOpen (hd false flags) h then
    let a := Z.min (Z.min step (room h)) (cap rem) in
    if rem - a =? 0 then (move h a :: hs, 0)
    else let '(r, d) := run step (tl flags) hs (rem - a) in (move h a :: r, d)
  else let '(r, d) := run step (tl flags) hs rem in (h :: r, d).
Proof. reflexivity. Qed.

Lemma movable_open b h : movable isOpen b h = true -> b = false /\ 0 < room h.
Proof.
  unfold movable. intros H. apply andb_true_iff in H. destruct H as [Hb Ho].
  split; [now destruct b|now apply open_spec].
Qed.

(** With a step of one and no more to hand out than there are open
    entries, the pass hands out everything. *)
Lemma pass_exhausts hs : forall flags rem,
  (forall r, 1 <= r -> 1 <= cap r) ->
  0 < rem <= cnt flags hs ->
  snd (run 1 flags hs rem) = 0.
Proof.
  induction hs as [|h hs IH]; intros flags rem Hcap Hrem.
  - simpl in Hrem. lia.
  - rewrite openCount_cons in Hrem. rewrite pass_cons.
    destruct (movable isOpen (hd false flags) h) eqn:Em.
    + apply movable_open in Em. destruct Em as [_ Eo].
      assert (Hc : 1 <= cap rem) by (apply Hcap; lia).
      cbv zeta.
      replace (Z.min (Z.min 1 (room h)) (cap rem)) with 1 by lia.
      destruct (Z.eqb_spec (rem - 1) 0) as [E|E]; [reflexivity|].
      specialize (IH (tl flags) (rem - 1) Hcap).
      destruct (run 1 (tl flags) hs (rem - 1)) as [r d]; cbn [fst snd] in *.
      apply IH. lia.
    + specialize (IH (tl flags) rem Hcap).
      destruct (run 1 (tl flags) hs rem) as [r d]; cbn [fst snd] in *.
      apply IH. lia.
Qed.

(** With at least [step] for every open entry, each open entry moves by
    [min step room]; the entries that stay open took a full step, the
    others at least one unit. *)
Lemma pass_spreads step hs : forall flags rem,
  1 <= step ->
  (forall r, step <= r -> step <= cap r) ->
  step * cnt flags hs <= rem ->
  0 <= snd (run step flags hs rem) /\
  cnt flags (fst (run step flags hs rem)) <= cnt flags hs /\
  snd (run step flags hs rem) +
    cnt flags (fst (run step flags hs rem)) * step +
    (cnt flags hs - cnt flags (fst (run step flags hs rem))) <= rem.
Proof.
  induction hs as [|h hs IH]; intros flags rem Hstep Hcap Hrem.
  - simpl in *. lia.
  - pose proof (openCount_nonneg hs (tl flags)) as Hnn.
    rewrite openCount_cons in *. rewrite pass_cons.
    destruct (movable isOpen (hd false flags) h) eqn:Em.
    + destruct (movable_open _ _ Em) as [Ef Eo].
      assert (Hc : step <= cap rem) by (apply Hcap; nia).
      cbv zeta.
      set (a := Z.min (Z.min step (room h)) (cap rem)).
      assert (Ha : a = Z.min step (room h)) by (unfold a; lia).
      assert (Hopen' : movable isOpen (hd false flags) (move h a) =
                       (step <? room h)).
      { unfold movable. rewrite Ef. simpl.
        destruct (Z.ltb_spec step (room h)) as [Hlt|Hge].
        - apply open_spec. rewrite room_move. lia.
        - destruct (isOpen (move h a)) eqn:E'; [|reflexivity].
          apply open_spec in E'. rewrite room_move in E'. lia. }
      destruct (Z.eqb_spec (rem - a) 0) as [E|E]; cbn [fst snd].
      * rewrite openCount_cons, Hopen'.
        assert (Hz : cnt (tl flags) hs = 0) by nia.
        rewrite Hz.
        destruct (Z.ltb_spec step (room h)); lia.
      * assert (Hrem' : step * cnt (tl flags) hs <= rem - a) by nia.
        specialize (IH (tl flags) (rem - a) Hstep Hcap Hrem').
        destruct (run step (tl flags) hs (rem - a)) as [r d];
          cbn [fst snd] in *.
        rewrite openCount_cons, Hopen'.
        destruct (Z.ltb_spec step (room h)); lia.
    + specialize (IH (tl flags) rem Hstep Hcap).
      destruct (run step (tl flags) hs rem) as [r d]; cbn [fst snd] in *.
      rewrite openCount_cons, Em. lia.
Qed.

End PassFacts.

(** *** The first two [heights] arrays *)

Lemma mapiFrom_map {A B C : Type} (g : A -> B) (f : nat -> B -> C)
  (l : list A) : forall k,
  mapiFrom k f (map g l) = mapiFrom k (fun i x => f i (g x)) l.
Proof.
  induction l as [|x l IH]; intros k; simpl; [reflexivity|now rewrite IH].
Qed.

Lemma mapiFrom_pointwise {A B : Type} (f : nat -> A -> B) (g : A -> B)
  (l : list A) : forall k,
  (forall j x, nth_error l j = Some x -> f (k + j)%nat x = g x) ->
  mapiFrom k f l = map g l.
Proof.
  induction l as [|x l IH]; intros k H; simpl; [reflexivity|].
  f_equal.
  - rewrite <- (H 0%nat x eq_refl). now rewrite Nat.add_0_r.
  - apply IH. intros j y Hj. rewrite <- (H (S j) y Hj).
    now rewrite Nat.add_succ_r.
Qed.

Lemma nth_map_of {A B : Type} (f : A -> B) (l : list A) (i : nat) (x : A)
  (d : B) : nth_error l i = Some x -> nth i (map f l) d = f x.
Proof.
  revert i. induction l as [|y l IH]; intros [|i] H; simpl in *;
    try discriminate.
  - now inversion H.
  - now apply IH.
Qed.

Section FitFacts.

Variable floorShare : Z -> Z -> Z -> Z.
Variable items : list DisplayItem.
Variables minPx maxPx budgetPx gapPx : Z.

Local Abbreviation flags := (isGap items).

(** The clamped height of one item. *)
Let clampOf (it : DisplayItem) : Z :=
  if _isGap it then gapPx
  else Z.max minPx
         (Z.min maxPx
            (floorShare (Z.max (it_size it) 1) (sumSize items)
               (nonGapBudget items budgetPx gapPx))).

Lemma clamped_map :
  clamped floorShare items minPx maxPx budgetPx gapPx = map clampOf items.
Proof.
  unfold clamped, proportional, mapi.
  rewrite (mapiFrom_pointwise _
             (fun it => if _isGap it then gapPx
                        else floorShare (Z.max (it_size it) 1) (sumSize items)
                               (nonGapBudget items budgetPx gapPx))).
  - rewrite mapiFrom_map. apply mapiFrom_pointwise.
    intros j it Hj. simpl. unfold clampOf, isGap.
    rewrite (nth_map_of _ _ _ _ _ Hj). now destruct (_isGap it).
  - intros j it Hj. simpl. unfold isGap, sizes.
    rewrite (nth_map_of _ _ _ _ _ Hj), (nth_map_of _ _ _ _ _ Hj).
    now destruct (_isGap it).
Qed.

Lemma clamped_shaped (ok : Z -> Prop) :
  (forall h, ok (Z.max minPx (Z.min maxPx h))) ->
  shaped gapPx ok flags (clamped floorShare items minPx maxPx budgetPx gapPx).
Proof.
  intros Hok. rewrite clamped_map. unfold shaped, isGap.
  assert (H : forall l,
             Forall2 (fun (b : bool) h => if b then h = gapPx else ok h)
                     (map _isGap l) (map clampOf l)).
  { induction l as [|it l IH]; simpl; constructor; auto.
    unfold clampOf. destruct (_isGap it); auto. }
  apply H.
Qed.

(** The index arrays [growable()] and [shrinkable()] list the open
    entries. *)
Lemma growable_count (post : list Z) : forall k,
  Z.of_nat (List.length
    (filter (fun i => 0 <=? i)
       (mapiFrom k
          (fun i h => if negb (nth i flags false) && (h <? maxPx)
                      then Z.of_nat i else -1) post))) =
  openCount (fun h => h <? maxPx) (skipn k flags) post.
Proof.
  induction post as [|h post IH]; intros k; [reflexivity|].
  cbn [mapiFrom openCount]. unfold movable.
  rewrite hd_skipn, tl_skipn, <- IH.
  destruct (negb (nth k flags false) && (h <? maxPx)); cbn [filter].
  - replace (0 <=? Z.of_nat k) with true by (symmetry; apply Z.leb_le; lia).
    cbn [List.length]. lia.
  - change (0 <=? -1) with false. cbn iota. lia.
Qed.

Lemma shrinkable_count (post : list Z) : forall k,
  Z.of_nat (List.length
    (filter (fun i => 0 <=? i)
       (mapiFrom k
          (fun i h => if negb (nth i flags false) && (h >? minPx)
                      then Z.of_nat i else -1) post))) =
  openCount (fun h => h >? minPx) (skipn k flags) post.
Proof.
  induction post as [|h post IH]; intros k; [reflexivity|].
  cbn [mapiFrom openCount]. unfold movable.
  rewrite hd_skipn, tl_skipn, <- IH.
  destruct (negb (nth k flags false) && (h >? minPx)); cbn [filter].
  - replace (0 <=? Z.of_nat k) with true by (symmetry; apply Z.leb_le; lia).
    cbn [List.length]. lia.
  - change (0 <=? -1) with false. cbn iota. lia.
Qed.

Local Abbreviation cntG := (openCount (fun h => h <? maxPx) flags).
Local Abbreviation cntS := (openCount (fun h => h >? minPx) flags).
Local Abbreviation growPass :=
  (pass (fun h => maxPx - h) Z.add (fun h => h <? maxPx) (fun r => r)).
Local Abbreviation shrinkPass need :=
  (pass (fun h => h - minPx) Z.sub (fun h => h >? minPx) (fun _ => need)).

(** One turn of the [while] loop, as a pass. *)
Lemma redistributeStep_pass hs delta :
  redistributeStep items minPx maxPx hs delta =
  if delta >? 0 then
    if cntG hs =? 0 then None
    else Some (growPass (Z.max 1 (delta / cntG hs)) flags hs delta)
  else
    if cntS hs =? 0 then None
    else
      let p := shrinkPass (- delta) (Z.max 1 (- delta / cntS hs)) flags hs
                 (- delta) in
      Some (fst p, - snd p).
Proof.
  unfold redistributeStep.
  destruct (delta >? 0).
  - pose proof (growable_count hs 0) as Hc.
    pose proof (growLoop_pass items maxPx hs []) as Hp.
    cbn [List.length skipn app] in Hc, Hp.
    unfold growable, mapi. rewrite <- Hc.
    destruct (filter _ _) as [|i g] eqn:Eg; [reflexivity|].
    replace (Z.of_nat (List.length (i :: g)) =? 0) with false
      by (symmetry; apply Z.eqb_neq; simpl; lia).
    rewrite Hp. now destruct (pass _ _ _ _ _ _ _ _).
  - pose proof (shrinkable_count hs 0) as Hc.
    pose proof (shrinkLoop_pass items minPx (- delta) hs []) as Hp.
    cbn [List.length skipn app] in Hc, Hp.
    unfold shrinkable, mapi. rewrite <- Hc.
    destruct (filter _ _) as [|i g] eqn:Eg; [reflexivity|].
    replace (Z.of_nat (List.length (i :: g)) =? 0) with false
      by (symmetry; apply Z.eqb_neq; simpl; lia).
    rewrite Hp. now destruct (pass _ _ _ _ _ _ _ _).
Qed.

(** [delta] is always what the budget still lacks: every turn moves the
    entries by exactly what it takes from [delta]. *)
Lemma redistributeStep_sum hs delta hs' delta' :
  redistributeStep items minPx maxPx hs delta = Some (hs', delta') ->
  sum hs' + delta' = sum hs + delta.
Proof.
  rewrite redistributeStep_pass.
  destruct (delta >? 0).
  - destruct (cntG hs =? 0); [discriminate|]. intros H. inversion H as [E].
    pose proof (pass_sum (fun h => maxPx - h) Z.add (fun h => h <? maxPx)
                  (fun r => r) 1 (fun h a => f_equal (Z.add h)
                     (eq_sym (Z.mul_1_l a)))
                  (Z.max 1 (delta / cntG hs)) hs flags delta) as Hs.
    rewrite E in Hs. cbn [fst snd] in Hs. lia.
  - destruct (cntS hs =? 0); [discriminate|]. intros H. inversion H as [[E1 E2]].
    assert (Hm : forall h a, h - a = h + (-1) * a) by (intros; lia).
    pose proof (pass_sum (fun h => h - minPx) Z.sub (fun h => h >? minPx)
                  (fun _ => - delta) (-1) Hm
                  (Z.max 1 (- delta / cntS hs)) hs flags (- delta)) as Hs.
    lia.
Qed.

Lemma redistribute_sum guardLeft : forall hs delta,
  sum (fst (redistribute items minPx maxPx guardLeft hs delta)) +
  snd (redistribute items minPx maxPx guardLeft hs delta) = sum hs + delta.
Proof.
  induction guardLeft as [|n IH]; intros hs delta; simpl; [reflexivity|].
  destruct (delta =? 0); [reflexivity|].
  destruct (redistributeStep items minPx maxPx hs delta) as [[hs' d']|] eqn:E;
    [|reflexivity].
  rewrite IH. eapply redistributeStep_sum; eassumption.
Qed.

End FitFacts.

(** *** The layout invariant through the loop *)

Lemma Forall2_map_left {A B C : Type} (f : A -> B) (R : B -> C -> Prop)
  (l : list A) : forall l',
  Forall2 R (map f l) l' -> Forall2 (fun x => R (f x)) l l'.
Proof.
  induction l as [|x l IH]; intros l' H; inversion H; subst; constructor; auto.
Qed.

Section FitShape.

Variable items : list DisplayItem.
Variables minPx maxPx gapPx : Z.

Local Abbreviation flags := (isGap items).

Variable ok : Z -> Prop.
Hypothesis ok_grow : forall h a, ok h -> 0 <= a <= maxPx - h -> ok (h + a).
Hypothesis ok_shrink : forall h a, ok h -> 0 <= a <= h - minPx -> ok (h - a).

Lemma redistributeStep_shaped hs delta hs' delta' :
  shaped gapPx ok flags hs ->
  redistributeStep items minPx maxPx hs delta = Some (hs', delta') ->
  shaped gapPx ok flags hs'.
Proof.
  intros Hsh. rewrite redistributeStep_pass.
  destruct (Z.gtb_spec delta 0) as [Hpos|Hneg].
  - destruct (_ =? 0); [discriminate|]. intros H. inversion H as [E].
    change hs' with (fst (hs', delta')). rewrite <- E.
    apply pass_shaped with (live := fun r => 0 < r); auto; lia.
  - destruct (_ =? 0); [discriminate|]. cbv zeta. intros H.
    inversion H as [[E1 E2]].
    apply pass_shaped with (live := fun _ => True); auto; lia.
Qed.

Lemma redistribute_shaped guardLeft : forall hs delta,
  shaped gapPx ok flags hs ->
  shaped gapPx ok flags (fst (redistribute items minPx maxPx guardLeft hs delta)).
Proof.
  induction guardLeft as [|n IH]; intros hs delta Hsh; simpl; [exact Hsh|].
  destruct (delta =? 0); [exact Hsh|].
  destruct (redistributeStep items minPx maxPx hs delta) as [[hs' d']|] eqn:E;
    [|exact Hsh].
  apply IH. eapply redistributeStep_shaped; eassumption.
Qed.

End FitShape.

(** Whatever [ok] the clamp establishes and both loops keep holds of every
    non-gap height returned, and every gap height is [gapPx]. *)
Lemma computeHeightsToFit_shaped floorShare items minPx maxPx budgetPx gapPx
  (ok : Z -> Prop) :
  (forall h, ok (Z.max minPx (Z.min maxPx h))) ->
  (forall h a, ok h -> 0 <= a <= maxPx - h -> ok (h + a)) ->
  (forall h a, ok h -> 0 <= a <= h - minPx -> ok (h - a)) ->
  Forall2 (fun it h => if _isGap it then h = gapPx else ok h) items
    (fst (computeHeightsToFit floorShare items minPx maxPx budgetPx gapPx)).
Proof.
  intros Hclamp Hgrow Hshrink.
  apply Forall2_map_left with (R := fun (b : bool) h => if b then h = gapPx else ok h).
  unfold computeHeightsToFit.
  destruct items as [|it0 items0] eqn:Ei; [constructor|]. rewrite <- Ei.
  pose proof (redistribute_shaped items minPx maxPx gapPx ok Hgrow Hshrink 2000
                (clamped floorShare items minPx maxPx budgetPx gapPx)
                (budgetPx - totalH (clamped floorShare items minPx maxPx budgetPx gapPx))
                (clamped_shaped floorShare items minPx maxPx budgetPx gapPx ok Hclamp))
    as H.
  destruct (redistribute _ _ _ _ _ _) as [hs d]. exact H.
Qed.

(** C4: with [minPx <= maxPx], every height returned for a gap item is
    [gapPx] exactly (the redistribution never touches a gap entry) and
    every height returned for a non-gap item lies in [[minPx, maxPx]]. *)
Theorem computeHeightsToFit_bounds floorShare items minPx maxPx budgetPx gapPx :
  minPx <= maxPx ->
  Forall2 (fun it h => if _isGap it then h = gapPx else minPx <= h <= maxPx)
    items
    (fst (computeHeightsToFit floorShare items minPx maxPx budgetPx gapPx)).
Proof.
  intros Hmm. apply computeHeightsToFit_shaped; intros; lia.
Qed.

Lemma computeHeightsToFit_bounds_witness :
  10 <= 140 /\
  Forall2 (fun it h => if _isGap it then h = 52 else 10 <= h <= 140)
    Samples.threeEqual
    (fst (computeHeightsToFit exactShare Samples.threeEqual 10 140 100 52)).
Proof.
  split; [lia|].
  apply (computeHeightsToFit_bounds exactShare Samples.threeEqual 10 140 100 52).
  lia.
Defined.

Lemma sum_nonneg (l : list Z) : Forall (fun x => 0 <= x) l -> 0 <= sum l.
Proof.
  induction 1 as [|x l Hx Hl IH]; [reflexivity|]. rewrite sum_cons. lia.
Qed.

Lemma sizes_nonneg (items : list DisplayItem) :
  Forall (fun x => 0 <= x) (sizes items).
Proof.
  unfold sizes. induction items as [|it l IH]; simpl; constructor; auto.
  destruct (_isGap it); lia.
Qed.

(** C10: [computeHeightsToFit] returns one height per item for every item
    list.  In the proportional split a non-gap item counts with
    [max size 1] (so a size of zero counts as one) and a gap with zero; the
    divisor [sumSize] is at least one (a zero sum is replaced by one), so
    the split never divides by zero; and every non-gap item, in particular
    one of size zero, gets at least [minPx]. *)
Theorem computeHeightsToFit_total floorShare items minPx maxPx budgetPx gapPx :
  Forall2 (fun it s =>
             if _isGap it then s = 0
             else s = Z.max (it_size it) 1 /\ 1 <= s /\
                  (it_size it = 0 -> s = 1))
          items (sizes items) /\
  1 <= sumSize items /\
  (sum (sizes items) = 0 -> sumSize items = 1) /\
  Forall2 (fun it h => _isGap it = false -> minPx <= h) items
    (fst (computeHeightsToFit floorShare items minPx maxPx budgetPx gapPx)).
Proof.
  split; [|split; [|split]].
  - unfold sizes. induction items as [|it l IH]; simpl; constructor; auto.
    destruct (_isGap it); [reflexivity|]. lia.
  - unfold sumSize, orElse.
    pose proof (sum_nonneg _ (sizes_nonneg items)).
    destruct (Z.eqb_spec (sum (sizes items)) 0); lia.
  - intros H. unfold sumSize, orElse. now rewrite H.
  - eapply Forall2_impl;
      [|apply (computeHeightsToFit_shaped floorShare items minPx maxPx
                 budgetPx gapPx (fun h => minPx <= h)); intros; lia].
    intros it h H Hg. cbv beta in H. now rewrite Hg in H.
Qed.

(** *** Convergence of the redistribution *)

(** The measure of progress: (open entries) x (what is left).  A turn that
    does not finish loses at least 7/16 of it: with [t = d / c >= 1] every
    entry that stays open took [t] and every entry that closed took at
    least one. *)
Lemma potential_drop (c c' d d' t : Z) :
  1 <= c -> 0 <= c' <= c -> 1 <= t ->
  c * t <= d < c * t + c ->
  0 <= d' ->
  d' + c' * t + (c - c') <= d ->
  16 * (c' * d') <= 9 * (c * d).
Proof.
  intros Hc Hc' Ht Hd Hd' Hsum.
  destruct (Z.eq_dec t 1) as [->|Hne].
  - rewrite Z.mul_1_r in *.
    assert (H1 : c' * d' <= c * (d - c)) by (apply Z.mul_le_mono_nonneg; lia).
    assert (H2 : c * (16 * (d - c)) <= c * (9 * d))
      by (apply Z.mul_le_mono_nonneg_l; lia).
    lia.
  - set (s := c - c'). set (u := t - 1).
    assert (Hu : 1 <= u) by (unfold u; lia).
    assert (Hs : 0 <= s <= c) by (unfold s; lia).
    assert (Hd1 : d' <= s * u + c).
    { replace (s * u + c) with (c * t + c - c' * t - (c - c'))
        by (unfold s, u; ring). lia. }
    assert (H1 : c' * d' <= (c - s) * (s * u + c)).
    { replace c' with (c - s) by (unfold s; lia).
      apply Z.mul_le_mono_nonneg_l; lia. }
    assert (H2 : 16 * ((c - s) * (s * u + c)) <= 9 * (c * c * (u + 1))).
    { assert (Hsq : 0 <= (4 * u) *
                (9 * (c * c * (u + 1)) - 16 * ((c - s) * (s * u + c)))).
      { replace ((4 * u) *
                 (9 * (c * c * (u + 1)) - 16 * ((c - s) * (s * u + c))))
          with ((8 * u * s - 4 * c * (u - 1)) * (8 * u * s - 4 * c * (u - 1))
                + (c * c) * (20 * (u * u) + 4 * u - 16)) by ring.
        pose proof (Z.square_nonneg (8 * u * s - 4 * c * (u - 1))).
        pose proof (Z.square_nonneg c).
        assert (1 * 1 <= u * u) by (apply Z.mul_le_mono_nonneg; lia).
        assert (0 <= (c * c) * (20 * (u * u) + 4 * u - 16))
          by (apply Z.mul_nonneg_nonneg; lia).
        lia. }
      apply Z.mul_nonneg_cancel_l in Hsq; lia. }
    assert (H3 : c * c * (u + 1) <= c * d).
    { replace (c * c * (u + 1)) with (c * (c * t)) by (unfold u; ring).
      apply Z.mul_le_mono_nonneg_l; lia. }
    lia.
Qed.

Lemma potential_step (p p' k : Z) :
  0 <= k -> 16 * p' <= 9 * p ->
  p * 9 ^ (k + 1) < 16 ^ (k + 1) -> p' * 9 ^ k < 16 ^ k.
Proof.
  intros Hk Hp H. rewrite !Z.pow_add_r, !Z.pow_1_r in H by lia.
  assert (H9 : 0 < 9 ^ k) by (apply Z.pow_pos_nonneg; lia).
  assert (H1 : (16 * p') * 9 ^ k <= (9 * p) * 9 ^ k)
    by (apply Z.mul_le_mono_nonneg_r; lia).
  lia.
Qed.

(** One pass in the regime of the script: [step = max 1 (rem / count)]. *)
Section PassProgress.

Variable room : Z -> Z.
Variable move : Z -> Z -> Z.
Variable isOpen : Z -> bool.
Variable cap : Z -> Z.

Hypothesis open_spec : forall h, isOpen h = true <-> 0 < room h.
Hypothesis room_move : forall h a, room (move h a) = room h - a.

Lemma pass_progress flags hs rem :
  (forall s r, 1 <= s <= rem -> s <= r -> s <= cap r) ->
  0 < rem -> 1 <= openCount isOpen flags hs ->
  let p := pass room move isOpen cap
             (Z.max 1 (rem / openCount isOpen flags hs)) flags hs rem in
  snd p = 0 \/
  (0 < snd p /\
   16 * (openCount isOpen flags (fst p) * snd p) <=
   9 * (openCount isOpen flags hs * rem)).
Proof.
  intros Hcap Hrem Hc. set (c := openCount isOpen flags hs) in *.
  destruct (Z.lt_ge_cases rem c) as [Hlt|Hge].
  - left. rewrite Z.div_small by lia. change (Z.max 1 0) with 1.
    apply (pass_exhausts room move isOpen cap open_spec); [|fold c; lia].
    intros r Hr. apply (Hcap 1 r); lia.
  - assert (Ht : 1 <= rem / c).
    { apply Z.div_le_lower_bound; lia. }
    assert (Hm := Z.mul_div_le rem c ltac:(lia)).
    assert (Hmod := Z.mod_pos_bound rem c ltac:(lia)).
    assert (Hdm := Z.div_mod rem c ltac:(lia)).
    replace (Z.max 1 (rem / c)) with (rem / c) by lia.
    set (t := rem / c) in *.
    destruct (pass_spreads room move isOpen cap open_spec room_move t hs flags
                rem Ht) as (H0 & Hle & Hsum).
    + intros r Hr. apply (Hcap t r); [|exact Hr]. split; [exact Ht|].
      fold c in Hm. nia.
    + fold c. lia.
    + fold c in Hle, Hsum.
      pose proof (openCount_nonneg isOpen
                    (fst (pass room move isOpen cap t flags hs rem)) flags).
      cbv zeta.
      destruct (Z.eq_dec (snd (pass room move isOpen cap t flags hs rem)) 0)
        as [E|E]; [left; exact E|right].
      split; [lia|].
      apply (potential_drop c _ rem _ t); lia.
Qed.

End PassProgress.

(** Sums and room under the layout invariant. *)
Lemma shaped_sum gapPx ok flags hs :
  shaped gapPx ok flags hs ->
  sum hs =
  Z.of_nat (List.length (filter (fun b => b) flags)) * gapPx +
  nonGapSum flags hs.
Proof.
  induction 1 as [|b h flags hs Hb Hrest IH]; [reflexivity|].
  rewrite sum_cons, IH. cbn [nonGapSum hd tl filter].
  destruct b; cbn [List.length]; [rewrite Nat2Z.inj_succ|]; lia.
Qed.

Lemma grow_room gapPx minPx maxPx flags hs :
  shaped gapPx (fun h => minPx <= h <= maxPx) flags hs ->
  0 <= openCount (fun h => h <? maxPx) flags hs <=
    Z.of_nat (List.length (filter negb flags)) /\
  Z.of_nat (List.length (filter negb flags)) * maxPx - nonGapSum flags hs <=
    openCount (fun h => h <? maxPx) flags hs * (maxPx - minPx).
Proof.
  induction 1 as [|b h flags hs Hb Hrest IH]; [cbn; lia|].
  cbn [nonGapSum openCount hd tl filter]. unfold movable.
  destruct b; cbn [negb andb List.length]; [lia|].
  rewrite Nat2Z.inj_succ.
  destruct (Z.ltb_spec h maxPx); lia.
Qed.

Lemma shrink_room gapPx minPx maxPx flags hs :
  shaped gapPx (fun h => minPx <= h <= maxPx) flags hs ->
  0 <= openCount (fun h => h >? minPx) flags hs <=
    Z.of_nat (List.length (filter negb flags)) /\
  nonGapSum flags hs - Z.of_nat (List.length (filter negb flags)) * minPx <=
    openCount (fun h => h >? minPx) flags hs * (maxPx - minPx).
Proof.
  induction 1 as [|b h flags hs Hb Hrest IH]; [cbn; lia|].
  cbn [nonGapSum openCount hd tl filter]. unfold movable.
  destruct b; cbn [negb andb List.length]; [lia|].
  rewrite Nat2Z.inj_succ, Z.gtb_ltb.
  destruct (Z.ltb_spec minPx h); lia.
Qed.

Lemma nonGapCount_flags items :
  nonGapCount items = Z.of_nat (List.length (filter negb (isGap items))).
Proof.
  unfold nonGapCount, isGap. f_equal.
  induction items as [|it l IH]; simpl; [reflexivity|].
  destruct (negb (_isGap it)); simpl; now rewrite IH.
Qed.

Lemma nonGapCount_le_length items :
  0 <= nonGapCount items <= Z.of_nat (List.length items).
Proof.
  unfold nonGapCount. pose proof (filter_length_le (fun it => negb (_isGap it)) items).
  lia.
Qed.

Lemma room_has_open (c w d : Z) : 0 <= c -> 0 < d -> d <= c * w -> 1 <= c.
Proof.
  intros Hc Hd Hle. destruct (Z.eq_dec c 0) as [E|E]; [|lia].
  rewrite E in Hle. lia.
Qed.

Lemma potential_positive (c d : Z) : 1 <= c -> 0 < d -> ~ c * d * 1 < 1.
Proof.
  intros Hc Hd. assert (1 * 1 <= c * d) by (apply Z.mul_le_mono_nonneg; lia).
  lia.
Qed.

Section FitConverge.

Variable items : list DisplayItem.
Variables minPx maxPx budgetPx gapPx : Z.

Local Abbreviation flags := (isGap items).
Local Abbreviation okB := (fun h => minPx <= h <= maxPx).
Local Abbreviation cntG := (openCount (fun h => h <? maxPx) flags).
Local Abbreviation cntS := (openCount (fun h => h >? minPx) flags).
Local Abbreviation loop := (redistribute items minPx maxPx).

Hypothesis feasible :
  minPx * nonGapCount items <= budgetPx - fixedGap items gapPx
    <= maxPx * nonGapCount items.

Lemma loop_done guardLeft hs : loop guardLeft hs 0 = (hs, 0).
Proof. destruct guardLeft; reflexivity. Qed.

(** Under feasibility a deficit is never larger than the room left above
    the entries, and a surplus never larger than the room below. *)
Lemma deficit_room hs delta :
  shaped gapPx okB flags hs -> delta = budgetPx - sum hs ->
  delta <= cntG hs * (maxPx - minPx) /\
  - delta <= cntS hs * (maxPx - minPx).
Proof.
  intros Hsh Hd.
  pose proof (shaped_sum _ _ _ _ Hsh) as Hs.
  pose proof (grow_room _ _ _ _ _ Hsh) as [_ Hg].
  pose proof (shrink_room _ _ _ _ _ Hsh) as [_ Hk].
  rewrite <- nonGapCount_flags in Hg, Hk.
  unfold fixedGap, gapCount in feasible. lia.
Qed.

Lemma grow_converges (k : nat) : forall hs delta,
  shaped gapPx okB flags hs -> delta = budgetPx - sum hs ->
  0 < delta ->
  cntG hs * delta * 9 ^ Z.of_nat k < 16 ^ Z.of_nat k ->
  snd (loop (S k) hs delta) = 0.
Proof.
  induction k as [|k IH]; intros hs delta Hsh Hd Hpos Hpot.
  - exfalso. destruct (deficit_room hs delta Hsh Hd) as [Hr _].
    pose proof (grow_room _ _ _ _ _ Hsh) as [Hc _].
    change (9 ^ Z.of_nat 0) with 1 in Hpot. change (16 ^ Z.of_nat 0) with 1 in Hpot.
    apply (potential_positive (cntG hs) delta); auto.
    apply (room_has_open _ (maxPx - minPx) delta); lia.
  - destruct (deficit_room hs delta Hsh Hd) as [Hr _].
    pose proof (grow_room _ _ _ _ _ Hsh) as [Hc _].
    assert (Hc1 : 1 <= cntG hs)
      by (apply (room_has_open _ (maxPx - minPx) delta); lia).
    change (loop (S (S k)) hs delta) with
      (if delta =? 0 then (hs, delta)
       else match redistributeStep items minPx maxPx hs delta with
            | None => (hs, delta)
            | Some (hs', delta') => loop (S k) hs' delta'
            end).
    replace (delta =? 0) with false by (symmetry; apply Z.eqb_neq; lia).
    pose proof (redistributeStep_shaped items minPx maxPx gapPx okB
                  ltac:(cbv beta; intros; lia) ltac:(cbv beta; intros; lia)
                  hs delta) as Hsh'.
    pose proof (redistributeStep_sum items minPx maxPx hs delta) as Hsum'.
    rewrite redistributeStep_pass in *.
    replace (delta >? 0) with true in * by (symmetry; apply Z.gtb_lt; lia).
    replace (cntG hs =? 0) with false in * by (symmetry; apply Z.eqb_neq; lia).
    pose proof (pass_progress (fun h => maxPx - h) Z.add (fun h => h <? maxPx)
                  (fun r => r) ltac:(cbv beta; intros; lia)
                  ltac:(cbv beta; intros; lia)
                  flags hs delta ltac:(cbv beta; intros; lia) Hpos Hc1)
      as Hprog.
    cbv zeta in Hprog.
    destruct (pass _ _ _ _ _ _ _ _) as [hs' d'].
    specialize (Hsh' hs' d' Hsh eq_refl). specialize (Hsum' hs' d' eq_refl).
    cbn [fst snd] in Hprog.
    destruct Hprog as [E|[Hd' Hdrop]].
    + subst d'. now rewrite loop_done.
    + apply IH; auto; [lia|].
      apply (potential_step (cntG hs * delta)); [lia|lia|].
      rewrite Nat2Z.inj_succ, <- Z.add_1_r in Hpot. exact Hpot.
Qed.

Lemma shrink_converges (k : nat) : forall hs delta,
  shaped gapPx okB flags hs -> delta = budgetPx - sum hs ->
  delta < 0 ->
  cntS hs * (- delta) * 9 ^ Z.of_nat k < 16 ^ Z.of_nat k ->
  snd (loop (S k) hs delta) = 0.
Proof.
  induction k as [|k IH]; intros hs delta Hsh Hd Hneg Hpot.
  - exfalso. destruct (deficit_room hs delta Hsh Hd) as [_ Hr].
    pose proof (shrink_room _ _ _ _ _ Hsh) as [Hc _].
    change (9 ^ Z.of_nat 0) with 1 in Hpot. change (16 ^ Z.of_nat 0) with 1 in Hpot.
    apply (potential_positive (cntS hs) (- delta)); auto; [|lia].
    apply (room_has_open _ (maxPx - minPx) (- delta)); lia.
  - destruct (deficit_room hs delta Hsh Hd) as [_ Hr].
    pose proof (shrink_room _ _ _ _ _ Hsh) as [Hc _].
    assert (Hc1 : 1 <= cntS hs)
      by (apply (room_has_open _ (maxPx - minPx) (- delta)); lia).
    change (loop (S (S k)) hs delta) with
      (if delta =? 0 then (hs, delta)
       else match redistributeStep items minPx maxPx hs delta with
            | None => (hs, delta)
            | Some (hs', delta') => loop (S k) hs' delta'
            end).
    replace (delta =? 0) with false by (symmetry; apply Z.eqb_neq; lia).
    pose proof (redistributeStep_shaped items minPx maxPx gapPx okB
                  ltac:(cbv beta; intros; lia) ltac:(cbv beta; intros; lia)
                  hs delta) as Hsh'.
    pose proof (redistributeStep_sum items minPx maxPx hs delta) as Hsum'.
    rewrite redistributeStep_pass in *.
    replace (delta >? 0) with false in *
      by (symmetry; rewrite Z.gtb_ltb; apply Z.ltb_ge; lia).
    replace (cntS hs =? 0) with false in * by (symmetry; apply Z.eqb_neq; lia).
    pose proof (pass_progress (fun h => h - minPx) Z.sub (fun h => h >? minPx)
                  (fun _ => - delta) ltac:(cbv beta; intros; lia)
                  ltac:(cbv beta; intros; lia)
                  flags hs (- delta) ltac:(cbv beta; intros; lia)
                  ltac:(lia) Hc1)
      as Hprog.
    cbv zeta in Hprog, Hsh', Hsum' |- *.
    destruct (pass _ _ _ _ _ _ _ _) as [hs' d'].
    cbn [fst snd] in *.
    specialize (Hsh' hs' (- d') Hsh eq_refl).
    specialize (Hsum' hs' (- d') eq_refl).
    destruct Hprog as [E|[Hd' Hdrop]].
    + subst d'. change (- 0) with 0. now rewrite loop_done.
    + apply IH; auto; [lia|lia|].
      rewrite Z.opp_involutive.
      apply (potential_step (cntS hs * - delta)); [lia|lia|].
      rewrite Nat2Z.inj_succ, <- Z.add_1_r in Hpot. exact Hpot.
Qed.

End FitConverge.

Lemma nonGapSum_all_gaps gapPx ok flags hs :
  shaped gapPx ok flags hs ->
  List.length (filter negb flags) = 0%nat -> nonGapSum flags hs = 0.
Proof.
  induction 1 as [|b h flags hs Hb Hrest IH]; [reflexivity|].
  cbn [nonGapSum hd tl filter]. destruct b; cbn [negb List.length].
  - intros Hl. rewrite IH by exact Hl. reflexivity.
  - discriminate.
Qed.

(** For every JavaScript array ([length < 2^32]) and finite bounds
    ([maxPx - minPx < 2^1024]) the measure of progress starts far below
    [(16/9)^1999], so the guard of 2000 turns is never what stops the
    loop. *)
Lemma bounded_potential (c n w d : Z) :
  0 <= c <= n -> n < 2 ^ 32 -> w < 2 ^ 1024 -> 0 < d <= c * w ->
  c * d * 9 ^ Z.of_nat 1999 < 16 ^ Z.of_nat 1999.
Proof.
  intros Hc Hn Hw Hd.
  assert (Hw0 : 0 <= w).
  { destruct (Z.lt_ge_cases w 0) as [Hneg|]; [|assumption].
    assert (c * w <= c * 0) by (apply Z.mul_le_mono_nonneg_l; lia). lia. }
  assert (H1 : c * w <= 2 ^ 32 * 2 ^ 1024)
    by (apply Z.mul_le_mono_nonneg; lia).
  assert (H2 : c * d <= 2 ^ 32 * (2 ^ 32 * 2 ^ 1024))
    by (apply Z.mul_le_mono_nonneg; lia).
  assert (H9 : 0 <= 9 ^ Z.of_nat 1999) by (apply Z.pow_nonneg; lia).
  assert (H3 : c * d * 9 ^ Z.of_nat 1999 <=
               2 ^ 32 * (2 ^ 32 * 2 ^ 1024) * 9 ^ Z.of_nat 1999)
    by (apply Z.mul_le_mono_nonneg_r; assumption).
  assert (H4 : 2 ^ 32 * (2 ^ 32 * 2 ^ 1024) * 9 ^ Z.of_nat 1999 <
               16 ^ Z.of_nat 1999)
    by (apply Z.ltb_lt; vm_compute; reflexivity).
  lia.
Qed.

(** C3: when the clamp bounds admit a solution, that is
    [minPx * n <= budgetPx - fixedGap <= maxPx * n] for the [n] non-gap
    items, the redistribution reaches [delta = 0] within its guard of 2000
    turns and the returned heights sum to [budgetPx] exactly (and so does
    the returned [total]).  The two size assumptions hold of every input
    the script can build: an array has fewer than [2^32] entries and finite
    Numbers differ by less than [2^1024]. *)
Theorem computeHeightsToFit_fills floorShare items minPx maxPx budgetPx gapPx :
  minPx * nonGapCount items <= budgetPx - fixedGap items gapPx
    <= maxPx * nonGapCount items ->
  Z.of_nat (List.length items) < 2 ^ 32 ->
  maxPx - minPx < 2 ^ 1024 ->
  sum (fst (computeHeightsToFit floorShare items minPx maxPx budgetPx gapPx))
    = budgetPx /\
  snd (computeHeightsToFit floorShare items minPx maxPx budgetPx gapPx)
    = budgetPx.
Proof.
  intros Hfeas Hlen Hw.
  assert (Hgoal :
    sum (fst (computeHeightsToFit floorShare items minPx maxPx budgetPx gapPx))
    = budgetPx).
  2:{ split; [exact Hgoal|]. revert Hgoal. unfold computeHeightsToFit.
      destruct items; [intros H; exact H|].
      destruct (redistribute _ _ _ _ _ _); intros H; exact H. }
  unfold computeHeightsToFit.
  destruct items as [|it0 items0] eqn:Ei.
  { unfold fixedGap, gapCount, nonGapCount in Hfeas. simpl in Hfeas.
    cbn. lia. }
  rewrite <- Ei in *. clear Ei it0 items0.
  set (hs0 := clamped floorShare items minPx maxPx budgetPx gapPx).
  set (d0 := budgetPx - totalH hs0).
  pose proof (redistribute_sum items minPx maxPx 2000 hs0 d0) as Hsum.
  assert (Hz : snd (redistribute items minPx maxPx 2000 hs0 d0) = 0).
  2:{ destruct (redistribute items minPx maxPx 2000 hs0 d0) as [hs d].
      cbn [fst snd] in *. unfold d0, totalH in Hsum. lia. }
  pose proof (nonGapCount_le_length items) as Hn.
  destruct (Z.eq_dec d0 0) as [E0|E0].
  { rewrite E0. now rewrite loop_done. }
  destruct (Z.le_gt_cases minPx maxPx) as [Hmm|Hmm].
  - assert (Hsh : shaped gapPx (fun h => minPx <= h <= maxPx) (isGap items) hs0)
      by (apply clamped_shaped; intros; lia).
    destruct (deficit_room items minPx maxPx budgetPx gapPx Hfeas hs0 d0 Hsh
                eq_refl) as [Hg Hs].
    pose proof (grow_room _ _ _ _ _ Hsh) as [Hcg _].
    pose proof (shrink_room _ _ _ _ _ Hsh) as [Hcs _].
    rewrite <- nonGapCount_flags in Hcg, Hcs.
    destruct (Z.lt_ge_cases 0 d0) as [Hpos|Hneg].
    + apply (grow_converges items minPx maxPx budgetPx gapPx Hfeas 1999);
        auto.
      apply (bounded_potential _ (Z.of_nat (List.length items))
               (maxPx - minPx)); lia.
    + apply (shrink_converges items minPx maxPx budgetPx gapPx Hfeas 1999);
        auto; [lia|].
      apply (bounded_potential _ (Z.of_nat (List.length items))
               (maxPx - minPx)); lia.
  - exfalso. apply E0.
    assert (Hn0 : nonGapCount items = 0).
    { assert (0 <= (minPx - maxPx) * nonGapCount items)
        by (apply Z.mul_nonneg_nonneg; lia).
      destruct (Z.eq_dec (nonGapCount items) 0) as [|Hne]; [assumption|].
      assert (1 * 1 <= (minPx - maxPx) * nonGapCount items)
        by (apply Z.mul_le_mono_nonneg; lia).
      lia. }
    assert (Hsh : shaped gapPx (fun _ => True) (isGap items) hs0)
      by (apply clamped_shaped; auto).
    pose proof (shaped_sum _ _ _ _ Hsh) as Hs.
    rewrite (nonGapSum_all_gaps _ _ _ _ Hsh) in Hs.
    + unfold d0, totalH. unfold fixedGap, gapCount in Hfeas.
      rewrite Hn0 in Hfeas. lia.
    + rewrite nonGapCount_flags in Hn0. lia.
Qed.

Lemma computeHeightsToFit_fills_witness :
  (10 * nonGapCount Samples.threeEqual <=
     100 - fixedGap Samples.threeEqual 52 <=
     140 * nonGapCount Samples.threeEqual) /\
  Z.of_nat (List.length Samples.threeEqual) < 2 ^ 32 /\
  140 - 10 < 2 ^ 1024 /\
  sum (fst (computeHeightsToFit exactShare Samples.threeEqual 10 140 100 52))
    = 100 /\
  snd (computeHeightsToFit exactShare Samples.threeEqual 10 140 100 52) = 100.
Proof.
  assert (H1 : 10 * nonGapCount Samples.threeEqual <=
               100 - fixedGap Samples.threeEqual 52 <=
               140 * nonGapCount Samples.threeEqual)
    by (vm_compute; split; discriminate).
  assert (H2 : Z.of_nat (List.length Samples.threeEqual) < 2 ^ 32)
    by (vm_compute; reflexivity).
  assert (H3 : 140 - 10 < 2 ^ 1024) by (vm_compute; reflexivity).
  split; [exact H1|]. split; [exact H2|]. split; [exact H3|].
  exact (computeHeightsToFit_fills exactShare Samples.threeEqual 10 140 100 52
           H1 H2 H3).
Defined.

(** ** Validator *)

Import Py.

(** Induction over a tree, with the property known of every child. *)
Fixpoint Node_induct (P : Node -> Prop)
  (step : forall name start size children,
      Forall P children -> P (mkNode name start size children))
  (n : Node) : P n :=
  match n with
  | mkNode name start size children =>
      step name start size children
        ((fix all (cs : list Node) : Forall P cs :=
            match cs with
            | [] => Forall_nil P
            | c :: cs' => Forall_cons c (Node_induct P step c) (all cs')
            end) children)
  end.

Lemma validate_tree_eq n path :
  validate_tree n path =
  flat_map
    (fun c =>
       (if (n_start c <? n_start n) || (n_end c >? n_end n)
        then [containmentMsg (path ++ "/" ++ n_name n)%string n c] else []) ++
       validate_tree c (path ++ "/" ++ n_name n)%string)
    (n_children n) ++
  overlapErrs (path ++ "/" ++ n_name n)%string (n_children n).
Proof. destruct n; reflexivity. Qed.

Lemma overlapErrs_in here kids msg :
  In msg (overlapErrs here kids) ->
  exists a b, adjacent a b kids /\ n_start b < n_end a /\
              msg = overlapMsg here a b.
Proof.
  induction kids as [|a kids IH]; [contradiction|].
  destruct kids as [|b kids]; [contradiction|].
  cbn [overlapErrs]. intros H. apply in_app_or in H. destruct H as [H|H].
  - destruct (Z.gtb_spec (n_end a) (n_start b)) as [Hgt|]; [|contradiction].
    destruct H as [H|[]]. exists a, b. split; [|auto].
    exists [], kids. reflexivity.
  - destruct (IH H) as (a' & b' & (l1 & l2 & E) & Hlt & Hm).
    exists a', b'. split; [|auto].
    exists (a :: l1), l2. now rewrite E.
Qed.

(** The scenario of the specification: one overlap, one message. *)
Example validate_tree_overlap_scenario :
  validate_tree Samples.overlapTree "root" =
  ["root/R: overlap between 'A' and 'B'"].
Proof. reflexivity. Qed.

Example validate_tree_outside_scenario :
  validate_tree Samples.outsideTree "root" =
  ["root/R: child 'A' [0x0..0x20] outside parent [0x0..0x10]"].
Proof. reflexivity. Qed.

(** C6, as stated, fails: the message of an overlap names the parent path
    and the two children, but none of the bounds of their ranges
    ([A = [0x0, 0x8)], [B = [0x4, 0xc)]) occurs in it. *)
Lemma validate_tree_overlap_no_ranges :
  validate_tree Samples.overlapTree "root" =
    ["root/R: overlap between 'A' and 'B'"] /\
  forallb
    (fun z => negb (contains (hex z) "root/R: overlap between 'A' and 'B'"))
    [0; 8; 4; 12] = true.
Proof. split; reflexivity. Qed.

(** C6, amended: every message of [validate_tree] is about one node [m] of
    the tree, reached with path [p], and is one of two texts.  A
    containment message names the path [p/m.name], the one child that lies
    outside, the hex range of that child and the hex range of the parent.
    An overlap message names the path [p/m.name] and the two adjacent
    children, and no range. *)
Theorem validate_tree_messages (t : Node) : forall path msg,
  In msg (validate_tree t path) ->
  exists m p,
    visits t path m p /\
    ((exists c,
        In c (n_children m) /\
        (n_start c < n_start m \/ n_end m < n_end c) /\
        msg = containmentMsg (p ++ "/" ++ n_name m)%string m c) \/
     (exists a b,
        adjacent a b (n_children m) /\ n_start b < n_end a /\
        msg = overlapMsg (p ++ "/" ++ n_name m)%string a b)).
Proof.
  induction t as [name start size children IH] using Node_induct.
  intros path msg. rewrite validate_tree_eq.
  set (n := mkNode name start size children) in *.
  intros H. apply in_app_or in H. destruct H as [H|H].
  - apply in_flat_map in H. destruct H as (c & Hc & H).
    apply in_app_or in H. destruct H as [H|H].
    + exists n, path. split; [constructor|]. left. exists c.
      destruct ((n_start c <? n_start n) || (n_end c >? n_end n)) eqn:E;
        [|contradiction].
      destruct H as [H|[]]. split; [exact Hc|]. split; [|auto].
      apply orb_true_iff in E. rewrite Z.ltb_lt, Z.gtb_ltb, Z.ltb_lt in E.
      exact E.
    + rewrite Forall_forall in IH.
      destruct (IH c Hc _ _ H) as (m & p & Hv & Hm).
      exists m, p. split; [|exact Hm].
      eapply visits_child; eassumption.
  - exists n, path. split; [constructor|]. right.
    now apply overlapErrs_in.
Qed.

Lemma validate_tree_messages_witness :
  In "root/R: overlap between 'A' and 'B'"
     (validate_tree Samples.overlapTree "root") /\
  exists m p,
    visits Samples.overlapTree "root" m p /\
    ((exists c,
        In c (n_children m) /\
        (n_start c < n_start m \/ n_end m < n_end c) /\
        "root/R: overlap between 'A' and 'B'" =
        containmentMsg (p ++ "/" ++ n_name m)%string m c) \/
     (exists a b,
        adjacent a b (n_children m) /\ n_start b < n_end a /\
        "root/R: overlap between 'A' and 'B'" =
        overlapMsg (p ++ "/" ++ n_name m)%string a b)).
Proof.
  assert (H : In "root/R: overlap between 'A' and 'B'"
                 (validate_tree Samples.overlapTree "root"))
    by (left; reflexivity).
  split; [exact H|].
  exact (validate_tree_messages Samples.overlapTree "root" _ H).
Defined.

(** ** Flattener *)

(** *** Strings *)

Lemma append_assoc (a b c : string) : ((a ++ b) ++ c = a ++ (b ++ c))%string.
Proof. induction a as [|x a IH]; simpl; [reflexivity|now rewrite IH]. Qed.


Lemma append_longer (p : string) (c : ascii) (r : string) :
  (p ++ String c r)%string <> p.
Proof.
  intros H. apply (f_equal String.length) in H. revert H.
  induction p as [|x p IH]; simpl; [discriminate|].
  intros H. apply IH. now inversion H.
Qed.

Lemma hasChar_append ch (a b : string) :
  hasChar ch (a ++ b) = hasChar ch a || hasChar ch b.
Proof.
  induction a as [|x a IH]; simpl; [reflexivity|].
  now rewrite IH, orb_assoc.
Qed.

Lemma rstrip_free ch s : hasChar ch s = false -> rstrip ch s = s.
Proof.
  induction s as [|x s IH]; simpl; [reflexivity|].
  intros H. apply orb_false_iff in H. destruct H as [Hx Hs].
  rewrite (IH Hs), Hx. now destruct s.
Qed.

(** A string that does not start with [ch] keeps its front, whatever
    follows; a non-empty string without [ch] keeps its back, whatever
    precedes. *)
Lemma lstrip_front ch (a b : string) :
  a <> EmptyString -> lstrip ch a = a -> lstrip ch (a ++ b) = (a ++ b)%string.
Proof.
  destruct a as [|x a]; [congruence|]. intros _. simpl.
  destruct (Ascii.eqb x ch) eqn:E; [|reflexivity].
  intros H. exfalso.
  assert (Hl : forall s, (String.length (lstrip ch s) <= String.length s)%nat).
  { induction s as [|y s IH]; simpl; [lia|].
    destruct (Ascii.eqb y ch); simpl; lia. }
  specialize (Hl a). rewrite H in Hl. simpl in Hl. lia.
Qed.

Lemma rstrip_back ch (a b : string) :
  b <> EmptyString -> hasChar ch b = false ->
  rstrip ch (a ++ b) = (a ++ b)%string.
Proof.
  intros Hb Hf. induction a as [|x a IH]; simpl.
  - now apply rstrip_free.
  - rewrite IH. destruct (a ++ b)%string eqn:E; [|reflexivity].
    destruct a; simpl in E; [contradiction|discriminate].
Qed.

(** Splitting at the last [@]: the part after it has none. *)
Lemma split_at_sign (s1 s2 h1 h2 : string) :
  hasChar "@" h1 = false -> hasChar "@" h2 = false ->
  (s1 ++ "@" ++ h1 = s2 ++ "@" ++ h2)%string -> s1 = s2 /\ h1 = h2.
Proof.
  intros H1 H2. revert s2.
  induction s1 as [|x s1 IH]; intros [|y s2] E; simpl in E.
  - inversion E. auto.
  - exfalso. inversion E as [[Ey Eh]]. subst.
    rewrite hasChar_append in H1. simpl in H1.
    now rewrite orb_true_r in H1.
  - exfalso. inversion E as [[Ex Eh]]. subst.
    rewrite hasChar_append in H2. simpl in H2.
    now rewrite orb_true_r in H2.
  - inversion E as [[Ex Et]]. destruct (IH _ Et) as [-> ->]. auto.
Qed.

(** *** [hex] *)

Ltac in_chars := simpl; repeat (first [left; reflexivity | right]).

Lemma hexDigits_free (ch : ascii) (d : Hexadecimal.uint) :
  (forall c, In c (list_ascii_of_string "0123456789abcdef") -> c <> ch) ->
  hasChar ch (HexadecimalString.NilEmpty.string_of_uint d) = false.
Proof.
  intros Hch.
  assert (Hd : forall c, In c (list_ascii_of_string "0123456789abcdef") ->
                         Ascii.eqb c ch = false).
  { intros c Hc. apply Ascii.eqb_neq. now apply Hch. }
  induction d; cbn [HexadecimalString.NilEmpty.string_of_uint hasChar];
    try reflexivity; rewrite IHd, orb_false_r; apply Hd; in_chars.
Qed.

Lemma hex_free (ch : ascii) (z : Z) :
  (forall c, In c (list_ascii_of_string "-0x123456789abcdef") -> c <> ch) ->
  hasChar ch (hex z) = false.
Proof.
  intros Hch.
  assert (Hd : forall c, In c (list_ascii_of_string "-0x123456789abcdef") ->
                         Ascii.eqb c ch = false).
  { intros c Hc. apply Ascii.eqb_neq. now apply Hch. }
  assert (Hu : forall d, hasChar ch (HexadecimalString.NilZero.string_of_uint d)
                         = false).
  { intros d. unfold HexadecimalString.NilZero.string_of_uint.
    assert (He : hasChar ch (HexadecimalString.NilEmpty.string_of_uint d)
                 = false).
    { apply hexDigits_free. intros c Hc. apply Hch.
      simpl in Hc |- *. tauto. }
    destruct d; try exact He.
    cbn [hasChar]. rewrite orb_false_r. apply Hd. in_chars. }
  unfold hex. rewrite !hasChar_append, Hu.
  assert (H0x : hasChar ch "0x" = false).
  { cbn [hasChar]. rewrite !orb_false_r. apply orb_false_iff.
    split; apply Hd; in_chars. }
  rewrite H0x. destruct (z <? 0); cbn [hasChar]; [|reflexivity].
  rewrite !orb_false_r. apply Hd. in_chars.
Qed.

Lemma hex_no_slash z : hasChar "/" (hex z) = false.
Proof.
  apply hex_free. intros c Hc. simpl in Hc.
  repeat (destruct Hc as [<-|Hc]; [discriminate|]). contradiction.
Qed.

Lemma hex_no_sign z : hasChar "@" (hex z) = false.
Proof.
  apply hex_free. intros c Hc. simpl in Hc.
  repeat (destruct Hc as [<-|Hc]; [discriminate|]). contradiction.
Qed.

Lemma hexDigits_inj (n m : N) :
  HexadecimalString.NilZero.string_of_uint (N.to_hex_uint n) =
  HexadecimalString.NilZero.string_of_uint (N.to_hex_uint m) -> n = m.
Proof.
  intros H.
  assert (Hnn : forall k, N.to_hex_uint k <> Hexadecimal.Nil).
  { intros [|p]; simpl; [discriminate|].
    apply HexadecimalPos.Unsigned.to_uint_nonnil. }
  apply HexadecimalN.Unsigned.to_uint_inj.
  pose proof (HexadecimalString.NilZero.usu _ (Hnn n)) as Hn.
  pose proof (HexadecimalString.NilZero.usu _ (Hnn m)) as Hm.
  rewrite H in Hn. rewrite Hn in Hm. now inversion Hm.
Qed.

Lemma hex_inj (a b : Z) : hex a = hex b -> a = b.
Proof.
  unfold hex.
  destruct (Z.ltb_spec a 0) as [Ha|Ha], (Z.ltb_spec b 0) as [Hb|Hb];
    simpl; intros H; try discriminate.
  - inversion H as [E]. apply hexDigits_inj in E. lia.
  - inversion H as [E]. apply hexDigits_inj in E. lia.
Qed.

(** *** Identifiers *)

Lemma everyNode_eq (P : Node -> Prop) (n : Node) :
  everyNode P n <-> P n /\ Forall (everyNode P) (n_children n).
Proof.
  destruct n as [name start size children]. cbn [everyNode n_children].
  assert (H : forall cs,
             (fix all (cs : list Node) : Prop :=
                match cs with
                | [] => True
                | c :: cs' => everyNode P c /\ all cs'
                end) cs <-> Forall (everyNode P) cs).
  { induction cs as [|c cs IH]; split; intros Hc.
    - constructor.
    - exact I.
    - destruct Hc as [Hc Hcs]. constructor; [exact Hc|now apply IH].
    - inversion Hc; subst. split; [assumption|now apply IH]. }
  now rewrite H.
Qed.

(** Stripping the front of a token leaves its [@hex] tail, and leaves a
    path. *)
Lemma lstrip_token (name h : string) :
  exists x, lstrip "/" (name ++ "@" ++ h) = (x ++ "@" ++ h)%string /\
            pathLike (x ++ "@" ++ h).
Proof.
  induction name as [|c name IH].
  - exists EmptyString. split; [reflexivity|]. split; [discriminate|reflexivity].
  - cbn [append lstrip]. destruct (Ascii.eqb c "/") eqn:E; [exact IH|].
    exists (String c name). split; [reflexivity|]. split; [discriminate|].
    cbn [append lstrip]. now rewrite E.
Qed.

(** The identifier of a node: a path that ends with [@hex(start)]; below
    a parent it is the parent identifier, a slash and the token. *)
Lemma nodeId_shape (pid : string) (n : Node) :
  pid = EmptyString \/ pathLike pid ->
  pathLike (nodeId pid n) /\
  (exists x, nodeId pid n = (x ++ "@" ++ hex (n_start n))%string) /\
  (pathLike pid -> nodeId pid n = (pid ++ String "/" (token n))%string).
Proof.
  assert (Hhex : hex (n_start n) <> EmptyString).
  { unfold hex. destruct (n_start n <? 0); discriminate. }
  assert (Hback : forall a,
            rstrip "/" (a ++ "@" ++ hex (n_start n)) =
            (a ++ "@" ++ hex (n_start n))%string).
  { intros a. change (a ++ "@" ++ hex (n_start n))%string
      with (a ++ ("@" ++ hex (n_start n)))%string.
    rewrite <- append_assoc.
    apply rstrip_back; [exact Hhex|apply hex_no_slash]. }
  intros [->|Hpid].
  - unfold nodeId, strip.
    change (lstrip "/" ("" ++ "/" ++ token n)) with (lstrip "/" (token n)).
    unfold token.
    destruct (lstrip_token (n_name n) (hex (n_start n))) as (x & -> & Hx).
    rewrite Hback. split; [exact Hx|]. split; [now exists x|].
    intros [Hne _]. congruence.
  - destruct Hpid as [Hne Hl].
    assert (Hfront : lstrip "/" (pid ++ String "/" (token n)) =
                     (pid ++ String "/" (token n))%string)
      by (apply lstrip_front; assumption).
    assert (E : nodeId pid n = (pid ++ String "/" (token n))%string).
    { unfold nodeId, strip. cbn [append]. rewrite Hfront. unfold token.
      change (pid ++ String "/" (n_name n ++ "@" ++ hex (n_start n)))%string
        with (pid ++ ("/" ++ n_name n ++ "@" ++ hex (n_start n)))%string.
      rewrite <- !append_assoc. rewrite append_assoc. apply Hback. }
    rewrite E. split; [|split; [|reflexivity]].
    + split; [|exact Hfront]. destruct pid; [congruence|discriminate].
    + exists (pid ++ String "/" (n_name n))%string. unfold token.
      rewrite append_assoc. reflexivity.
Qed.

Lemma flat_map_nil {A B : Type} (f : A -> list B) (l : list A) :
  flat_map f l = [] -> forall x, In x l -> f x = [].
Proof.
  induction l as [|y l IH]; [contradiction|].
  cbn [flat_map]. intros H x Hx. apply app_eq_nil in H. destruct H as [Hy Hl].
  destruct Hx as [<-|Hx]; auto.
Qed.

Lemma flatten_eq (n : Node) (d : Z) (pid : string) :
  flatten n d pid =
  {| fn_id := nodeId pid n; fn_name := n_name n; fn_start := n_start n;
     fn_size := n_size n; fn_end := n_end n; fn_depth := d;
     fn_parent := parentOf pid |} ::
  flat_map (fun c => flatten c (d + 1) (nodeId pid n)) (n_children n).
Proof. destruct n; reflexivity. Qed.

(** Every flattened node of a subtree: its identifier ends with
    [@hex(start)] and is the identifier of the subtree's root or a strict
    extension of it. *)
Lemma flatten_ids_shape (n : Node) : forall d pid f,
  pid = EmptyString \/ pathLike pid ->
  In f (flatten n d pid) ->
  (exists x, fn_id f = (x ++ "@" ++ hex (fn_start f))%string) /\
  (fn_id f = nodeId pid n \/
   exists r, fn_id f = (nodeId pid n ++ String "/" r)%string).
Proof.
  induction n as [name start size children IH] using Node_induct.
  set (n := mkNode name start size children) in *.
  intros d pid f Hpid Hf.
  destruct (nodeId_shape pid n Hpid) as (Hlike & Hx & _).
  rewrite flatten_eq in Hf. destruct Hf as [<-|Hf].
  - split; [exact Hx|now left].
  - apply in_flat_map in Hf. destruct Hf as (c & Hc & Hf).
    rewrite Forall_forall in IH.
    destruct (IH c Hc (d + 1) (nodeId pid n) f (or_intror Hlike) Hf)
      as [Hfx Hext].
    split; [exact Hfx|]. right.
    destruct (nodeId_shape (nodeId pid n) c (or_intror Hlike))
      as (_ & _ & E).
    rewrite (E Hlike) in Hext.
    destruct Hext as [->|[r ->]].
    + now exists (token c).
    + exists (token c ++ String "/" r)%string.
      now rewrite append_assoc.
Qed.

(** *** What validation gives *)

Lemma validated_node (n : Node) (path : string) :
  validate_tree n path = [] ->
  Forall (fun c => n_start n <= n_start c /\ n_end c <= n_end n /\
                   validate_tree c (path ++ "/" ++ n_name n)%string = [])
         (n_children n) /\
  overlapErrs (path ++ "/" ++ n_name n)%string (n_children n) = [].
Proof.
  rewrite validate_tree_eq. intros H. apply app_eq_nil in H.
  destruct H as [Hk Ho]. split; [|exact Ho].
  apply Forall_forall. intros c Hc.
  pose proof (flat_map_nil _ _ Hk c Hc) as H. cbv beta in H.
  apply app_eq_nil in H. destruct H as [Hcont Hv].
  destruct (Z.ltb_spec (n_start c) (n_start n));
    destruct (Z.gtb_spec (n_end c) (n_end n));
    cbn [orb] in Hcont; try discriminate.
  repeat split; [lia|lia|exact Hv].
Qed.

(** No overlap message and positive sizes: each child ends where the next
    ones start or before. *)
Lemma overlapErrs_nil here kids :
  overlapErrs here kids = [] ->
  Forall (fun c => 0 < n_size c) kids ->
  StronglySorted (fun a b => n_end a <= n_start b) kids.
Proof.
  induction kids as [|a kids IH]; intros He Hpos; [constructor|].
  inversion Hpos as [|? ? Ha Hpos']; subst.
  destruct kids as [|b kids]; [repeat constructor|].
  cbn [overlapErrs] in He. apply app_eq_nil in He. destruct He as [Hab He].
  specialize (IH He Hpos'). constructor; [exact IH|].
  assert (Hfirst : n_end a <= n_start b)
    by (destruct (Z.gtb_spec (n_end a) (n_start b)); [discriminate|lia]).
  constructor; [exact Hfirst|].
  inversion IH as [|? ? _ Hb]; subst.
  inversion Hpos' as [|? ? Hbpos _]; subst.
  eapply Forall_impl; [|exact Hb]. unfold n_end in *. cbv beta. intros; lia.
Qed.

(** In a validated tree of positive sizes every node of a subtree starts
    inside the range of the subtree's root. *)
Lemma flatten_starts (n : Node) : forall path d pid f,
  validate_tree n path = [] ->
  everyNode (fun m => 0 < n_size m) n ->
  In f (flatten n d pid) ->
  n_start n <= fn_start f < n_end n.
Proof.
  induction n as [name start size children IH] using Node_induct.
  set (n := mkNode name start size children) in *.
  intros path d pid f Hv Hpos Hf.
  apply everyNode_eq in Hpos. destruct Hpos as [Hn Hpos].
  destruct (validated_node n path Hv) as [Hkids _].
  rewrite flatten_eq in Hf. destruct Hf as [<-|Hf].
  - cbn [fn_start]. unfold n_end. lia.
  - apply in_flat_map in Hf. destruct Hf as (c & Hc & Hf).
    rewrite Forall_forall in IH, Hkids, Hpos.
    destruct (Hkids c Hc) as (H1 & H2 & Hvc).
    specialize (IH c Hc _ _ _ _ Hvc (Hpos c Hc) Hf). lia.
Qed.

Lemma NoDup_flat_map {A B : Type} (f : A -> list B) (R : A -> A -> Prop)
  (l : list A) :
  (forall a, In a l -> NoDup (f a)) ->
  StronglySorted R l ->
  (forall a b, In a l -> In b l -> R a b ->
     forall s, In s (f a) -> In s (f b) -> False) ->
  NoDup (flat_map f l).
Proof.
  induction l as [|a l IH]; intros Hnd Hs Hdis; [constructor|].
  inversion Hs as [|? ? Hs' Ha]; subst. cbn [flat_map].
  apply NoDup_app.
  - apply Hnd. now left.
  - apply IH; auto.
    + intros b Hb. apply Hnd. now right.
    + intros x y Hx Hy. apply Hdis; now right.
  - intros s Hsa Hsl. apply in_flat_map in Hsl. destruct Hsl as (b & Hb & Hsb).
    rewrite Forall_forall in Ha.
    apply (Hdis a b (or_introl eq_refl) (or_intror Hb) (Ha b Hb) s Hsa Hsb).
Qed.

Lemma map_flat_map {A B C : Type} (f : B -> C) (g : A -> list B)
  (l : list A) :
  map f (flat_map g l) = flat_map (fun x => map f (g x)) l.
Proof.
  induction l as [|x l IH]; [reflexivity|].
  cbn [flat_map]. now rewrite map_app, IH.
Qed.

Lemma flatten_nodup (n : Node) : forall path d pid,
  validate_tree n path = [] ->
  everyNode (fun m => 0 < n_size m) n ->
  pid = EmptyString \/ pathLike pid ->
  NoDup (map fn_id (flatten n d pid)).
Proof.
  induction n as [name start size children IH] using Node_induct.
  set (n := mkNode name start size children) in *.
  intros path d pid Hv Hpos Hpid.
  destruct (nodeId_shape pid n Hpid) as (Hlike & _ & _).
  destruct (validated_node n path Hv) as [Hkids Hover].
  apply everyNode_eq in Hpos. destruct Hpos as [Hn Hpos].
  rewrite flatten_eq. cbn [map fn_id]. rewrite map_flat_map.
  rewrite Forall_forall in IH, Hkids, Hpos.
  constructor.
  - intros Hin. apply in_flat_map in Hin. destruct Hin as (c & Hc & Hs).
    apply in_map_iff in Hs. destruct Hs as (f & Ef & Hf).
    destruct (flatten_ids_shape c _ _ f (or_intror Hlike) Hf) as [_ Hext].
    destruct (nodeId_shape (nodeId pid n) c (or_intror Hlike)) as (_ & _ & E).
    rewrite (E Hlike), Ef in Hext.
    destruct Hext as [Hx|[r Hx]]; symmetry in Hx.
    + now apply append_longer in Hx.
    + rewrite append_assoc in Hx. cbn [append] in Hx.
      now apply append_longer in Hx.
  - apply (NoDup_flat_map _ (fun a b => n_end a <= n_start b)).
    + intros c Hc. destruct (Hkids c Hc) as (_ & _ & Hvc).
      eapply IH; eauto.
    + apply (overlapErrs_nil _ _ Hover). apply Forall_forall.
      intros c Hc. specialize (Hpos c Hc). apply everyNode_eq in Hpos. tauto.
    + intros a b Ha Hb Hab s Hsa Hsb.
      apply in_map_iff in Hsa, Hsb.
      destruct Hsa as (fa & Ea & Hfa). destruct Hsb as (fb & Eb & Hfb).
      destruct (flatten_ids_shape a _ _ fa (or_intror Hlike) Hfa)
        as [(xa & Hxa) _].
      destruct (flatten_ids_shape b _ _ fb (or_intror Hlike) Hfb)
        as [(xb & Hxb) _].
      destruct (Hkids a Ha) as (_ & _ & Hva).
      destruct (Hkids b Hb) as (_ & _ & Hvb).
      pose proof (flatten_starts a _ _ _ fa Hva (Hpos a Ha) Hfa) as Hra.
      pose proof (flatten_starts b _ _ _ fb Hvb (Hpos b Hb) Hfb) as Hrb.
      rewrite Ea in Hxa. rewrite Eb, Hxa in Hxb.
      apply split_at_sign in Hxb; try apply hex_no_sign.
      destruct Hxb as [_ Hh]. apply hex_inj in Hh. lia.
Qed.

(** The flattened scenario: three nodes, three distinct identifiers. *)
Example flatten_scenario :
  map fn_id (flatten Samples.rootTree 0 "") =
  ["R@0x0"; "R@0x0/A@0x0"; "R@0x0/B@0x80000"].
Proof. reflexivity. Qed.

(** C5, as stated, fails: two empty ranges at the same address and with
    the same name touch without overlapping, so the Validator accepts the
    tree, and [flatten] gives both the identifier [R@0x0/A@0x5]. *)
Lemma flatten_twins_share_id :
  validate_tree Samples.twinTree "root" = [] /\
  map fn_id (flatten Samples.twinTree 0 "") =
    ["R@0x0"; "R@0x0/A@0x5"; "R@0x0/A@0x5"] /\
  ~ NoDup (map fn_id (flatten Samples.twinTree 0 "")).
Proof.
  split; [reflexivity|]. split; [reflexivity|].
  intros H. inversion H as [|? ? _ H']; subst.
  inversion H' as [|? ? Hin _]; subst. apply Hin. now left.
Qed.

(** C5, amended: for every tree accepted by the Validator in which every
    node has a positive size, all identifiers produced by [flatten] are
    distinct.  (An identifier ends with the hex start of its node; in such
    a tree two nodes with the same start lie on one branch, where the
    deeper identifier is strictly longer.) *)
Theorem flatten_ids_unique (t : Node) :
  validate_tree t "root" = [] ->
  everyNode (fun n => 0 < n_size n) t ->
  NoDup (map fn_id (flatten t 0 "")).
Proof.
  intros Hv Hpos. apply (flatten_nodup t "root"); auto.
Qed.

Lemma flatten_ids_unique_witness :
  validate_tree Samples.rootTree "root" = [] /\
  everyNode (fun n => 0 < n_size n) Samples.rootTree /\
  NoDup (map fn_id (flatten Samples.rootTree 0 "")).
Proof.
  assert (H1 : validate_tree Samples.rootTree "root" = []) by reflexivity.
  assert (H2 : everyNode (fun n => 0 < n_size n) Samples.rootTree)
    by (simpl; repeat split; reflexivity).
  split; [exact H1|]. split; [exact H2|].
  exact (flatten_ids_unique Samples.rootTree H1 H2).
Defined.

(** ** Boundary markers *)

Import Markers.

Lemma find_snoc {A : Type} (f : A -> bool) (l : list A) (x : A) :
  find f (l ++ [x]) =
  match find f l with
  | Some a => Some a
  | None => if f x then Some x else None
  end.
Proof.
  induction l as [|y l IH]; simpl; [reflexivity|].
  destruct (f y); [reflexivity|exact IH].
Qed.

Lemma hasKey_spec key byY :
  hasKey key byY = true <-> exists b, In (key, b) byY.
Proof.
  induction byY as [|[k b] byY IH]; simpl.
  - split; [discriminate|intros [b []]].
  - rewrite orb_true_iff, IH, Z.eqb_eq. split.
    + intros [->|[b' Hb']]; eauto.
    + intros [b' [Hb'|Hb']]; [inversion Hb'; auto|eauto].
Qed.

Lemma collect_snoc boundaries x :
  collect (boundaries ++ [x]) = keepFirst (collect boundaries) x.
Proof. unfold collect. now rewrite fold_left_app. Qed.

(** The map holds, under each key, the first boundary that rounds to it,
    and holds each key once. *)
Lemma collect_spec boundaries :
  (forall k b, In (k, b) (collect boundaries) <->
               find (fun b' => yKey (b_y b') =? k) boundaries = Some b) /\
  NoDup (map fst (collect boundaries)).
Proof.
  induction boundaries as [|x boundaries [IHin IHnd]] using rev_ind.
  - split; [|constructor]. intros k b. simpl. split; [contradiction|discriminate].
  - rewrite collect_snoc. unfold keepFirst.
    destruct (hasKey (yKey (b_y x)) (collect boundaries)) eqn:E.
    + split; [|exact IHnd]. intros k b. rewrite find_snoc, IHin.
      destruct (find (fun b' => yKey (b_y b') =? k) boundaries) eqn:F;
        [reflexivity|].
      split; [discriminate|]. intros Hx. exfalso.
      destruct (Z.eqb_spec (yKey (b_y x)) k) as [Hk|]; [|discriminate].
      apply hasKey_spec in E. destruct E as [b0 Hb0].
      rewrite Hk in Hb0. apply IHin in Hb0. congruence.
    + assert (Hfresh : forall b, ~ In (yKey (b_y x), b) (collect boundaries)).
      { intros b Hb.
        assert (hasKey (yKey (b_y x)) (collect boundaries) = true)
          by (apply hasKey_spec; eauto).
        congruence. }
      split.
      * intros k b. rewrite in_app_iff, find_snoc, IHin.
        destruct (find (fun b' => yKey (b_y b') =? k) boundaries) eqn:F.
        -- split; [intros [H|[H|[]]]; [exact H|]|auto].
           inversion H; subst. exfalso.
           apply (Hfresh b0). now apply IHin.
        -- destruct (Z.eqb_spec (yKey (b_y x)) k) as [Hk|Hk].
           ++ split; [intros [H|[H|[]]]; [discriminate|now inversion H]|].
              intros H. inversion H; subst. right. now left.
           ++ split; [intros [H|[H|[]]]; [discriminate|]|discriminate].
              inversion H. congruence.
      * rewrite map_app. apply NoDup_app; [exact IHnd|repeat constructor; auto|].
        intros k Hk [<-|[]]. apply in_map_iff in Hk.
        destruct Hk as ([k' b] & Hk' & Hb). simpl in Hk'. subst k'.
        exact (Hfresh b Hb).
Qed.

Lemma collect_keys boundaries :
  map fst (collect boundaries) =
  map (fun b => yKey (b_y b)) (map snd (collect boundaries)).
Proof.
  destruct (collect_spec boundaries) as [Hin _].
  rewrite map_map. apply map_ext_in. intros [k b] Hkb. simpl.
  apply Hin in Hkb. apply find_some in Hkb. destruct Hkb as [_ Hk].
  apply Z.eqb_eq in Hk. auto.
Qed.

(** The sort: a permutation, in ascending order of [y]. *)
Lemma insertY_perm x l : Permutation (insertY x l) (x :: l).
Proof.
  induction l as [|z l IH]; simpl; [reflexivity|].
  destruct (Qle_bool (b_y x) (b_y z)); [reflexivity|].
  rewrite IH. apply perm_swap.
Qed.

Lemma sortY_perm l : Permutation (sortY l) l.
Proof.
  induction l as [|x l IH]; simpl; [reflexivity|].
  rewrite insertY_perm. now constructor.
Qed.

Lemma insertY_sorted x l :
  Sorted (fun a b => (b_y a <= b_y b)%Q) l ->
  Sorted (fun a b => (b_y a <= b_y b)%Q) (insertY x l).
Proof.
  induction l as [|z l IH]; simpl; intros Hs.
  - repeat constructor.
  - destruct (Qle_bool (b_y x) (b_y z)) eqn:E.
    + apply Qle_bool_iff in E. constructor; [exact Hs|now constructor].
    + assert (Hzx : (b_y z <= b_y x)%Q).
      { destruct (Qlt_le_dec (b_y z) (b_y x)) as [Hlt|Hle];
          [now apply Qlt_le_weak|].
        apply Qle_bool_iff in Hle. congruence. }
      inversion Hs as [|? ? Hs' Hhd]; subst.
      constructor; [now apply IH|].
      destruct l as [|w l]; simpl.
      * now constructor.
      * destruct (Qle_bool (b_y x) (b_y w)); constructor; auto.
        now inversion Hhd.
Qed.

Lemma sortY_sorted l :
  StronglySorted (fun a b => (b_y a <= b_y b)%Q) (sortY l).
Proof.
  apply Sorted_StronglySorted.
  - intros a b c. apply Qle_trans.
  - induction l as [|x l IH]; simpl; [constructor|now apply insertY_sorted].
Qed.

Lemma yKey_mono (a b : Q) : (a <= b)%Q -> yKey a <= yKey b.
Proof.
  intros H. unfold yKey. apply Qfloor_resp_le.
  apply Qplus_le_compat; [exact H|apply Qle_refl].
Qed.

(** Ascending and without repetition is strictly ascending. *)
Lemma sorted_nodup_strict (kept : list Boundary) :
  StronglySorted (fun a b => (b_y a <= b_y b)%Q) kept ->
  NoDup (map (fun b => yKey (b_y b)) kept) ->
  StronglySorted (fun m1 m2 => m_top m1 < m_top m2) (map markerOf kept).
Proof.
  induction 1 as [|a l Hs IH Ha]; intros Hnd; simpl; [constructor|].
  inversion Hnd as [|? ? Hnotin Hnd']; subst.
  constructor; [now apply IH|].
  apply Forall_forall. intros m Hm. apply in_map_iff in Hm.
  destruct Hm as (b & <- & Hb). simpl.
  rewrite Forall_forall in Ha. pose proof (yKey_mono _ _ (Ha b Hb)) as Hle.
  assert (yKey (b_y a) <> yKey (b_y b)).
  { intros E. apply Hnotin. rewrite E.
    apply (in_map (fun b => yKey (b_y b))). exact Hb. }
  lia.
Qed.

(** The kept boundaries of any list of boundaries. *)
Lemma uniq_spec boundaries :
  dedupedSorted boundaries (map markerOf (uniq boundaries)).
Proof.
  destruct (collect_spec boundaries) as [Hin Hnd].
  pose proof (sortY_perm (map snd (collect boundaries))) as Hperm.
  assert (Hkept : forall b, In b (uniq boundaries) <-> firstSeen boundaries b).
  { intros b. unfold uniq, firstSeen. split.
    - intros Hb. apply (Permutation_in _ Hperm) in Hb.
      apply in_map_iff in Hb. destruct Hb as ([k b'] & Eb & Hb).
      simpl in Eb. subst b'. apply Hin in Hb.
      pose proof (find_some _ _ Hb) as [_ Hk]. apply Z.eqb_eq in Hk.
      now rewrite Hk.
    - intros Hb. apply (Permutation_in _ (Permutation_sym Hperm)).
      apply in_map_iff. exists (yKey (b_y b), b). split; [reflexivity|].
      now apply Hin. }
  assert (Hkeys : NoDup (map (fun b => yKey (b_y b)) (uniq boundaries))).
  { unfold uniq.
    apply (Permutation_NoDup
             (Permutation_sym (Permutation_map _ Hperm))).
    now rewrite <- collect_keys. }
  exists (uniq boundaries). split; [reflexivity|]. split; [exact Hkept|].
  split; [|split; [exact Hkeys|split]].
  - intros b Hb.
    destruct (find (fun b' => yKey (b_y b') =? yKey (b_y b)) boundaries)
      as [b'|] eqn:F.
    + pose proof (find_some _ _ F) as [_ Hk]. apply Z.eqb_eq in Hk.
      exists b'. split; [|exact Hk]. apply Hkept. unfold firstSeen.
      now rewrite Hk.
    + exfalso. pose proof (find_none _ _ F b Hb) as Hn. cbv beta in Hn.
      now rewrite Z.eqb_refl in Hn.
  - apply sortY_sorted.
  - apply sorted_nodup_strict; [apply sortY_sorted|exact Hkeys].
Qed.

Lemma topBoundaries_total target fallbackBg all items rest : forall i,
  (i + List.length rest <= List.length items)%nat ->
  exists bs, topBoundaries target fallbackBg all items i rest = Some bs.
Proof.
  induction rest as [|s rest IH]; intros i Hi; simpl in *; [eauto|].
  destruct (nth_error items i) as [it|] eqn:E.
  - destruct (IH (S i)) as [bs Hbs]; [lia|]. rewrite Hbs. eauto.
  - apply nth_error_None in E. lia.
Qed.

Lemma last_some {A : Type} (l : list A) :
  l <> [] -> exists x, last (map Some l) None = Some x.
Proof.
  induction l as [|x l IH]; [congruence|]. intros _.
  destruct l as [|y l]; [now exists x|].
  destruct IH as [z Hz]; [discriminate|]. exists z. exact Hz.
Qed.

Lemma placeMarkers_spec target fallbackBg slices items :
  List.length slices = List.length items ->
  rendersDedupedSorted target fallbackBg slices items
    (placeMarkers target fallbackBg slices items).
Proof.
  intros Hlen. unfold rendersDedupedSorted, placeMarkers.
  destruct slices as [|s0 slices0] eqn:Es.
  - exists [], []. split; [reflexivity|]. split; [now left|].
    exact (uniq_spec []).
  - rewrite <- Es in *.
    assert (Hb : exists bs, boundariesOf target fallbackBg slices items = Some bs).
    { unfold boundariesOf.
      destruct (topBoundaries_total target fallbackBg slices items slices 0%nat)
        as [tops ->]; [simpl; lia|].
      unfold bottomBoundary.
      destruct (last_some slices) as [s ->]; [congruence|].
      destruct (last_some items) as [it ->]; [|eauto].
      intros ->. rewrite Es in Hlen. discriminate. }
    destruct Hb as [bs Hbs]. rewrite Hbs.
    exists bs, (map markerOf (uniq bs)).
    split; [reflexivity|]. split; [now right|]. apply uniq_spec.
Qed.

(** A thin last slice: its top and bottom edges round to the same pixel,
    and only the first of the two boundaries (the start address of the
    slice) is drawn. *)
Example renderOuterBoundaryLayer_thin :
  renderOuterBoundaryLayer Samples.stackBox Samples.thinSlices
    Samples.thinItems =
  Some [{| m_top := -12; m_bg := "tan"; m_text := "0x0000_0000" |};
        {| m_top := 40; m_bg := "blue"; m_text := "0x0008_0000" |}].
Proof. reflexivity. Qed.

(** C8: for every stack of positioned slices (one per item), both
    renderers draw the markers of the first-seen boundary of each rounded
    position, one marker per position (boundaries that round to the same
    integer are deduplicated, the first one seen is kept), and the markers
    are in ascending order of position. *)
Theorem boundary_markers_deduped_sorted (stackEl innerStackEl : Box)
  (parentBlock : option string) (slices : list Slice)
  (items : list DisplayItem) :
  List.length slices = List.length items ->
  rendersDedupedSorted stackEl (box_bg stackEl) slices items
    (renderOuterBoundaryLayer stackEl slices items) /\
  rendersDedupedSorted innerStackEl
    (match parentBlock with Some bg => bg | None => box_bg innerStackEl end)
    slices items
    (renderInnerLaneMarkers innerStackEl parentBlock slices items).
Proof.
  intros Hlen. split; now apply placeMarkers_spec.
Qed.

Lemma boundary_markers_deduped_sorted_witness :
  List.length Samples.thinSlices = List.length Samples.thinItems /\
  rendersDedupedSorted Samples.stackBox (box_bg Samples.stackBox)
    Samples.thinSlices Samples.thinItems
    (renderOuterBoundaryLayer Samples.stackBox Samples.thinSlices
       Samples.thinItems) /\
  rendersDedupedSorted Samples.stackBox "tan"
    Samples.thinSlices Samples.thinItems
    (renderInnerLaneMarkers Samples.stackBox (Some "tan") Samples.thinSlices
       Samples.thinItems).
Proof.
  split; [reflexivity|].
  apply (boundary_markers_deduped_sorted Samples.stackBox Samples.stackBox
           (Some "tan") Samples.thinSlices Samples.thinItems).
  reflexivity.
Defined.

(** ** Expanding and collapsing *)

Import Page Expansion.

Lemma insertBy_in {A : Type} (key : A -> Z) (x y : A) (l : list A) :
  In y (insertBy key x l) <-> y = x \/ In y l.
Proof.
  induction l as [|z l IH]; simpl; [intuition auto|].
  destruct (key x <=? key z); simpl; [intuition auto|].
  rewrite IH. intuition auto.
Qed.

Lemma sortBy_in {A : Type} (key : A -> Z) (y : A) (l : list A) :
  In y (sortBy key l) <-> In y l.
Proof.
  induction l as [|x l IH]; simpl; [reflexivity|].
  rewrite insertBy_in, IH. intuition auto.
Qed.

Lemma mapiFrom_in {A B : Type} (f : nat -> A -> B) (l : list A) (y : B) :
  forall k, In y (mapiFrom k f l) ->
  exists i x, nth_error l i = Some x /\ y = f (k + i)%nat x.
Proof.
  induction l as [|x l IH]; intros k H; simpl in H; [contradiction|].
  destruct H as [<-|H].
  - exists 0%nat, x. now rewrite Nat.add_0_r.
  - destruct (IH _ H) as (i & z & Hi & ->).
    exists (S i), z. split; [exact Hi|]. f_equal. lia.
Qed.

Lemma Forall2_nth {A : Type} (R : A -> Z -> Prop) (l : list A) (hs : list Z) :
  Forall2 R l hs ->
  forall i x, nth_error l i = Some x -> R x (nth i hs 0).
Proof.
  induction 1 as [|a h l hs Hah Hrest IH]; intros [|i] x Hx; simpl in *;
    try discriminate.
  - now inversion Hx; subst.
  - now apply IH.
Qed.

Section ControllerFacts.

Variable nodes : list FlatNode.

(** Every child item of a level is a node of the page, so the map [byId]
    knows its id. *)
Lemma itemsForNode_child node n :
  In (Child n) (itemsForNode nodes node) -> In n nodes.
Proof.
  unfold itemsForNode. rewrite sortBy_in, in_app_iff. intros [H|H].
  - apply in_map_iff in H. destruct H as (m & Hm & Hin). inversion Hm; subst.
    unfold childrenOf in Hin. rewrite sortBy_in in Hin.
    now apply filter_In in Hin.
  - apply in_map_iff in H. destruct H as (g & Hg & _). discriminate.
Qed.

Lemma byId_known n : In n nodes -> exists node, byId nodes (fn_id n) = Some node.
Proof.
  intros Hn. unfold byId.
  destruct (find _ (rev nodes)) as [node|] eqn:F; [eauto|].
  exfalso. apply in_rev in Hn.
  pose proof (find_none _ _ F n Hn) as H. cbv beta in H.
  now rewrite String.eqb_refl in H.
Qed.

Lemma item_known node it :
  In it (itemsForNode nodes node) -> _isGap it = false ->
  exists n, byId nodes (it_id it) = Some n.
Proof.
  intros Hit Hg. destruct it as [n|g]; [|discriminate].
  apply byId_known. eapply itemsForNode_child; eassumption.
Qed.

(** Blocks as rendered are as first laid out: nested slices at 44 pixels,
    top slices at 52 pixels or more. *)
Lemma renderInner_firstLayout parentNode el :
  In el (renderInner nodes parentNode) ->
  firstLayout el /\ b_kind el = InnerSlice /\
  In (b_item el) (itemsForNode nodes parentNode).
Proof.
  unfold renderInner, mapi. intros H.
  apply mapiFrom_in in H. destruct H as (i & it & Hi & ->).
  cbn [Nat.add fst computeCompactHeights].
  rewrite (nth_map_of _ _ _ _ _ Hi).
  split; [|split; [reflexivity|exact (nth_error_In _ _ Hi)]].
  unfold firstLayout, innerSliceOf, rememberBaseHeight. cbn.
  destruct (_isGap it); repeat split; reflexivity.
Qed.

Lemma renderTop_firstLayout floorShare root clientHeight el :
  In el (renderTop nodes floorShare root clientHeight) ->
  firstLayout el /\ b_kind el = TopSlice /\
  In (b_item el) (itemsForNode nodes root).
Proof.
  unfold renderTop, mapi. cbv zeta. intros H.
  apply mapiFrom_in in H. destruct H as (i & it & Hi & ->).
  cbn [Nat.add].
  match goal with
  | |- context [computeHeightsToFit ?f ?its ?mn ?mx ?bud ?gp] =>
      pose proof (computeHeightsToFit_shaped f its mn mx bud gp
                    (fun h => MIN_PX <= h)
                    ltac:(cbv beta; intros; lia) ltac:(cbv beta; intros; lia)
                    ltac:(cbv beta; intros; lia)) as Hsh;
      set (hs := fst (computeHeightsToFit f its mn mx bud gp)) in *
  end.
  pose proof (Forall2_nth _ _ _ Hsh i it Hi) as Hh. cbv beta in Hh.
  split; [|split; [reflexivity|exact (nth_error_In _ _ Hi)]].
  unfold firstLayout, sliceOf, rememberBaseHeight. cbn.
  assert (0 < nth i hs 0).
  { destruct (_isGap it); unfold MIN_PX, GAP_PX_OUTER in Hh; lia. }
  repeat split; auto.
Qed.

(** The round trip of one block. *)
Lemma click_round_trip el node :
  firstLayout el ->
  _isGap (b_item el) = false ->
  hasChildren nodes (it_id (b_item el)) = true ->
  byId nodes (it_id (b_item el)) = Some node ->
  roundTrips nodes el.
Proof.
  intros Hfirst Hgap Hdrill Hnode.
  destruct el as [it kind expanded baseH height lab siz inners].
  destruct Hfirst as (He & Hb & Hpos & Hl & Hs & Hi). cbn in *. subst.
  assert (Hbase : (if 0 <? height then height else 0) = height)
    by (destruct (Z.ltb_spec 0 height); lia).
  assert (Hnz : (height =? 0) = false) by (apply Z.eqb_neq; lia).
  split; [repeat split; auto|].
  split; [destruct kind; reflexivity|].
  destruct kind.
  - exists node. eexists. split; [exact Hnode|].
    unfold click, clickTop. cbn. rewrite Hgap, Hdrill, Hnode. cbn.
    split; [reflexivity|]. split; [reflexivity|]. split; [reflexivity|].
    intros h nested. unfold whileExpanded. cbn. rewrite Hgap, Hdrill. cbn.
    eexists. split; [reflexivity|].
    unfold collapseTopSliceKeepInner, getBaseHeight. cbn.
    rewrite Hbase, Hnz. repeat split. repeat constructor.
  - exists node. eexists. split; [exact Hnode|].
    unfold click, clickInner. cbn. rewrite Hgap, Hdrill, Hnode. cbn.
    split; [reflexivity|]. split; [reflexivity|]. split; [reflexivity|].
    intros h nested. unfold whileExpanded. cbn. rewrite Hgap, Hdrill. cbn.
    eexists. split; [reflexivity|].
    unfold getBaseHeight. cbn. rewrite Hbase. repeat split. constructor.
Qed.

End ControllerFacts.

(** C7: every drillable non-gap block, a top-level slice of [renderTop]
    or a nested slice of [renderInner], expands on a click; a second click,
    whatever a relayout made of its height and whatever happened in its
    nested stack meanwhile, puts it back exactly as first laid out: its
    height is the base height remembered at its first layout and nothing
    of the nested layout is left (the nested [inner] is removed, or, for a
    top-level slice, emptied and hidden). *)
Theorem expand_collapse_round_trip (nodes : list FlatNode)
  (floorShare : Z -> Z -> Z -> Z) (root parentNode : FlatNode)
  (clientHeight : option Z) (el : Block) :
  In el (renderTop nodes floorShare root clientHeight) \/
  In el (renderInner nodes parentNode) ->
  _isGap (b_item el) = false ->
  hasChildren nodes (it_id (b_item el)) = true ->
  roundTrips nodes el.
Proof.
  intros Hel Hgap Hdrill.
  assert (H : firstLayout el /\
              exists node, byId nodes (it_id (b_item el)) = Some node).
  { destruct Hel as [Hel|Hel].
    - destruct (renderTop_firstLayout nodes _ _ _ _ Hel) as (Hf & _ & Hit).
      split; [exact Hf|]. eapply item_known; eassumption.
    - destruct (renderInner_firstLayout nodes _ _ Hel) as (Hf & _ & Hit).
      split; [exact Hf|]. eapply item_known; eassumption. }
  destruct H as (Hf & node & Hnode).
  eapply click_round_trip; eassumption.
Qed.

Lemma expand_collapse_round_trip_witness :
  (In Samples.deepSlice
      (renderTop Samples.deepNodes exactShare Samples.deepRoot (Some 600)) \/
   In Samples.deepSlice (renderInner Samples.deepNodes Samples.deepRoot)) /\
  _isGap (b_item Samples.deepSlice) = false /\
  hasChildren Samples.deepNodes (it_id (b_item Samples.deepSlice)) = true /\
  roundTrips Samples.deepNodes Samples.deepSlice.
Proof.
  assert (H1 : In Samples.deepSlice
                 (renderTop Samples.deepNodes exactShare Samples.deepRoot
                    (Some 600)) \/
               In Samples.deepSlice
                 (renderInner Samples.deepNodes Samples.deepRoot))
    by (left; vm_compute; left; reflexivity).
  assert (H2 : _isGap (b_item Samples.deepSlice) = false)
    by (vm_compute; reflexivity).
  assert (H3 : hasChildren Samples.deepNodes
                 (it_id (b_item Samples.deepSlice)) = true)
    by (vm_compute; reflexivity).
  split; [exact H1|]. split; [exact H2|]. split; [exact H3|].
  exact (expand_collapse_round_trip Samples.deepNodes exactShare
           Samples.deepRoot Samples.deepRoot (Some 600) Samples.deepSlice
           H1 H2 H3).
Defined.

(** The block of [A] in the sample page: 140 pixels high when laid out,
    and again after expanding, growing to 300 pixels and collapsing. *)
Example expand_collapse_sample :
  b_height Samples.deepSlice = 140 /\
  (exists e, click Samples.deepNodes Samples.deepSlice = Some e /\
     option_map b_height
       (click Samples.deepNodes (whileExpanded 300 [] e)) = Some 140).
Proof.
  split; [reflexivity|]. eexists. split; reflexivity.
Qed.

(** ** The Validator, in both directions *)

Import Tree.

Lemma flat_map_all_nil {A B : Type} (f : A -> list B) (l : list A) :
  (forall x, In x l -> f x = []) -> flat_map f l = [].
Proof.
  induction l as [|a l IH]; intros H; [reflexivity|].
  cbn [flat_map]. rewrite (H a (or_introl eq_refl)), IH; [reflexivity|].
  intros x Hx. apply H. now right.
Qed.

Lemma overlapErrs_sorted here kids :
  overlapErrs here kids = [] <->
  Sorted (fun a b => n_end a <= n_start b) kids.
Proof.
  induction kids as [|a kids IH]; [split; [constructor | reflexivity]|].
  destruct kids as [|b kids]; [split; [repeat constructor | reflexivity]|].
  change (overlapErrs here (a :: b :: kids))
    with ((if n_end a >? n_start b then [overlapMsg here a b] else []) ++
          overlapErrs here (b :: kids)).
  destruct (Z.gtb_spec (n_end a) (n_start b)) as [Hgt|Hle].
  - split; [discriminate|].
    intros Hs. inversion Hs as [|? ? _ Hhd]; subst.
    inversion Hhd; subst. lia.
  - cbn [app]. rewrite IH. split.
    + intros Hs. constructor; [exact Hs | constructor; exact Hle].
    + intros Hs. now inversion Hs.
Qed.

Lemma overlapErrs_complete here a b kids :
  adjacent a b kids -> n_start b < n_end a ->
  In (overlapMsg here a b) (overlapErrs here kids).
Proof.
  intros (l1 & l2 & ->) Hlt.
  induction l1 as [|x l1 IH].
  - cbn [app overlapErrs].
    destruct (Z.gtb_spec (n_end a) (n_start b)); [now left | lia].
  - destruct l1 as [|y l1]; cbn [app overlapErrs] in *;
      apply in_or_app; right; exact IH.
Qed.

(** X1 -- [validate_tree] returns no message exactly for the trees in
    which, at every node, each child lies inside the node and each child
    ends where the next one in the list starts, or before. *)
Theorem validate_tree_accepts_iff (t : Node) (path : string) :
  validate_tree t path = [] <-> everyNode wellNested t.
Proof.
  revert path. induction t as [name start size children IH] using Node_induct.
  intros path. rewrite everyNode_eq. unfold wellNested.
  set (n := mkNode name start size children). split.
  - intros Hv. destruct (validated_node n path Hv) as [Hin Hov].
    change (n_children n) with children in *.
    split; [split|].
    + eapply Forall_impl; [|exact Hin]. cbv beta.
      intros c (H1 & H2 & _). split; assumption.
    + apply (overlapErrs_sorted (path ++ "/" ++ n_name n)%string). exact Hov.
    + rewrite Forall_forall in *. intros c Hc.
      apply (IH c Hc (path ++ "/" ++ n_name n)%string).
      now destruct (Hin c Hc) as (_ & _ & H).
  - intros [[Hin Hs] Hall]. change (n_children n) with children in *.
    rewrite validate_tree_eq. change (n_children n) with children.
    apply (overlapErrs_sorted (path ++ "/" ++ n_name n)%string) in Hs.
    rewrite Hs, app_nil_r.
    apply flat_map_all_nil. intros c Hc.
    rewrite Forall_forall in *.
    destruct (Hin c Hc) as [H1 H2].
    destruct (Z.ltb_spec (n_start c) (n_start n)); [lia|].
    destruct (Z.gtb_spec (n_end c) (n_end n)); [lia|].
    cbn [orb app]. apply (IH c Hc). exact (Hall c Hc).
Qed.

(** X2 -- every violation is reported: for a node [m] that
    [validate_tree] reaches with the path [p], a child of [m] that starts
    before [m] or ends after it, and two neighbouring children of which the
    first ends after the second starts, each put their message into the
    result. *)
Theorem validate_tree_reports (t : Node) (path : string) (m : Node)
  (p msg : string) :
  visits t path m p ->
  violation m (p ++ "/" ++ n_name m)%string msg ->
  In msg (validate_tree t path).
Proof.
  intros Hvis Hbad. induction Hvis as [n path|n path c m p Hc Hvis IH].
  - rewrite validate_tree_eq. apply in_or_app.
    destruct Hbad as [c Hc Hout|a b Hadj Hlt].
    + left. apply in_flat_map. exists c. split; [exact Hc|].
      apply in_or_app. left.
      destruct (Z.ltb_spec (n_start c) (n_start n));
        destruct (Z.gtb_spec (n_end c) (n_end n));
        cbn [orb]; try (now left); lia.
    + right. now apply overlapErrs_complete.
  - rewrite validate_tree_eq. apply in_or_app. left.
    apply in_flat_map. exists c. split; [exact Hc|].
    apply in_or_app. right. exact (IH Hbad).
Qed.

Lemma validate_tree_reports_witness :
  In "root/R: overlap between 'A' and 'B'"
     (validate_tree Samples.overlapTree "root").
Proof.
  apply (validate_tree_reports Samples.overlapTree "root"
           Samples.overlapTree "root").
  - apply visits_here.
  - apply (children_overlap Samples.overlapTree "root/R"
             (mkNode "A" 0 8 []) (mkNode "B" 4 8 [])).
    + exists [], []. reflexivity.
    + reflexivity.
Defined.

(** ** The Flattener: order, fields and parents *)

Import Tree.

Lemma preorder_eq (n : Node) :
  preorder n = n :: flat_map preorder (n_children n).
Proof. destruct n; reflexivity. Qed.

Lemma flat_map_pointwise {A B : Type} (f g : A -> list B) (l : list A) :
  Forall (fun x => f x = g x) l -> flat_map f l = flat_map g l.
Proof.
  induction 1 as [|x l Hx _ IH]; [reflexivity|].
  cbn [flat_map]. now rewrite Hx, IH.
Qed.

(** X3 -- [flatten] lists the nodes of the tree parent first and the
    children in their order, one record for each node, with the name, the
    start and the size of the node and with [end = start + size]. *)
Theorem flatten_preorder (t : Node) (depth : Z) (parent_id : string) :
  map (fun f => (fn_name f, fn_start f, fn_size f, fn_end f))
      (flatten t depth parent_id) =
  map (fun n => (n_name n, n_start n, n_size n, n_start n + n_size n))
      (preorder t).
Proof.
  revert depth parent_id.
  induction t as [name start size children IH] using Node_induct.
  intros depth parent_id.
  rewrite flatten_eq, preorder_eq. cbn [map]. f_equal.
  rewrite !map_flat_map. apply flat_map_pointwise.
  eapply Forall_impl; [|exact IH]. cbv beta. intros c Hc. apply Hc.
Qed.

Lemma flat_map_split {A B : Type} (F : A -> list B) (l : list A) :
  forall pre f post,
  flat_map F l = pre ++ f :: post ->
  exists l1 c l2 p1 p2,
    l = l1 ++ c :: l2 /\ F c = p1 ++ f :: p2 /\
    pre = flat_map F l1 ++ p1 /\ post = p2 ++ flat_map F l2.
Proof.
  induction l as [|a l IH]; intros pre f post H.
  - destruct pre; discriminate.
  - cbn [flat_map] in H. apply app_eq_app in H.
    destruct H as [r [[Ha Hr]|[Hp Hr]]].
    + destruct r as [|x r].
      * cbn [app] in Hr. symmetry in Hr.
        destruct (IH [] f post Hr) as (l1 & c & l2 & p1 & p2 & -> & Hc & H1 & ->).
        exists (a :: l1), c, l2, p1, p2. repeat split; try assumption.
        cbn [flat_map]. rewrite <- app_assoc, <- H1, Ha, !app_nil_r.
        reflexivity.
      * injection Hr as -> ->.
        exists [], a, l, pre, r. repeat split. exact Ha.
    + destruct (IH r f post Hr) as (l1 & c & l2 & p1 & p2 & -> & Hc & -> & ->).
      exists (a :: l1), c, l2, p1, p2. repeat split; try assumption.
      cbn [flat_map]. rewrite Hp, app_assoc. reflexivity.
Qed.

Lemma flatten_parent_before (n : Node) : forall d pid pre f post,
  pid = EmptyString \/ pathLike pid ->
  flatten n d pid = pre ++ f :: post ->
  (pre = [] /\ fn_id f = nodeId pid n /\ fn_depth f = d /\
   fn_parent f = parentOf pid) \/
  (exists g, In g pre /\ fn_parent f = Some (fn_id g) /\
             fn_depth f = fn_depth g + 1).
Proof.
  induction n as [name start size children IH] using Node_induct.
  intros d pid pre f post Hpid H. rewrite flatten_eq in H.
  destruct pre as [|h pre].
  - left. injection H as <- _. repeat split.
  - right. injection H as <- H.
    apply flat_map_split in H.
    destruct H as (l1 & c & l2 & p1 & p2 & Hl & Hc & -> & _).
    set (n := mkNode name start size children) in *.
    change (n_children n) with children in Hl.
    rewrite Forall_forall in IH.
    assert (Hin : In c children) by (rewrite Hl; apply in_elt).
    destruct (nodeId_shape pid n Hpid) as (Hlike & _ & _).
    destruct (IH c Hin (d + 1) (nodeId pid n) p1 f p2 (or_intror Hlike) Hc)
      as [(-> & _ & Hd & Hp)|(g & Hg & Hp & Hd)].
    + eexists. split; [left; reflexivity|]. cbn [fn_id fn_depth].
      split; [|exact Hd]. rewrite Hp.
      destruct Hlike as [Hne _].
      destruct (nodeId pid n); [contradiction|reflexivity].
    + exists g. split; [|split; assumption].
      right. apply in_or_app. right. exact Hg.
Qed.

(** X4 -- in the list [flatten] returns for a whole tree, the first
    record is the root, at depth 0 and without a parent, and every other
    record names as its parent the identifier of a record that comes before
    it in the list and whose depth is one less. *)
Theorem flatten_parent_first (t : Node) (pre post : list FlatNode)
  (f : FlatNode) :
  flatten t 0 "" = pre ++ f :: post ->
  (pre = [] /\ fn_depth f = 0 /\ fn_parent f = None) \/
  (exists g, In g pre /\ fn_parent f = Some (fn_id g) /\
             fn_depth f = fn_depth g + 1).
Proof.
  intros H.
  destruct (flatten_parent_before t 0 "" pre f post (or_introl eq_refl) H)
    as [(Hp & _ & Hd & Hpar)|Hg].
  - left. repeat split; assumption.
  - right. exact Hg.
Qed.

Lemma flatten_parent_first_witness :
  exists g, In g (firstn 2 Samples.deepNodes) /\
    fn_parent (nth 2 Samples.deepNodes Samples.deepRoot) = Some (fn_id g) /\
    fn_depth (nth 2 Samples.deepNodes Samples.deepRoot) = fn_depth g + 1.
Proof.
  destruct (flatten_parent_first Samples.deepTree
              (firstn 2 Samples.deepNodes) (skipn 3 Samples.deepNodes)
              (nth 2 Samples.deepNodes Samples.deepRoot) eq_refl)
    as [(H & _)|H].
  - discriminate H.
  - exact H.
Defined.

(** ** Sorting by an integer key *)

Import Tree Page.

Lemma insertBy_sorted {A : Type} (key : A -> Z) (x : A) (l : list A) :
  Sorted (fun a b => key a <= key b) l ->
  Sorted (fun a b => key a <= key b) (insertBy key x l).
Proof.
  induction l as [|z l IH]; cbn [insertBy]; intros Hs.
  - repeat constructor.
  - destruct (Z.leb_spec (key x) (key z)) as [Hle|Hlt].
    + constructor; [exact Hs | now constructor].
    + inversion Hs as [|? ? Hs' Hhd]; subst.
      constructor; [now apply IH|].
      destruct l as [|w l]; cbn [insertBy].
      * constructor. lia.
      * destruct (key x <=? key w); constructor; [lia|].
        now inversion Hhd.
Qed.

Lemma sortBy_sorted {A : Type} (key : A -> Z) (l : list A) :
  Sorted (fun a b => key a <= key b) (sortBy key l).
Proof.
  induction l as [|x l IH]; cbn [sortBy];
    [constructor | now apply insertBy_sorted].
Qed.

Lemma insertBy_perm {A : Type} (key : A -> Z) (x : A) (l : list A) :
  Permutation (insertBy key x l) (x :: l).
Proof.
  induction l as [|z l IH]; cbn [insertBy]; [reflexivity|].
  destruct (key x <=? key z); [reflexivity|].
  rewrite IH. apply perm_swap.
Qed.

Lemma sortBy_perm {A : Type} (key : A -> Z) (l : list A) :
  Permutation (sortBy key l) l.
Proof.
  induction l as [|x l IH]; cbn [sortBy]; [reflexivity|].
  rewrite insertBy_perm. now constructor.
Qed.

Lemma insertBy_stable {A : Type} (key : A -> Z) (v : Z) (x : A) (l : list A) :
  filter (fun a => key a =? v) (insertBy key x l) =
  filter (fun a => key a =? v) (x :: l).
Proof.
  induction l as [|z l IH]; cbn [insertBy]; [reflexivity|].
  destruct (Z.leb_spec (key x) (key z)) as [Hle|Hlt]; [reflexivity|].
  cbn [filter] in *. rewrite IH.
  destruct (Z.eqb_spec (key x) v) as [Hx|Hx];
    destruct (Z.eqb_spec (key z) v) as [Hz|Hz]; try reflexivity; lia.
Qed.

Lemma sortBy_stable {A : Type} (key : A -> Z) (v : Z) (l : list A) :
  filter (fun a => key a =? v) (sortBy key l) =
  filter (fun a => key a =? v) l.
Proof.
  induction l as [|x l IH]; cbn [sortBy]; [reflexivity|].
  rewrite insertBy_stable. cbn [filter]. now rewrite IH.
Qed.

Lemma sortBy_of_sorted {A : Type} (key : A -> Z) (l : list A) :
  Sorted (fun a b => key a <= key b) l -> sortBy key l = l.
Proof.
  induction 1 as [|x l Hs IH Hhd]; cbn [sortBy]; [reflexivity|].
  rewrite IH. destruct Hhd as [|y l Hxy]; cbn [insertBy]; [reflexivity|].
  destruct (Z.leb_spec (key x) (key y)); [reflexivity | lia].
Qed.

(** ** [build_node] *)

Fixpoint Raw_induct (P : Raw -> Prop)
  (step : forall name start size children,
      Forall P children -> P (mkRaw name start size children))
  (d : Raw) : P d :=
  match d with
  | mkRaw name start size children =>
      step name start size children
        ((fix all (cs : list Raw) : Forall P cs :=
            match cs with
            | [] => Forall_nil P
            | c :: cs' => Forall_cons c (Raw_induct P step c) (all cs')
            end) children)
  end.

Lemma build_node_sorted (d : Raw) :
  everyNode
    (fun n => Sorted (fun a b => n_start a <= n_start b) (n_children n))
    (build_node d).
Proof.
  induction d as [name start size children IH] using Raw_induct.
  rewrite everyNode_eq. cbn [build_node n_children]. split.
  - apply sortBy_sorted.
  - rewrite Forall_forall in *. intros c Hc.
    apply sortBy_in, in_map_iff in Hc. destruct Hc as (r & <- & Hr).
    exact (IH r Hr).
Qed.

(** X5 -- [build_node] copies the start and the size, takes [Unnamed]
    for a missing name, keeps every child, and leaves the children of every
    node of the tree in ascending order of their start, children with the
    same start in the order of the input. *)
Theorem build_node_sorts (name : option string) (start size : Z)
  (children : list Raw) :
  let n := build_node (mkRaw name start size children) in
  n_name n = match name with Some s => s | None => "Unnamed" end /\
  n_start n = start /\ n_size n = size /\
  Permutation (n_children n) (map build_node children) /\
  (forall v, filter (fun c => n_start c =? v) (n_children n) =
             filter (fun c => n_start c =? v) (map build_node children)) /\
  everyNode
    (fun m => Sorted (fun a b => n_start a <= n_start b) (n_children m)) n.
Proof.
  cbv zeta. do 3 (split; [reflexivity|]).
  split; [apply sortBy_perm|].
  split; [intros v; apply sortBy_stable|].
  apply build_node_sorted.
Qed.

Lemma sorted_apart_pairwise (kids : list Node) :
  Sorted (fun a b => n_start a <= n_start b) kids ->
  Sorted (fun a b => n_end a <= n_start b) kids ->
  StronglySorted (fun a b => n_end a <= n_start b) kids.
Proof.
  intros Hs Ha.
  apply Sorted_StronglySorted in Hs; [|intros a b c; cbv beta; lia].
  induction kids as [|a kids IH]; [constructor|].
  inversion Hs as [|? ? Hs' Hall]; subst.
  inversion Ha as [|? ? Ha' Hhd]; subst.
  constructor; [now apply IH|].
  destruct Hhd as [|b l Hab]; [constructor|].
  constructor; [exact Hab|].
  inversion Hs' as [|? ? _ Hb]; subst.
  eapply Forall_impl; [|exact Hb]. cbv beta. intros c Hc. lia.
Qed.

Lemma pairwise_apart (t : Node) : forall path,
  everyNode
    (fun n => Sorted (fun a b => n_start a <= n_start b) (n_children n)) t ->
  validate_tree t path = [] ->
  everyNode
    (fun n => StronglySorted (fun a b => n_end a <= n_start b) (n_children n))
    t.
Proof.
  induction t as [name start size children IH] using Node_induct.
  intros path Hs Hv. rewrite everyNode_eq in *.
  set (n := mkNode name start size children) in *.
  destruct Hs as [Hs Hall].
  destruct (validated_node n path Hv) as [Hin Hov].
  split.
  - apply sorted_apart_pairwise; [exact Hs|].
    apply (overlapErrs_sorted (path ++ "/" ++ n_name n)%string). exact Hov.
  - change (n_children n) with children in *.
    rewrite Forall_forall in *. intros c Hc.
    apply (IH c Hc (path ++ "/" ++ n_name n)%string (Hall c Hc)).
    now destruct (Hin c Hc) as (_ & _ & H).
Qed.

(** X6 -- checking neighbours is enough after [build_node]: when
    [validate_tree] returns no message for a tree built by [build_node], at
    every node each child ends where every later child starts, or before,
    not only the next one. *)
Theorem built_tree_pairwise_apart (d : Raw) (path : string) :
  validate_tree (build_node d) path = [] ->
  everyNode
    (fun n => StronglySorted (fun a b => n_end a <= n_start b) (n_children n))
    (build_node d).
Proof.
  intros Hv. apply (pairwise_apart (build_node d) path); [|exact Hv].
  apply build_node_sorted.
Qed.

Lemma built_tree_pairwise_apart_witness :
  everyNode
    (fun n => StronglySorted (fun a b => n_end a <= n_start b) (n_children n))
    (build_node Samples.rawTree).
Proof.
  apply (built_tree_pairwise_apart Samples.rawTree "root"). reflexivity.
Defined.

(** ** The node table of the page *)

Section TableFacts.

Variable nodes : list FlatNode.

Lemma parent_test (k : FlatNode) (id : string) :
  match fn_parent k with
  | Some p => String.eqb p id
  | None => false
  end = true <-> fn_parent k = Some id.
Proof.
  destruct (fn_parent k) as [p|]; [|split; discriminate].
  rewrite String.eqb_eq. split; [now intros -> | now intros [= ->]].
Qed.

Lemma childrenOf_in (id : string) (k : FlatNode) :
  In k (childrenOf nodes id) <-> In k nodes /\ fn_parent k = Some id.
Proof.
  unfold childrenOf. rewrite sortBy_in, filter_In, parent_test. reflexivity.
Qed.

(** X7 -- [childrenOf] returns exactly the nodes of the table whose
    parent is the given identifier, each as often as the table has it, in
    ascending order of their start and, for equal starts, in the order of
    the table; [hasChildren] says whether there is such a node. *)
Theorem childrenOf_sorted_children (id : string) :
  Sorted (fun a b => fn_start a <= fn_start b) (childrenOf nodes id) /\
  Permutation (childrenOf nodes id)
    (filter (fun n => match fn_parent n with
                      | Some p => String.eqb p id
                      | None => false
                      end) nodes) /\
  (forall v,
     filter (fun k => fn_start k =? v) (childrenOf nodes id) =
     filter (fun k => fn_start k =? v)
       (filter (fun n => match fn_parent n with
                         | Some p => String.eqb p id
                         | None => false
                         end) nodes)) /\
  (forall k, In k (childrenOf nodes id) <->
             In k nodes /\ fn_parent k = Some id) /\
  (hasChildren nodes id = true <->
   exists k, In k nodes /\ fn_parent k = Some id).
Proof.
  split; [apply sortBy_sorted|].
  split; [apply sortBy_perm|].
  split; [intros v; apply sortBy_stable|].
  split; [apply childrenOf_in|].
  unfold hasChildren. rewrite negb_true_iff, Nat.eqb_neq. split.
  - intros Hlen. destruct (childrenOf nodes id) as [|k l] eqn:E;
      [now contradiction Hlen|].
    exists k. apply childrenOf_in. rewrite E. now left.
  - intros (k & Hk). apply childrenOf_in in Hk.
    destruct (childrenOf nodes id); [contradiction|discriminate].
Qed.

Lemma find_unique {A : Type} (f : A -> bool) (l : list A) (x : A) :
  In x l -> f x = true ->
  (forall y, In y l -> f y = true -> y = x) ->
  find f l = Some x.
Proof.
  induction l as [|a l IH]; intros Hin Hx Hu; [contradiction|].
  cbn [find]. destruct (f a) eqn:E.
  - f_equal. apply Hu; [now left | exact E].
  - apply IH; [|exact Hx|].
    + destruct Hin as [->|Hin]; [congruence | exact Hin].
    + intros y Hy. apply Hu. now right.
Qed.

Lemma NoDup_map_inj {A B : Type} (f : A -> B) (l : list A) (x y : A) :
  NoDup (map f l) -> In x l -> In y l -> f x = f y -> x = y.
Proof.
  induction l as [|a l IH]; intros Hnd Hx Hy Hxy; [contradiction|].
  cbn [map] in Hnd. inversion Hnd as [|? ? Hnot Hnd']; subst.
  destruct Hx as [->|Hx]; destruct Hy as [->|Hy].
  - reflexivity.
  - exfalso. apply Hnot. rewrite Hxy. now apply in_map.
  - exfalso. apply Hnot. rewrite <- Hxy. now apply in_map.
  - now apply IH.
Qed.

(** X8 -- when the identifiers of the table are pairwise different,
    [byId.get(id)] is the node with that identifier: it returns a node
    exactly when that node is in the table under that identifier. *)
Theorem byId_finds (id : string) (n : FlatNode) :
  NoDup (map fn_id nodes) ->
  (Expansion.byId nodes id = Some n <-> In n nodes /\ fn_id n = id).
Proof.
  intros Hnd. unfold Expansion.byId. split.
  - intros H. apply find_some in H. destruct H as [Hin Heq].
    apply in_rev in Hin. apply String.eqb_eq in Heq. now split.
  - intros [Hin <-]. apply find_unique.
    + now apply in_rev in Hin.
    + apply String.eqb_refl.
    + intros y Hy Heq. apply in_rev in Hy. apply String.eqb_eq in Heq.
      now apply (NoDup_map_inj fn_id nodes y n Hnd).
Qed.

End TableFacts.

Lemma byId_finds_witness :
  Expansion.byId Samples.deepNodes "R@0x0/A@0x0" =
    Some (nth 1 Samples.deepNodes Samples.deepRoot).
Proof.
  apply (byId_finds Samples.deepNodes).
  - apply (flatten_nodup Samples.deepTree "root" 0 "").
    + reflexivity.
    + cbn. repeat split; lia.
    + now left.
  - split; [right; left; reflexivity | reflexivity].
Defined.

(** ** Gaps and items of a level, beyond validated children *)

Import Page Level.

Section LevelFacts.

Variable root : FlatNode.

Lemma scan_avoids kids : forall gaps cur,
  Sorted (fun a b => fn_start a <= fn_start b) kids ->
  exists new cur',
    scan root kids (gaps, cur) = (gaps ++ new, cur') /\
    cur <= cur' /\
    Forall (fun k => fn_end k <= cur') kids /\
    Forall (fun g => cur <= gap_start g /\
                     Forall (fun k => gap_end g <= fn_start k \/
                                      fn_end k <= gap_start g) kids) new.
Proof.
  induction kids as [|k kids IH]; intros gaps cur Hs.
  - exists [], cur. cbn [scan fold_left]. rewrite app_nil_r.
    repeat split; [lia | constructor | constructor].
  - assert (Hall : Forall (fun c => fn_start k <= fn_start c) kids).
    { apply Sorted_StronglySorted in Hs; [|intros a b c; cbv beta; lia].
      now inversion Hs. }
    inversion Hs as [|? ? Hs' _]; subst.
    change (scan root (k :: kids) (gaps, cur))
      with (scan root kids (scanStep root (gaps, cur) k)).
    cbn [scanStep].
    set (gaps1 := if fn_start k >? cur
                  then gaps ++ [gapAt root cur (fn_start k)] else gaps).
    destruct (IH gaps1 (Z.max cur (fn_end k)) Hs')
      as (new & cur' & E & Hle & Hends & Hnew).
    assert (Hrest : Forall (fun g => cur <= gap_start g /\
              Forall (fun c => gap_end g <= fn_start c \/
                               fn_end c <= gap_start g) (k :: kids)) new).
    { eapply Forall_impl; [|exact Hnew]. cbv beta. intros g [Hg Hk].
      split; [lia|]. constructor; [lia | exact Hk]. }
    subst gaps1. destruct (Z.gtb_spec (fn_start k) cur) as [Hgt|Hngt].
    + exists (gapAt root cur (fn_start k) :: new), cur'.
      rewrite E, <- app_assoc. cbn [app].
      split; [reflexivity|]. split; [lia|].
      split; [constructor; [lia | exact Hends]|].
      constructor; [|exact Hrest].
      cbn [gapAt gap_start gap_end]. split; [lia|].
      constructor; [lia|].
      eapply Forall_impl; [|exact Hall]. cbv beta. intros c Hc. lia.
    + exists new, cur'. rewrite E.
      split; [reflexivity|]. split; [lia|].
      split; [constructor; [lia | exact Hends] | exact Hrest].
Qed.


Lemma gapsFromChildren_cons k kids :
  gapsFromChildren root (k :: kids) =
  (let '(gaps, cur) := scan root (k :: kids) ([], fn_start root) in
   if cur <? fn_end root then gaps ++ [gapAt root cur (fn_end root)]
   else gaps).
Proof. reflexivity. Qed.

Lemma gaps_avoid_sorted kids :
  Sorted (fun a b => fn_start a <= fn_start b) kids ->
  Forall (fun g => Forall (fun k => gap_end g <= fn_start k \/
                                    fn_end k <= gap_start g) kids)
         (gapsFromChildren root kids).
Proof.
  intros Hs. destruct kids as [|k0 kids0]; [constructor|].
  rewrite gapsFromChildren_cons.
  destruct (scan_avoids (k0 :: kids0) [] (fn_start root) Hs)
    as (new & cur' & E & _ & Hends & Hnew).
  rewrite E. cbn [app].
  assert (H1 : Forall (fun g => Forall (fun k => gap_end g <= fn_start k \/
                         fn_end k <= gap_start g) (k0 :: kids0)) new).
  { eapply Forall_impl; [|exact Hnew]. cbv beta. now intros g [_ H]. }
  destruct (cur' <? fn_end root); [|exact H1].
  apply Forall_app. split; [exact H1|].
  constructor; [|constructor]. cbn [gapAt gap_start gap_end].
  eapply Forall_impl; [|exact Hends]. cbv beta. intros; lia.
Qed.

Lemma gaps_tile_valid kids :
  kids <> [] -> validChildren root kids ->
  forall x,
    (kidsCovering kids x + gapsCovering (gapsFromChildren root kids) x)%nat =
    if coversb (fn_start root) (fn_end root) x then 1%nat else 0%nat.
Proof.
  intros Hne [Hc Hs] x.
  destruct kids as [|k0 kids0]; [congruence|]. clear Hne.
  rewrite gapsFromChildren_cons.
  assert (Hpre : Forall (fun k => fn_start root <= fn_start k /\
                                  fn_start k <= fn_end k) (k0 :: kids0)).
  { eapply Forall_impl; [|exact Hc]. unfold contained. intros; lia. }
  destruct (scan_tiles root (k0 :: kids0) [] (fn_start root) Hpre Hs)
    as (new & cur' & E & Hle & _ & _ & Hbound & _ & _ & Hcnt).
  assert (Hcur : cur' <= fn_end root).
  { apply Hbound.
    - inversion Hc as [|? ? Hk0 _]. unfold contained in Hk0. lia.
    - eapply Forall_impl; [|exact Hc]. unfold contained. intros; lia. }
  rewrite E. cbn [app]. specialize (Hcnt x).
  destruct (Z.ltb_spec cur' (fn_end root)) as [Hlt|Hge].
  - rewrite gapsCovering_app, Nat.add_assoc, Hcnt, gapsCovering_cons.
    cbn [gapAt gap_start gap_end].
    change (gapsCovering [] x) with 0%nat.
    destruct (coversb_spec (fn_start root) cur' x);
      destruct (coversb_spec cur' (fn_end root) x);
      destruct (coversb_spec (fn_start root) (fn_end root) x);
      try reflexivity; lia.
  - rewrite Hcnt. assert (cur' = fn_end root) as -> by lia. reflexivity.
Qed.

End LevelFacts.

(** X9 -- no synthesised gap overlaps a child, whatever the node table
    holds: for every node, each gap [gapsFromChildren] makes for the
    children [childrenOf] returns ends where the child starts, or before,
    or starts where the child ends, or after. *)
Theorem gaps_never_overlap_children (nodes : list FlatNode)
  (node : FlatNode) :
  Forall
    (fun g =>
       Forall (fun k => gap_end g <= fn_start k \/ fn_end k <= gap_start g)
              (childrenOf nodes (fn_id node)))
    (gapsFromChildren node (childrenOf nodes (fn_id node))).
Proof.
  apply gaps_avoid_sorted. unfold childrenOf. apply sortBy_sorted.
Qed.



Lemma covering_perm (f : DisplayItem -> bool) (l1 l2 : list DisplayItem) :
  Permutation l1 l2 ->
  List.length (filter f l1) = List.length (filter f l2).
Proof.
  induction 1 as [|a l1 l2 _ IH|a b l|l1 l2 l3 _ IH1 _ IH2].
  - reflexivity.
  - cbn [filter]. destruct (f a); cbn [List.length]; now rewrite IH.
  - cbn [filter]. destruct (f a), (f b); reflexivity.
  - now rewrite IH1.
Qed.

Lemma itemsCovering_split (kids : list FlatNode) (gaps : list Gap) (x : Z) :
  itemsCovering (map Child kids ++ map GapItem gaps) x =
  (kidsCovering kids x + gapsCovering gaps x)%nat.
Proof.
  unfold itemsCovering, kidsCovering, gapsCovering.
  rewrite filter_app, length_app. f_equal.
  - induction kids as [|k kids IH]; [reflexivity|].
    cbn [map filter it_start it_end].
    destruct (coversb (fn_start k) (fn_end k) x); cbn [List.length];
      now rewrite IH.
  - induction gaps as [|g gaps IH]; [reflexivity|].
    cbn [map filter it_start it_end].
    destruct (coversb (gap_start g) (gap_end g) x); cbn [List.length];
      now rewrite IH.
Qed.

(** X11 -- the items of a node are its children and its gaps, each
    once, in ascending order of their start; items with the same start keep
    the order children first, and within the children and within the gaps
    the order they had. *)
Theorem itemsForNode_sorted (nodes : list FlatNode) (node : FlatNode) :
  let kids := childrenOf nodes (fn_id node) in
  let gaps := gapsFromChildren node kids in
  Sorted (fun a b => it_start a <= it_start b) (itemsForNode nodes node) /\
  Permutation (itemsForNode nodes node) (map Child kids ++ map GapItem gaps) /\
  (forall v,
     filter (fun it => it_start it =? v) (itemsForNode nodes node) =
     filter (fun it => it_start it =? v) (map Child kids ++ map GapItem gaps)).
Proof.
  cbv zeta. unfold itemsForNode.
  split; [apply sortBy_sorted|].
  split; [apply sortBy_perm | intros v; apply sortBy_stable].
Qed.

Lemma itemsForNode_tiles_from (nodes : list FlatNode) (node : FlatNode) :
  childrenOf nodes (fn_id node) <> [] ->
  validChildren node (childrenOf nodes (fn_id node)) ->
  tiled node (itemsForNode nodes node).
Proof.
  intros Hne Hv x. unfold itemsForNode, itemsCovering.
  rewrite (covering_perm _ _ _ (sortBy_perm it_start _)).
  fold (itemsCovering
          (map Child (childrenOf nodes (fn_id node)) ++
           map GapItem (gapsFromChildren node (childrenOf nodes (fn_id node))))
          x).
  rewrite itemsCovering_split. now apply gaps_tile_valid.
Qed.

(** X12 -- when the children of a node in the table are validated and
    there is at least one, the items of the node tile it: every address of
    the node lies in exactly one item, any other address in none. *)
Theorem itemsForNode_tiles (nodes : list FlatNode) (node : FlatNode) :
  childrenOf nodes (fn_id node) <> [] ->
  validChildren node (childrenOf nodes (fn_id node)) ->
  tiled node (itemsForNode nodes node).
Proof. exact (itemsForNode_tiles_from nodes node). Qed.

Lemma itemsForNode_tiles_witness :
  tiled Samples.deepRoot (itemsForNode Samples.deepNodes Samples.deepRoot).
Proof.
  apply itemsForNode_tiles.
  - discriminate.
  - split.
    + repeat constructor; cbn; lia.
    + repeat constructor. unfold apart. cbn. lia.
Defined.

(** ** Compact heights, marker colours, style classes *)

(** X13 -- [computeCompactHeights] gives every gap [gapPx] and every
    other item [minPx], and its total is the number of gaps times [gapPx]
    plus the number of other items times [minPx]. *)
Theorem computeCompactHeights_total (items : list DisplayItem)
  (minPx gapPx : Z) :
  Forall2 (fun it h => h = if _isGap it then gapPx else minPx)
          items (fst (computeCompactHeights items minPx gapPx)) /\
  snd (computeCompactHeights items minPx gapPx) =
    Z.of_nat (List.length (filter _isGap items)) * gapPx +
    nonGapCount items * minPx.
Proof.
  unfold computeCompactHeights, nonGapCount. cbn [fst snd]. split.
  - induction items as [|it items IH]; constructor; [reflexivity | exact IH].
  - induction items as [|it items IH]; [reflexivity|].
    cbn [map filter]. rewrite sum_cons, IH.
    destruct (_isGap it); cbn [negb List.length]; lia.
Qed.

Lemma firstSolid_spec (slices : list Slice) :
  match firstSolid slices with
  | Some t => In t slices /\ s_gap t = false
  | None => Forall (fun s => s_gap s = true) slices
  end.
Proof.
  induction slices as [|s slices IH]; cbn [firstSolid]; [constructor|].
  destruct (s_gap s) eqn:E.
  - destruct (firstSolid slices) as [t|].
    + destruct IH as [Hin Ht]. split; [now right | exact Ht].
    + now constructor.
  - split; [now left | exact E].
Qed.

(** X14 -- the marker colour of a slice: outside the stack it is the
    fallback; a slice that is not a gap gives its own colour; a gap gives
    the colour of a slice of the stack that is not a gap, and the fallback
    only when every slice of the stack is a gap. *)
Theorem markerBgForSlice_borrows (slices : list Slice) (idx : nat)
  (fallbackBg : string) :
  match nth_error slices idx with
  | None => markerBgForSlice slices idx fallbackBg = fallbackBg
  | Some s =>
      if s_gap s then
        (exists t, In t slices /\ s_gap t = false /\
                   markerBgForSlice slices idx fallbackBg = s_bg t) \/
        (Forall (fun t => s_gap t = true) slices /\
         markerBgForSlice slices idx fallbackBg = fallbackBg)
      else markerBgForSlice slices idx fallbackBg = s_bg s
  end.
Proof.
  unfold markerBgForSlice.
  destruct (nth_error slices idx) as [s|] eqn:E; [|reflexivity].
  destruct (s_gap s) eqn:Eg; cbn [negb]; [|reflexivity].
  pose proof (firstSolid_spec (skipn (S idx) slices)) as Hafter.
  pose proof (firstSolid_spec (rev (firstn idx slices))) as Hbefore.
  assert (Hsplit : slices = firstn idx slices ++ s :: skipn (S idx) slices).
  { clear -E. revert idx E.
    induction slices as [|a l IH]; intros [|i] E; try discriminate.
    - injection E as ->. reflexivity.
    - cbn [firstn skipn app]. f_equal. now apply IH. }
  destruct (firstSolid (skipn (S idx) slices)) as [t|].
  - left. exists t. destruct Hafter as [Hin Ht].
    split; [|split; [exact Ht | reflexivity]].
    rewrite Hsplit. apply in_or_app. right. now right.
  - destruct (firstSolid (rev (firstn idx slices))) as [t|].
    + left. exists t. destruct Hbefore as [Hin Ht].
      split; [|split; [exact Ht | reflexivity]].
      rewrite Hsplit. apply in_or_app. left. now apply in_rev.
    + right. split; [|reflexivity].
      rewrite Hsplit. apply Forall_app. split.
      * rewrite Forall_forall in *. intros u Hu.
        apply Hbefore. now apply in_rev in Hu.
      * constructor; assumption.
Qed.

(** X15 -- [depthClass] names one of the five style classes, whatever
    the depth. *)
Theorem depthClass_five (depth : Z) :
  In (depthClass depth)
     ["depth-0"; "depth-1"; "depth-2"; "depth-3"; "depth-4"] /\
  depthClass depth =
    (if (depth <=? 0)%Z then "depth-0"
     else if (4 <=? depth)%Z then "depth-4"
     else "depth-" ++ numToString depth)%string.
Proof.
  unfold depthClass.
  assert (H : Z.min 4 (Z.max 0 depth) = 0 \/ Z.min 4 (Z.max 0 depth) = 1 \/
              Z.min 4 (Z.max 0 depth) = 2 \/ Z.min 4 (Z.max 0 depth) = 3 \/
              Z.min 4 (Z.max 0 depth) = 4) by lia.
  split.
  - destruct H as [-> | [-> | [-> | [-> | ->]]]]; cbn; auto 6.
  - destruct (Z.leb_spec depth 0).
    + rewrite Z.max_l, Z.min_r by lia. reflexivity.
    + destruct (Z.leb_spec 4 depth).
      * rewrite Z.max_r, Z.min_l by lia. reflexivity.
      * rewrite Z.max_r, Z.min_r by lia. reflexivity.
Qed.

(** ** Clicks, collapse-all and base heights *)

Import Expansion Session Page.

Section SessionFacts.

Variable nodes : list FlatNode.

Lemma collapse_restores (el cur : Block) :
  firstLayout el -> b_kind el = TopSlice -> leftAs nodes el cur ->
  collapseTopSliceKeepInner cur = el.
Proof.
  intros Hfirst Hkind Hleft.
  destruct el as [it kind expanded baseH height lab siz inners].
  destruct Hfirst as (He & Hb & Hpos & Hl & Hs & Hi). cbn in *. subst.
  assert (Hbase : (if 0 <? height then height else 0) = height)
    by (destruct (Z.ltb_spec 0 height); lia).
  assert (Hnz : (height =? 0) = false) by (apply Z.eqb_neq; lia).
  destruct Hleft as [->|(ex & h & nested & Hclick & ->)].
  - unfold collapseTopSliceKeepInner, getBaseHeight. cbn.
    rewrite Hbase, Hnz. reflexivity.
  - unfold click, clickTop in Hclick. cbn in Hclick.
    destruct (_isGap it);
      [|destruct (hasChildren nodes (it_id it));
        [destruct (byId nodes (it_id it)); [|discriminate]|]];
      cbn in Hclick; injection Hclick as <-;
      unfold collapseTopSliceKeepInner, whileExpanded, getBaseHeight; cbn;
      rewrite Hbase, Hnz; reflexivity.
Qed.

End SessionFacts.

(** X16 -- Collapse-all restores the first layout: whatever top slices
    were expanded by a click, and whatever heights and nested stacks the
    expanded ones have by now, [collapseAll] leaves the top stack as
    [renderTop] created it. *)
Theorem collapseAll_restores (nodes : list FlatNode)
  (floorShare : Z -> Z -> Z -> Z) (root : FlatNode)
  (clientHeight : option Z) (now : list Block) :
  Forall2 (leftAs nodes) (renderTop nodes floorShare root clientHeight) now ->
  collapseAll now = renderTop nodes floorShare root clientHeight.
Proof.
  intros H.
  assert (Hall : Forall (fun el => firstLayout el /\ b_kind el = TopSlice)
                   (renderTop nodes floorShare root clientHeight)).
  { apply Forall_forall. intros el Hel.
    destruct (renderTop_firstLayout nodes _ _ _ _ Hel) as (Hf & Hk & _).
    now split. }
  induction H as [|el cur l now' Hleft _ IH]; [reflexivity|].
  inversion Hall as [|? ? [Hf Hk] Hall']; subst.
  unfold collapseAll in *. cbn [map].
  rewrite (collapse_restores nodes el cur Hf Hk Hleft), (IH Hall').
  reflexivity.
Qed.

Lemma collapseAll_restores_witness :
  collapseAll Samples.deepSlicesClicked = Samples.deepSlices.
Proof.
  apply (collapseAll_restores Samples.deepNodes exactShare Samples.deepRoot
           (Some 600) Samples.deepSlicesClicked).
  vm_compute.
  repeat (constructor;
          [first [left; reflexivity
                 | right; do 3 eexists; split; reflexivity]|]).
  constructor.
Defined.

(** X17 -- after [collapseAll] no slice of the top stack counts as
    expanded for a relayout, every slice has its label and size shown and
    the item and base height it had, a slice with a positive base height is
    that high, and a second [collapseAll] changes nothing. *)
Theorem collapseAll_nothing_expanded (slices : list Block) :
  Forall (fun s => isActuallyExpanded s = false /\
                   b_labelShown s = true /\ b_sizeShown s = true)
         (collapseAll slices) /\
  Forall2 (fun s c => b_item c = b_item s /\ b_baseH c = b_baseH s /\
                      (0 < getBaseHeight s -> b_height c = getBaseHeight s))
          slices (collapseAll slices) /\
  collapseAll (collapseAll slices) = collapseAll slices.
Proof.
  unfold collapseAll. split; [|split].
  - apply Forall_forall. intros c Hc. apply in_map_iff in Hc.
    destruct Hc as (s & <- & _).
    unfold isActuallyExpanded, collapseTopSliceKeepInner. cbn.
    destruct (b_inners s); repeat split.
  - induction slices as [|s slices IH]; constructor; [|exact IH].
    unfold collapseTopSliceKeepInner. cbn. repeat split.
    intros Hpos. destruct (Z.eqb_spec (getBaseHeight s) 0); [lia|reflexivity].
  - rewrite map_map. apply map_ext. intros s.
    destruct s as [it kind ex base h lab siz inners].
    unfold collapseTopSliceKeepInner, getBaseHeight. cbn. f_equal.
    + destruct base as [v|]; [destruct (0 <? v)|]; cbn;
        try reflexivity.
      destruct (v =? 0) eqn:E; rewrite ?E; reflexivity.
    + destruct inners; reflexivity.
Qed.

(** X18 -- a click never raises on a block made for an item of a node
    of the table, expanded or not, and it keeps the item, the kind and the
    base height of the block; on a gap and on a node without children it
    changes nothing, on any other item it switches the block between
    expanded and collapsed. *)
Theorem click_total (nodes : list FlatNode) (parentNode : FlatNode)
  (el : Block) :
  In (b_item el) (itemsForNode nodes parentNode) ->
  exists el',
    click nodes el = Some el' /\
    b_item el' = b_item el /\ b_kind el' = b_kind el /\
    b_baseH el' = b_baseH el /\
    (if _isGap (b_item el) || negb (hasChildren nodes (it_id (b_item el)))
     then el' = el
     else b_expanded el' = negb (b_expanded el)).
Proof.
  intros Hit.
  destruct (_isGap (b_item el)) eqn:Hgap.
  - exists el. unfold click, clickTop, clickInner. rewrite Hgap.
    destruct (b_kind el); repeat split.
  - destruct (item_known nodes parentNode (b_item el) Hit Hgap) as [n Hn].
    destruct el as [it kind ex base h lab siz inners]. cbn in Hgap, Hn.
    unfold click, clickTop, clickInner. cbn. rewrite Hgap, Hn. cbn [orb].
    destruct (hasChildren nodes (it_id it)); cbn [negb].
    + destruct ex; cbn [negb]; destruct kind; eexists; repeat split.
    + eexists. destruct kind; repeat split.
Qed.

Lemma click_total_witness :
  exists el',
    click Samples.deepNodes Samples.deepSlice = Some el' /\
    b_item el' = b_item Samples.deepSlice /\
    b_kind el' = b_kind Samples.deepSlice /\
    b_baseH el' = b_baseH Samples.deepSlice /\
    (if _isGap (b_item Samples.deepSlice) ||
        negb (hasChildren Samples.deepNodes
                (it_id (b_item Samples.deepSlice)))
     then el' = Samples.deepSlice
     else b_expanded el' = negb (b_expanded Samples.deepSlice)).
Proof.
  apply (click_total Samples.deepNodes Samples.deepRoot Samples.deepSlice).
  vm_compute. left. reflexivity.
Defined.

(** ** Markers of a stack whose edges round to different pixels *)

Lemma hasKey_absent key byY :
  ~ In key (map fst byY) -> hasKey key byY = false.
Proof.
  intros Hnot. destruct (hasKey key byY) eqn:E; [|reflexivity].
  apply hasKey_spec in E. destruct E as [b Hb]. exfalso. apply Hnot.
  apply in_map_iff. exists (key, b). now split.
Qed.

Lemma collect_from (l : list Boundary) : forall acc,
  NoDup (map (fun b => yKey (b_y b)) l) ->
  (forall b, In b l -> ~ In (yKey (b_y b)) (map fst acc)) ->
  fold_left keepFirst l acc = acc ++ map (fun b => (yKey (b_y b), b)) l.
Proof.
  induction l as [|x l IH]; intros acc Hnd Hfresh.
  - cbn [fold_left map]. now rewrite app_nil_r.
  - cbn [fold_left map] in *. inversion Hnd as [|? ? Hx Hnd']; subst.
    unfold keepFirst at 2.
    rewrite (hasKey_absent _ _ (Hfresh x (or_introl eq_refl))).
    rewrite IH; [now rewrite <- app_assoc | exact Hnd' |].
    intros b Hb. rewrite map_app, in_app_iff. intros [Hin|[Hin|[]]].
    + exact (Hfresh b (or_intror Hb) Hin).
    + cbn [fst] in Hin. apply Hx. rewrite Hin.
      apply (in_map (fun b => yKey (b_y b))). exact Hb.
Qed.

Lemma sortY_of_sorted (l : list Boundary) :
  Sorted (fun a b => (b_y a <= b_y b)%Q) l -> sortY l = l.
Proof.
  induction 1 as [|x l Hs IH Hhd]; cbn [sortY]; [reflexivity|].
  rewrite IH. destruct Hhd as [|y l Hxy]; cbn [insertY]; [reflexivity|].
  apply Qle_bool_iff in Hxy. now rewrite Hxy.
Qed.

Lemma uniq_of_increasing (bs : list Boundary) :
  StronglySorted (fun a b => yKey (b_y a) < yKey (b_y b)) bs ->
  uniq bs = bs.
Proof.
  intros Hs.
  assert (Hnd : NoDup (map (fun b => yKey (b_y b)) bs)).
  { induction Hs as [|a l _ IH Hall]; [constructor|].
    cbn [map]. constructor; [|exact IH].
    intros Hin. apply in_map_iff in Hin. destruct Hin as (b & Hk & Hb).
    rewrite Forall_forall in Hall. specialize (Hall b Hb). lia. }
  assert (Hq : Sorted (fun a b => (b_y a <= b_y b)%Q) bs).
  { apply StronglySorted_Sorted. clear Hnd.
    induction Hs as [|a l _ IH Hall]; [constructor|].
    constructor; [exact IH|].
    eapply Forall_impl; [|exact Hall]. cbv beta. intros b Hlt.
    destruct (Qlt_le_dec (b_y b) (b_y a)) as [Hba|Hab]; [|exact Hab].
    apply Qlt_le_weak, yKey_mono in Hba. lia. }
  unfold uniq, collect.
  rewrite (collect_from bs [] Hnd) by (intros b _ []).
  cbn [app]. rewrite map_map. cbn [snd]. rewrite map_id.
  now apply sortY_of_sorted.
Qed.

Lemma topBoundaries_addrs target fallbackBg all items rest : forall i bs,
  topBoundaries target fallbackBg all items i rest = Some bs ->
  map b_addr bs =
  map it_start (firstn (List.length rest) (skipn i items)).
Proof.
  induction rest as [|s rest IH]; intros i bs H; cbn [topBoundaries] in H.
  - injection H as <-. reflexivity.
  - destruct (nth_error items i) as [it|] eqn:E; [|discriminate].
    destruct (topBoundaries target fallbackBg all items (S i) rest)
      as [bs'|] eqn:E'; [|discriminate].
    injection H as <-. cbn [map b_addr List.length].
    assert (Hsk : skipn i items = it :: skipn (S i) items).
    { clear -E. revert i E.
      induction items as [|a l IHl]; intros [|i] E; try discriminate.
      - injection E as ->. reflexivity.
      - cbn [skipn]. now apply IHl. }
    rewrite Hsk. cbn [firstn map]. f_equal. now apply IH.
Qed.

(** X19 -- when the edges of a stack (the top edge of every slice and
    the bottom edge of the last) round to pixel positions that increase
    from each edge to the next, the renderer draws one marker for every
    edge, in the order of the stack: none is dropped and none moved, the
    marker of a top edge shows the start address of the item of its slice
    and the last marker the end address of the last item. *)
Theorem markers_one_per_edge (target : Box) (fallbackBg : string)
  (slices : list Slice) (items : list DisplayItem) (bs : list Boundary) :
  boundariesOf target fallbackBg slices items = Some bs ->
  StronglySorted (fun a b => yKey (b_y a) < yKey (b_y b)) bs ->
  placeMarkers target fallbackBg slices items = Some (map markerOf bs) /\
  List.length bs = S (List.length slices) /\
  exists lastItem,
    last (map Some items) None = Some lastItem /\
    map m_text (map markerOf bs) =
    map hex (map it_start (firstn (List.length slices) items) ++
             [it_end lastItem]).
Proof.
  intros Hb Hs. unfold placeMarkers. rewrite Hb, (uniq_of_increasing bs Hs).
  unfold boundariesOf in Hb.
  destruct (topBoundaries target fallbackBg slices items 0 slices)
    as [tops|] eqn:Et; [|discriminate].
  destruct (bottomBoundary target fallbackBg slices items)
    as [bottom|] eqn:Eb; [|discriminate].
  injection Hb as <-.
  pose proof (topBoundaries_addrs _ _ _ _ _ _ _ Et) as Haddr.
  cbn [skipn] in Haddr.
  unfold bottomBoundary in Eb.
  destruct (last (map Some slices) None) as [s|] eqn:Es; [|discriminate].
  destruct (last (map Some items) None) as [it|] eqn:Ei; [|discriminate].
  injection Eb as <-.
  split; [destruct slices; [discriminate Es | reflexivity]|].
  split.
  - rewrite length_app, Nat.add_comm. cbn [List.length Nat.add]. f_equal.
    rewrite <- (length_map b_addr tops), Haddr, length_map.
    clear -Et. apply firstn_length_le.
    assert (H : forall rest i tops,
              topBoundaries target fallbackBg slices items i rest = Some tops ->
              (List.length rest <= List.length items - i)%nat).
    { induction rest as [|r rest IH]; intros i tops' H;
        cbn [topBoundaries List.length] in *; [lia|].
      destruct (nth_error items i) eqn:E; [|discriminate].
      destruct (topBoundaries target fallbackBg slices items (S i) rest)
        eqn:E'; [|discriminate].
      specialize (IH _ _ E').
      assert (i < List.length items)%nat
        by (apply nth_error_Some; congruence).
      lia. }
    specialize (H _ _ _ Et). lia.
  - exists it. split; [reflexivity|].
    rewrite map_map. rewrite !map_app, <- Haddr.
    cbn [map markerOf m_text b_addr]. rewrite !map_map. reflexivity.
Qed.

Lemma markers_one_per_edge_witness :
  placeMarkers Samples.stackBox "white" Samples.threeSlices Samples.threeItems
    = Some [mkMarker (-2) "tan" "0x0000_0000";
            mkMarker 50 "blue" "0x0004_0000";
            mkMarker 102 "blue" "0x0008_0000";
            mkMarker 154 "blue" "0x000C_0000"].
Proof.
  destruct (boundariesOf Samples.stackBox "white" Samples.threeSlices
              Samples.threeItems) as [bs|] eqn:E; [|discriminate E].
  assert (Hs : StronglySorted (fun a b => yKey (b_y a) < yKey (b_y b)) bs).
  { injection E as <-.
    repeat (constructor; [|repeat constructor; reflexivity]). constructor. }
  destruct (markers_one_per_edge Samples.stackBox "white" Samples.threeSlices
              Samples.threeItems bs E Hs) as [H _].
  rewrite H. injection E as <-. reflexivity.
Defined.

(** ** From the validated tree to the levels of the page *)

Import Tree Level Page.

Lemma filter_none {A : Type} (p : A -> bool) (l : list A) :
  (forall x, In x l -> p x = false) -> filter p l = [].
Proof.
  induction l as [|a l IH]; intros H; [reflexivity|].
  cbn [filter]. rewrite (H a (or_introl eq_refl)).
  apply IH. intros x Hx. apply H. now right.
Qed.

Lemma NoDup_app_disjoint {A B : Type} (k : A -> B) (a b : list A) (x y : A) :
  NoDup (map k (a ++ b)) -> In x a -> In y b -> k x <> k y.
Proof.
  induction a as [|z a IH]; intros Hnd Hx Hy; [contradiction|].
  cbn [app map] in Hnd. inversion Hnd as [|? ? Hz Hnd']; subst.
  destruct Hx as [->|Hx]; [|now apply IH].
  intros E. apply Hz. rewrite E. apply in_map, in_or_app. now right.
Qed.

Lemma Sorted_map {A B : Type} (R : A -> A -> Prop) (R' : B -> B -> Prop)
  (g : A -> B) (l : list A) :
  (forall a b, R a b -> R' (g a) (g b)) ->
  Sorted R l -> Sorted R' (map g l).
Proof.
  intros HR. induction 1 as [|a l _ IH Hhd]; cbn [map]; constructor;
    [exact IH|].
  destruct Hhd; cbn [map]; constructor. now apply HR.
Qed.

Lemma flatten_id_extends (n : Node) (d : Z) (pid : string) (f : FlatNode) :
  pathLike pid -> In f (flatten n d pid) ->
  exists r, fn_id f = (pid ++ String "/" r)%string.
Proof.
  intros Hlike Hf.
  destruct (flatten_ids_shape n d pid f (or_intror Hlike) Hf) as [_ Hext].
  destruct (nodeId_shape pid n (or_intror Hlike)) as (_ & _ & E).
  rewrite (E Hlike) in Hext. destruct Hext as [->|[r ->]].
  - now exists (token n).
  - rewrite append_assoc. cbn [append]. eauto.
Qed.

Lemma flatten_id_fresh (n : Node) (d : Z) (pid : string) (f : FlatNode) :
  pid = EmptyString \/ pathLike pid -> In f (flatten n d pid) ->
  parentIs (fn_id f)
    {| fn_id := nodeId pid n; fn_name := n_name n; fn_start := n_start n;
       fn_size := n_size n; fn_end := n_end n; fn_depth := d;
       fn_parent := parentOf pid |} = false.
Proof.
  intros Hpid Hf. unfold parentIs. cbn [fn_parent].
  destruct Hpid as [->|Hlike]; [reflexivity|].
  destruct (flatten_id_extends n d pid f Hlike Hf) as [r ->].
  destruct Hlike as [Hne _].
  destruct pid as [|c pid]; [contradiction|]. cbn [parentOf].
  apply String.eqb_neq. intros E. symmetry in E.
  now apply append_longer in E.
Qed.

Lemma deeper_not_child (c : Node) (d : Z) (nid : string) (g : FlatNode) :
  pathLike nid ->
  In g (flat_map (fun c' => flatten c' (d + 1) (nodeId nid c)) (n_children c)) ->
  parentIs nid g = false.
Proof.
  intros Hlike Hg. apply in_split in Hg. destruct Hg as (p1 & p2 & Hsplit).
  pose proof (flatten_eq c d nid) as E. rewrite Hsplit in E.
  destruct (flatten_parent_before c d nid
              ({| fn_id := nodeId nid c; fn_name := n_name c;
                  fn_start := n_start c; fn_size := n_size c;
                  fn_end := n_end c; fn_depth := d;
                  fn_parent := parentOf nid |} :: p1) g p2
              (or_intror Hlike) E) as [(H & _)|(g' & Hg' & Hp & _)];
    [discriminate|].
  assert (Hin : In g' (flatten c d nid)).
  { rewrite E. destruct Hg' as [<-|Hg']; [now left|].
    right. apply in_or_app. now left. }
  destruct (flatten_id_extends c d nid g' Hlike Hin) as [r Hr].
  unfold parentIs. rewrite Hp, Hr. apply String.eqb_neq.
  apply append_longer.
Qed.

Lemma child_blocks_filter (d : Z) (nid : string) (cs : list Node) :
  pathLike nid ->
  filter (parentIs nid) (flat_map (fun c => flatten c d nid) cs) =
  map (fun c => record c d nid) cs.
Proof.
  intros Hlike. induction cs as [|c cs IH]; [reflexivity|].
  cbn [flat_map map]. rewrite filter_app, IH. clear IH.
  rewrite flatten_eq. cbn [filter].
  assert (Hhead : parentIs nid
            {| fn_id := nodeId nid c; fn_name := n_name c;
               fn_start := n_start c; fn_size := n_size c;
               fn_end := n_end c; fn_depth := d;
               fn_parent := parentOf nid |} = true).
  { unfold parentIs. cbn [fn_parent]. destruct Hlike as [Hne _].
    destruct nid; [contradiction|]. cbn [parentOf]. apply String.eqb_refl. }
  rewrite Hhead, filter_none; [reflexivity|].
  intros g Hg. now apply (deeper_not_child c d nid g Hlike).
Qed.

Lemma parent_in_block (n : Node) (d : Z) (pid : string) (g : FlatNode) :
  pid = EmptyString \/ pathLike pid -> In g (flatten n d pid) ->
  fn_parent g = parentOf pid \/
  exists g', In g' (flatten n d pid) /\ fn_parent g = Some (fn_id g').
Proof.
  intros Hpid Hg. destruct (in_split _ _ Hg) as (pre & post & E).
  destruct (flatten_parent_before n d pid pre g post Hpid E)
    as [(_ & _ & _ & Hp)|(g' & Hg' & Hp & _)].
  - now left.
  - right. exists g'. split; [|exact Hp]. rewrite E. apply in_or_app. now left.
Qed.

Lemma foreign_block_filter (d : Z) (nid : string) (l : list Node)
  (f : FlatNode) :
  pathLike nid ->
  fn_id f <> nid ->
  (forall g', In g' (flat_map (fun c => flatten c d nid) l) ->
              fn_id g' <> fn_id f) ->
  filter (parentIs (fn_id f)) (flat_map (fun c => flatten c d nid) l) = [].
Proof.
  intros Hlike Hnid Hother. apply filter_none. intros g Hg.
  pose proof Hg as Hg0.
  apply in_flat_map in Hg. destruct Hg as (c & Hc & Hg).
  unfold parentIs.
  destruct (parent_in_block c d nid g (or_intror Hlike) Hg)
    as [Hp|(g' & Hg' & Hp)]; rewrite Hp.
  - destruct Hlike as [Hne _]. destruct nid; [contradiction|].
    cbn [parentOf]. apply String.eqb_neq. congruence.
  - apply String.eqb_neq. apply Hother.
    apply in_flat_map. exists c. now split.
Qed.

Lemma level_of_record (n : Node) : forall path d pid f,
  pid = EmptyString \/ pathLike pid ->
  validate_tree n path = [] ->
  everyNode (fun m => 0 < n_size m) n ->
  In f (flatten n d pid) ->
  exists m,
    In m (preorder n) /\
    fn_name f = n_name m /\ fn_start f = n_start m /\
    fn_size f = n_size m /\ fn_end f = n_end m /\
    wellNested m /\ Forall (fun c => 0 < n_size c) (n_children m) /\
    filter (parentIs (fn_id f)) (flatten n d pid) =
      map (fun c => record c (fn_depth f + 1) (fn_id f)) (n_children m).
Proof.
  induction n as [name start size children IH] using Node_induct.
  set (n := mkNode name start size children) in *.
  intros path d pid f Hpid Hv Hpos Hf.
  destruct (nodeId_shape pid n Hpid) as (Hlike & _ & _).
  pose proof (flatten_nodup n path d pid Hv Hpos Hpid) as Hnd.
  pose proof (flatten_id_fresh n d pid f Hpid Hf) as Hfresh.
  destruct (validated_node n path Hv) as [Hkids Hover].
  apply everyNode_eq in Hpos. destruct Hpos as [Hn Hpos].
  change (n_children n) with children in *.
  rewrite flatten_eq in Hf, Hnd |- *.
  change (n_children n) with children in *.
  cbn [filter]. rewrite Hfresh. clear Hfresh.
  destruct Hf as [<-|Hf].
  - exists n. split; [rewrite preorder_eq; now left|].
    do 4 (split; [reflexivity|]).
    split; [|split].
    + split.
      * eapply Forall_impl; [|exact Hkids]. cbv beta.
        intros c (H1 & H2 & _). now split.
      * apply (overlapErrs_sorted (path ++ "/" ++ n_name n)%string).
        exact Hover.
    + eapply Forall_impl; [|exact Hpos]. cbv beta. intros c Hc.
      apply everyNode_eq in Hc. tauto.
    + cbn [fn_id fn_depth]. now apply child_blocks_filter.
  - cbn [map fn_id] in Hnd. apply NoDup_cons_iff in Hnd.
    destruct Hnd as [_ Hnd].
    apply in_flat_map in Hf. destruct Hf as (c0 & Hc0 & Hf).
    destruct (in_split _ _ Hc0) as (l1 & l2 & Hsplit).
    rewrite Forall_forall in IH, Hkids, Hpos.
    destruct (Hkids c0 Hc0) as (_ & _ & Hv0).
    destruct (IH c0 Hc0 _ (d + 1) (nodeId pid n) f (or_intror Hlike) Hv0
                (Hpos c0 Hc0) Hf)
      as (m & Hm & Hname & Hstart & Hsize & Hend & Hwell & Hmpos & Hfilter).
    exists m. split.
    { rewrite preorder_eq. right. apply in_flat_map. exists c0. now split. }
    do 4 (split; [assumption|]). split; [exact Hwell|].
    split; [exact Hmpos|].
    assert (Hnid : fn_id f <> nodeId pid n).
    { destruct (flatten_id_extends c0 _ _ f Hlike Hf) as [r ->].
      apply append_longer. }
    rewrite Hsplit in Hnd |- *.
    rewrite flat_map_app in Hnd |- *. cbn [flat_map] in Hnd |- *.
    rewrite !filter_app, Hfilter.
    rewrite (foreign_block_filter (d + 1) (nodeId pid n) l1 f Hlike Hnid),
            (foreign_block_filter (d + 1) (nodeId pid n) l2 f Hlike Hnid).
    + cbn [app]. now rewrite app_nil_r.
    + intros g' Hg'. rewrite app_assoc in Hnd. intros E.
      refine (NoDup_app_disjoint fn_id _ _ f g' Hnd _ Hg' (eq_sym E)).
      apply in_or_app. now right.
    + intros g' Hg'.
      refine (NoDup_app_disjoint fn_id _ _ g' f Hnd Hg' _).
      apply in_or_app. now left.
Qed.

Lemma page_level (t : Node) (path : string) (f : FlatNode) :
  validate_tree t path = [] ->
  everyNode (fun m => 0 < n_size m) t ->
  In f (flatten t 0 "") ->
  exists m,
    In m (preorder t) /\
    fn_name f = n_name m /\ fn_start f = n_start m /\
    fn_size f = n_size m /\ fn_end f = n_end m /\
    wellNested m /\ Forall (fun c => 0 < n_size c) (n_children m) /\
    childrenOf (flatten t 0 "") (fn_id f) =
      map (fun c => record c (fn_depth f + 1) (fn_id f)) (n_children m).
Proof.
  intros Hv Hpos Hf.
  destruct (level_of_record t path 0 "" f (or_introl eq_refl) Hv Hpos Hf)
    as (m & Hm & Hname & Hstart & Hsize & Hend & Hwell & Hmpos & Hfilter).
  exists m. do 7 (split; [assumption|]).
  unfold childrenOf.
  change (fun n : FlatNode =>
            match fn_parent n with
            | Some p => String.eqb p (fn_id f)
            | None => false
            end) with (parentIs (fn_id f)).
  rewrite Hfilter. apply sortBy_of_sorted.
  destruct Hwell as [_ Hs].
  assert (Hboth : Sorted (fun a b => n_end a <= n_start b /\ 0 < n_size a)
                    (n_children m)).
  { clear -Hs Hmpos. induction Hs as [|a l _ IH Hhd]; [constructor|].
    inversion Hmpos as [|? ? Ha Hl]; subst.
    constructor; [now apply IH|].
    destruct Hhd; constructor. now split. }
  eapply Sorted_map; [|exact Hboth]. cbv beta.
  intros a b [Hab Ha]. unfold record, n_end in *. cbn [fn_start]. lia.
Qed.

(** X20 -- the table keeps the tree: for a validated tree in which
    every size is positive, every record of the flattened list is the
    record of a node of the tree, and what [childrenOf] finds in the list
    for the identifier of that record is the records of the children of the
    node, all of them and no other, in the order of the tree, one level
    deeper and with that identifier as their parent. *)
Theorem childrenOf_recovers_tree (t : Node) (path : string) (f : FlatNode) :
  validate_tree t path = [] ->
  everyNode (fun m => 0 < n_size m) t ->
  In f (flatten t 0 "") ->
  exists m,
    In m (preorder t) /\
    fn_name f = n_name m /\ fn_start f = n_start m /\
    fn_size f = n_size m /\ fn_end f = n_end m /\
    childrenOf (flatten t 0 "") (fn_id f) =
      map (fun c => record c (fn_depth f + 1) (fn_id f)) (n_children m).
Proof.
  intros Hv Hpos Hf.
  destruct (page_level t path f Hv Hpos Hf)
    as (m & Hm & Hname & Hstart & Hsize & Hend & _ & _ & Hkids).
  exists m. repeat split; assumption.
Qed.

Lemma childrenOf_recovers_tree_witness :
  exists m,
    In m (preorder Samples.deepTree) /\
    fn_name Samples.deepRoot = n_name m /\
    fn_start Samples.deepRoot = n_start m /\
    fn_size Samples.deepRoot = n_size m /\
    fn_end Samples.deepRoot = n_end m /\
    childrenOf (flatten Samples.deepTree 0 "") (fn_id Samples.deepRoot) =
      map (fun c => record c (fn_depth Samples.deepRoot + 1)
                      (fn_id Samples.deepRoot))
          (n_children m).
Proof.
  apply (childrenOf_recovers_tree Samples.deepTree "root" Samples.deepRoot).
  - reflexivity.
  - cbn. repeat split; lia.
  - left. reflexivity.
Defined.

(** X21 -- every level of the page of a validated tree is tiled: for a
    validated tree in which every size is positive, the children the page
    finds for a record of the flattened list are validated children of it,
    and when there is at least one, the items of the record (children and
    gaps) hold every address of its range exactly once and no other
    address. *)
Theorem page_levels_tiled (t : Node) (path : string) (f : FlatNode) :
  validate_tree t path = [] ->
  everyNode (fun m => 0 < n_size m) t ->
  In f (flatten t 0 "") ->
  hasChildren (flatten t 0 "") (fn_id f) = true ->
  validChildren f (childrenOf (flatten t 0 "") (fn_id f)) /\
  tiled f (itemsForNode (flatten t 0 "") f).
Proof.
  intros Hv Hpos Hf Hhas.
  destruct (page_level t path f Hv Hpos Hf)
    as (m & _ & _ & Hstart & _ & Hend & [Hin Hs] & Hmpos & Hkids).
  assert (Hvalid : validChildren f (childrenOf (flatten t 0 "") (fn_id f))).
  { rewrite Hkids. split.
    - apply Forall_forall. intros k Hk. apply in_map_iff in Hk.
      destruct Hk as (c & <- & Hc).
      rewrite Forall_forall in Hin, Hmpos.
      destruct (Hin c Hc) as [H1 H2]. specialize (Hmpos c Hc).
      unfold contained, record, n_end in *. cbn [fn_start fn_end].
      rewrite Hstart, Hend. unfold n_end. lia.
    - eapply Sorted_map; [|exact Hs]. cbv beta.
      intros a b Hab. unfold apart, record. cbn [fn_start fn_end]. exact Hab. }
  split; [exact Hvalid|].
  apply itemsForNode_tiles_from; [|exact Hvalid].
  unfold hasChildren in Hhas. intros E. rewrite E in Hhas. discriminate.
Qed.

Lemma page_levels_tiled_witness :
  validChildren Samples.deepRoot
    (childrenOf (flatten Samples.deepTree 0 "") (fn_id Samples.deepRoot)) /\
  tiled Samples.deepRoot
    (itemsForNode (flatten Samples.deepTree 0 "") Samples.deepRoot).
Proof.
  apply (page_levels_tiled Samples.deepTree "root" Samples.deepRoot).
  - reflexivity.
  - cbn. repeat split; lia.
  - left. reflexivity.
  - reflexivity.
Defined.

(** ** Budgets the clamp bounds cannot meet *)

Lemma grow_room_least gapPx minPx maxPx flags hs :
  shaped gapPx (fun h => minPx <= h <= maxPx) flags hs ->
  openCount (fun h => h <? maxPx) flags hs <=
    Z.of_nat (List.length (filter negb flags)) * maxPx - nonGapSum flags hs.
Proof.
  induction 1 as [|b h flags hs Hb Hrest IH]; [cbn; lia|].
  cbn [nonGapSum openCount hd tl filter]. unfold movable.
  destruct b; cbn [negb andb List.length]; [lia|].
  rewrite Nat2Z.inj_succ.
  destruct (Z.ltb_spec h maxPx); lia.
Qed.

Lemma shrink_room_least gapPx minPx maxPx flags hs :
  shaped gapPx (fun h => minPx <= h <= maxPx) flags hs ->
  openCount (fun h => h >? minPx) flags hs <=
    nonGapSum flags hs - Z.of_nat (List.length (filter negb flags)) * minPx.
Proof.
  induction 1 as [|b h flags hs Hb Hrest IH]; [cbn; lia|].
  cbn [nonGapSum openCount hd tl filter]. unfold movable.
  destruct b; cbn [negb andb List.length]; [lia|].
  rewrite Nat2Z.inj_succ, Z.gtb_ltb.
  destruct (Z.ltb_spec minPx h); lia.
Qed.

Lemma none_growable gapPx minPx maxPx flags hs :
  shaped gapPx (fun h => minPx <= h <= maxPx) flags hs ->
  openCount (fun h => h <? maxPx) flags hs = 0 ->
  shaped gapPx (fun h => h = maxPx) flags hs.
Proof.
  induction 1 as [|b h flags hs Hb Hrest IH]; intros Hc; [constructor|].
  pose proof (openCount_nonneg (fun h => h <? maxPx) hs flags) as Hnn.
  rewrite openCount_cons in Hc. cbn [hd tl] in Hc. unfold movable in Hc.
  destruct b; cbn [negb andb] in Hc.
  - constructor; [exact Hb | apply IH; lia].
  - destruct (Z.ltb_spec h maxPx); [lia|].
    constructor; [lia | apply IH; lia].
Qed.

Lemma none_shrinkable gapPx minPx maxPx flags hs :
  shaped gapPx (fun h => minPx <= h <= maxPx) flags hs ->
  openCount (fun h => h >? minPx) flags hs = 0 ->
  shaped gapPx (fun h => h = minPx) flags hs.
Proof.
  induction 1 as [|b h flags hs Hb Hrest IH]; intros Hc; [constructor|].
  pose proof (openCount_nonneg (fun h => h >? minPx) hs flags) as Hnn.
  rewrite openCount_cons in Hc. cbn [hd tl] in Hc. unfold movable in Hc.
  destruct b; cbn [negb andb] in Hc.
  - constructor; [exact Hb | apply IH; lia].
  - rewrite Z.gtb_ltb in Hc. destruct (Z.ltb_spec minPx h); [lia|].
    constructor; [lia | apply IH; lia].
Qed.

Section Saturate.

Variable items : list DisplayItem.
Variables minPx maxPx budgetPx gapPx : Z.

Local Abbreviation flags := (isGap items).
Local Abbreviation okB := (fun h => minPx <= h <= maxPx).
Local Abbreviation cntG := (openCount (fun h => h <? maxPx) flags).
Local Abbreviation cntS := (openCount (fun h => h >? minPx) flags).
Local Abbreviation loop := (redistribute items minPx maxPx).
Local Abbreviation above hs :=
  (nonGapCount items * maxPx - nonGapSum flags hs).
Local Abbreviation below hs :=
  (nonGapSum flags hs - nonGapCount items * minPx).

Lemma delta_by_sum hs delta :
  shaped gapPx okB flags hs -> delta = budgetPx - sum hs ->
  delta = budgetPx - fixedGap items gapPx - nonGapSum flags hs.
Proof.
  intros Hsh ->. rewrite (shaped_sum _ _ _ _ Hsh).
  unfold fixedGap, gapCount. lia.
Qed.

Section High.

Hypothesis over :
  maxPx * nonGapCount items <= budgetPx - fixedGap items gapPx.

Lemma grow_stuck guardLeft hs delta :
  cntG hs = 0 -> 0 <= delta -> fst (loop guardLeft hs delta) = hs.
Proof.
  intros Hc Hd. destruct guardLeft as [|g]; [reflexivity|].
  cbn [redistribute].
  destruct (Z.eqb_spec delta 0); [reflexivity|].
  rewrite redistributeStep_pass.
  replace (delta >? 0) with true by (symmetry; apply Z.gtb_lt; lia).
  rewrite Hc. reflexivity.
Qed.

Lemma grow_saturates (k : nat) : forall hs delta,
  shaped gapPx okB flags hs -> delta = budgetPx - sum hs ->
  cntG hs * above hs * 9 ^ Z.of_nat k < 16 ^ Z.of_nat k ->
  cntG (fst (loop (S k) hs delta)) = 0.
Proof.
  induction k as [|k IH]; intros hs delta Hsh Hd Hpot.
  - pose proof (delta_by_sum hs delta Hsh Hd) as Hdelta.
    pose proof (grow_room_least _ _ _ _ _ Hsh) as Hleast.
    pose proof (grow_room _ _ _ _ _ Hsh) as [Hc _].
    rewrite <- nonGapCount_flags in Hleast, Hc.
    destruct (Z.eq_dec (cntG hs) 0) as [E|E].
    + rewrite grow_stuck; [exact E | exact E | lia].
    + exfalso.
      change (9 ^ Z.of_nat 0) with 1 in Hpot.
      change (16 ^ Z.of_nat 0) with 1 in Hpot.
      apply (potential_positive (cntG hs) (above hs)); [lia | lia | exact Hpot].
  - pose proof (delta_by_sum hs delta Hsh Hd) as Hdelta.
    pose proof (grow_room_least _ _ _ _ _ Hsh) as Hleast.
    pose proof (grow_room _ _ _ _ _ Hsh) as [Hc _].
    rewrite <- nonGapCount_flags in Hleast, Hc.
    destruct (Z.eq_dec (cntG hs) 0) as [E|E].
    { rewrite grow_stuck; [exact E | exact E | lia]. }
    assert (Hc1 : 1 <= cntG hs) by lia.
    assert (Hpos : 0 < delta) by lia.
    change (loop (S (S k)) hs delta) with
      (if delta =? 0 then (hs, delta)
       else match redistributeStep items minPx maxPx hs delta with
            | None => (hs, delta)
            | Some (hs', delta') => loop (S k) hs' delta'
            end).
    replace (delta =? 0) with false by (symmetry; apply Z.eqb_neq; lia).
    pose proof (redistributeStep_shaped items minPx maxPx gapPx okB
                  ltac:(cbv beta; intros; lia) ltac:(cbv beta; intros; lia)
                  hs delta) as Hsh'.
    pose proof (redistributeStep_sum items minPx maxPx hs delta) as Hsum'.
    rewrite redistributeStep_pass in *.
    replace (delta >? 0) with true in * by (symmetry; apply Z.gtb_lt; lia).
    replace (cntG hs =? 0) with false in * by (symmetry; apply Z.eqb_neq; lia).
    set (c := cntG hs) in *. set (R := above hs) in *.
    assert (Ht : 1 <= delta / c) by (apply Z.div_le_lower_bound; lia).
    assert (Hm := Z.mul_div_le delta c ltac:(lia)).
    replace (Z.max 1 (delta / c)) with (delta / c) in * by lia.
    set (t := delta / c) in *.
    pose proof (pass_spreads (fun h => maxPx - h) Z.add (fun h => h <? maxPx)
                  (fun r => r) ltac:(cbv beta; intros; lia)
                  ltac:(cbv beta; intros; lia)
                  t hs flags delta Ht ltac:(cbv beta; intros; lia)
                  ltac:(fold c; lia)) as (H0 & Hle & Hspread).
    fold c in Hle, Hspread.
    destruct (pass _ _ _ _ _ _ _ _) as [hs' d'].
    specialize (Hsh' hs' d' Hsh eq_refl). specialize (Hsum' hs' d' eq_refl).
    cbn [fst snd] in H0, Hle, Hspread.
    pose proof (shaped_sum _ _ _ _ Hsh) as Hs.
    pose proof (shaped_sum _ _ _ _ Hsh') as Hs'.
    pose proof (grow_room_least _ _ _ _ _ Hsh') as Hleast'.
    pose proof (grow_room _ _ _ _ _ Hsh') as [Hc' _].
    rewrite <- nonGapCount_flags in Hleast', Hc'.
    set (c' := cntG hs') in *. set (R' := above hs') in *.
    assert (HR : R' = R - (delta - d')) by (unfold R, R'; lia).
    apply IH; [exact Hsh' | lia |].
    fold c' R'.
    assert (Ht0 : 1 <= R / c) by (apply Z.div_le_lower_bound; lia).
    assert (Ht0t : R / c <= t) by (apply Z.div_le_mono; lia).
    assert (Hm0 := Z.mul_div_le R c ltac:(lia)).
    assert (Hmod0 := Z.mod_pos_bound R c ltac:(lia)).
    assert (Hdm0 := Z.div_mod R c ltac:(lia)).
    assert (Hmono : c' * (R / c) <= c' * t)
      by (apply Z.mul_le_mono_nonneg_l; lia).
    apply (potential_step (c * R)); [lia| |].
    + apply (potential_drop c c' R R' (R / c)); lia.
    + rewrite Nat2Z.inj_succ, <- Z.add_1_r in Hpot. exact Hpot.
Qed.

End High.

Section Low.

Hypothesis under :
  budgetPx - fixedGap items gapPx <= minPx * nonGapCount items.

Lemma shrink_stuck guardLeft hs delta :
  cntS hs = 0 -> delta <= 0 -> fst (loop guardLeft hs delta) = hs.
Proof.
  intros Hc Hd. destruct guardLeft as [|g]; [reflexivity|].
  cbn [redistribute].
  destruct (Z.eqb_spec delta 0); [reflexivity|].
  rewrite redistributeStep_pass.
  replace (delta >? 0) with false
    by (symmetry; rewrite Z.gtb_ltb; apply Z.ltb_ge; lia).
  rewrite Hc. reflexivity.
Qed.

Lemma shrink_saturates (k : nat) : forall hs delta,
  shaped gapPx okB flags hs -> delta = budgetPx - sum hs ->
  cntS hs * below hs * 9 ^ Z.of_nat k < 16 ^ Z.of_nat k ->
  cntS (fst (loop (S k) hs delta)) = 0.
Proof.
  induction k as [|k IH]; intros hs delta Hsh Hd Hpot.
  - pose proof (delta_by_sum hs delta Hsh Hd) as Hdelta.
    pose proof (shrink_room_least _ _ _ _ _ Hsh) as Hleast.
    pose proof (shrink_room _ _ _ _ _ Hsh) as [Hc _].
    rewrite <- nonGapCount_flags in Hleast, Hc.
    destruct (Z.eq_dec (cntS hs) 0) as [E|E].
    + rewrite shrink_stuck; [exact E | exact E | lia].
    + exfalso.
      change (9 ^ Z.of_nat 0) with 1 in Hpot.
      change (16 ^ Z.of_nat 0) with 1 in Hpot.
      apply (potential_positive (cntS hs) (below hs)); [lia | lia | exact Hpot].
  - pose proof (delta_by_sum hs delta Hsh Hd) as Hdelta.
    pose proof (shrink_room_least _ _ _ _ _ Hsh) as Hleast.
    pose proof (shrink_room _ _ _ _ _ Hsh) as [Hc _].
    rewrite <- nonGapCount_flags in Hleast, Hc.
    destruct (Z.eq_dec (cntS hs) 0) as [E|E].
    { rewrite shrink_stuck; [exact E | exact E | lia]. }
    assert (Hc1 : 1 <= cntS hs) by lia.
    assert (Hneg : delta < 0) by lia.
    change (loop (S (S k)) hs delta) with
      (if delta =? 0 then (hs, delta)
       else match redistributeStep items minPx maxPx hs delta with
            | None => (hs, delta)
            | Some (hs', delta') => loop (S k) hs' delta'
            end).
    replace (delta =? 0) with false by (symmetry; apply Z.eqb_neq; lia).
    pose proof (redistributeStep_shaped items minPx maxPx gapPx okB
                  ltac:(cbv beta; intros; lia) ltac:(cbv beta; intros; lia)
                  hs delta) as Hsh'.
    pose proof (redistributeStep_sum items minPx maxPx hs delta) as Hsum'.
    rewrite redistributeStep_pass in *.
    replace (delta >? 0) with false in *
      by (symmetry; rewrite Z.gtb_ltb; apply Z.ltb_ge; lia).
    replace (cntS hs =? 0) with false in * by (symmetry; apply Z.eqb_neq; lia).
    set (c := cntS hs) in *. set (R := below hs) in *.
    set (need := - delta) in *.
    assert (Ht : 1 <= need / c)
      by (apply Z.div_le_lower_bound; unfold need; lia).
    assert (Hm := Z.mul_div_le need c ltac:(lia)).
    replace (Z.max 1 (need / c)) with (need / c) in * by lia.
    set (t := need / c) in *.
    pose proof (pass_spreads (fun h => h - minPx) Z.sub (fun h => h >? minPx)
                  (fun _ => need) ltac:(cbv beta; intros; lia)
                  ltac:(cbv beta; intros; lia)
                  t hs flags need Ht ltac:(cbv beta; intros; nia)
                  ltac:(fold c; lia)) as (H0 & Hle & Hspread).
    fold c in Hle, Hspread.
    cbv zeta in Hsh', Hsum' |- *.
    destruct (pass _ _ _ _ _ _ _ _) as [hs' d'].
    cbn [fst snd] in *.
    specialize (Hsh' hs' (- d') Hsh eq_refl).
    specialize (Hsum' hs' (- d') eq_refl).
    pose proof (shaped_sum _ _ _ _ Hsh) as Hs.
    pose proof (shaped_sum _ _ _ _ Hsh') as Hs'.
    pose proof (shrink_room_least _ _ _ _ _ Hsh') as Hleast'.
    pose proof (shrink_room _ _ _ _ _ Hsh') as [Hc' _].
    rewrite <- nonGapCount_flags in Hleast', Hc'.
    set (c' := cntS hs') in *. set (R' := below hs') in *.
    assert (HR : R' = R - (need - d')) by (unfold R, R', need; lia).
    apply IH; [exact Hsh' | lia |].
    fold c' R'.
    assert (Ht0 : 1 <= R / c) by (apply Z.div_le_lower_bound; lia).
    assert (Ht0t : R / c <= t)
      by (apply Z.div_le_mono; unfold need; lia).
    assert (Hm0 := Z.mul_div_le R c ltac:(lia)).
    assert (Hmod0 := Z.mod_pos_bound R c ltac:(lia)).
    assert (Hdm0 := Z.div_mod R c ltac:(lia)).
    assert (Hmono : c' * (R / c) <= c' * t)
      by (apply Z.mul_le_mono_nonneg_l; lia).
    apply (potential_step (c * R)); [lia| |].
    + apply (potential_drop c c' R R' (R / c)); lia.
    + rewrite Nat2Z.inj_succ, <- Z.add_1_r in Hpot. exact Hpot.
Qed.

End Low.

End Saturate.

Lemma saturated_zero (c n w R : Z) :
  0 <= c <= n -> n < 2 ^ 32 -> w < 2 ^ 1024 -> c <= R <= c * w ->
  c * R * 9 ^ Z.of_nat 1999 < 16 ^ Z.of_nat 1999.
Proof.
  intros Hc Hn Hw HR. destruct (Z.eq_dec R 0) as [->|Hne].
  - rewrite Z.mul_0_r, Z.mul_0_l. apply Z.pow_pos_nonneg; lia.
  - apply (bounded_potential c n w R); lia.
Qed.

Lemma fit_tops_out floorShare items minPx maxPx budgetPx
  gapPx :
  minPx <= maxPx ->
  maxPx * nonGapCount items <= budgetPx - fixedGap items gapPx ->
  Z.of_nat (List.length items) < 2 ^ 32 ->
  maxPx - minPx < 2 ^ 1024 ->
  Forall2 (fun it h => h = if _isGap it then gapPx else maxPx) items
    (fst (computeHeightsToFit floorShare items minPx maxPx budgetPx gapPx)) /\
  snd (computeHeightsToFit floorShare items minPx maxPx budgetPx gapPx) =
    fixedGap items gapPx + nonGapCount items * maxPx.
Proof.
  intros Hmm Hover Hlen Hw.
  assert (Hsh : shaped gapPx (fun h => minPx <= h <= maxPx) (isGap items)
                  (fst (computeHeightsToFit floorShare items minPx maxPx
                          budgetPx gapPx)) /\
                openCount (fun h => h <? maxPx) (isGap items)
                  (fst (computeHeightsToFit floorShare items minPx maxPx
                          budgetPx gapPx)) = 0 /\
                snd (computeHeightsToFit floorShare items minPx maxPx
                       budgetPx gapPx) =
                sum (fst (computeHeightsToFit floorShare items minPx maxPx
                            budgetPx gapPx))).
  { unfold computeHeightsToFit.
    destruct items as [|it0 items0] eqn:Ei;
      [split; [constructor | split; reflexivity]|].
    rewrite <- Ei in *. clear Ei it0 items0.
    set (hs0 := clamped floorShare items minPx maxPx budgetPx gapPx).
    assert (Hsh0 : shaped gapPx (fun h => minPx <= h <= maxPx)
                     (isGap items) hs0)
      by (apply clamped_shaped; intros; lia).
    pose proof (redistribute_shaped items minPx maxPx gapPx
                  (fun h => minPx <= h <= maxPx)
                  ltac:(cbv beta; intros; lia) ltac:(cbv beta; intros; lia)
                  2000 hs0 (budgetPx - totalH hs0) Hsh0) as Hfin.
    pose proof (grow_saturates items minPx maxPx budgetPx gapPx Hover 1999
                  hs0 (budgetPx - totalH hs0) Hsh0 eq_refl) as Hsat.
    destruct (redistribute items minPx maxPx 2000 hs0 (budgetPx - totalH hs0))
      as [hs d].
    cbn [fst snd] in *. split; [exact Hfin|]. split; [|reflexivity].
    apply Hsat.
    pose proof (grow_room_least _ _ _ _ _ Hsh0) as Hleast.
    pose proof (grow_room _ _ _ _ _ Hsh0) as [Hc Hroom].
    pose proof (nonGapCount_le_length items) as Hn.
    rewrite <- nonGapCount_flags in Hleast, Hc, Hroom.
    apply (saturated_zero _ (Z.of_nat (List.length items)) (maxPx - minPx));
      lia. }
  destruct Hsh as (Hsh & Hc & Htot).
  pose proof (none_growable _ _ _ _ _ Hsh Hc) as Hall.
  split.
  - apply Forall2_map_left
      with (R := fun (b : bool) h => h = if b then gapPx else maxPx).
    eapply Forall2_impl; [|exact Hall]. cbv beta.
    intros b h Hb. destruct b; exact Hb.
  - rewrite Htot, (shaped_sum _ _ _ _ Hsh).
    pose proof (grow_room_least _ _ _ _ _ Hsh) as Hleast.
    pose proof (grow_room _ _ _ _ _ Hsh) as [_ Hroom].
    rewrite <- nonGapCount_flags in Hleast, Hroom.
    rewrite Hc in Hleast, Hroom. unfold fixedGap, gapCount. lia.
Qed.

(** X22 -- a budget at or above the most the bounds allow: when
    [budgetPx - fixedGap] is at least [maxPx] for each of the non-gap items
    (and [minPx <= maxPx]), the redistribution ends, within its guard, with
    every non-gap item at [maxPx] exactly and every gap at [gapPx]; the
    returned total is the sum of these, whatever the budget. *)
Theorem computeHeightsToFit_tops_out floorShare items minPx maxPx budgetPx
  gapPx :
  minPx <= maxPx ->
  maxPx * nonGapCount items <= budgetPx - fixedGap items gapPx ->
  Z.of_nat (List.length items) < 2 ^ 32 ->
  maxPx - minPx < 2 ^ 1024 ->
  Forall2 (fun it h => h = if _isGap it then gapPx else maxPx) items
    (fst (computeHeightsToFit floorShare items minPx maxPx budgetPx gapPx)) /\
  snd (computeHeightsToFit floorShare items minPx maxPx budgetPx gapPx) =
    fixedGap items gapPx + nonGapCount items * maxPx.
Proof.
  exact (fit_tops_out floorShare items minPx maxPx budgetPx gapPx).
Qed.

Lemma computeHeightsToFit_tops_out_witness :
  fst (computeHeightsToFit exactShare Samples.threeEqual 10 140 1000 52) =
    [140; 140; 140] /\
  snd (computeHeightsToFit exactShare Samples.threeEqual 10 140 1000 52) =
    420.
Proof.
  destruct (computeHeightsToFit_tops_out exactShare Samples.threeEqual
              10 140 1000 52) as [Hall Htot].
  - lia.
  - vm_compute. discriminate.
  - vm_compute. reflexivity.
  - vm_compute. reflexivity.
  - split; [|exact Htot].
    destruct (fst (computeHeightsToFit exactShare Samples.threeEqual
                     10 140 1000 52)) as [|a [|b [|c [|e l]]]];
      inversion Hall as [|? ? ? ? Ha H1]; subst;
      inversion H1 as [|? ? ? ? Hb H2]; subst;
      inversion H2 as [|? ? ? ? Hc H3]; subst;
      inversion H3; subst. reflexivity.
Defined.

(** X23 -- a budget at or below the least the bounds allow: when
    [budgetPx - fixedGap] is at most [minPx] for each of the non-gap items
    (and [minPx <= maxPx]), the redistribution ends, within its guard, with
    every non-gap item at [minPx] exactly and every gap at [gapPx]; the
    returned total is the sum of these, whatever the budget. *)
Theorem computeHeightsToFit_bottoms_out floorShare items minPx maxPx budgetPx
  gapPx :
  minPx <= maxPx ->
  budgetPx - fixedGap items gapPx <= minPx * nonGapCount items ->
  Z.of_nat (List.length items) < 2 ^ 32 ->
  maxPx - minPx < 2 ^ 1024 ->
  Forall2 (fun it h => h = if _isGap it then gapPx else minPx) items
    (fst (computeHeightsToFit floorShare items minPx maxPx budgetPx gapPx)) /\
  snd (computeHeightsToFit floorShare items minPx maxPx budgetPx gapPx) =
    fixedGap items gapPx + nonGapCount items * minPx.
Proof.
  intros Hmm Hunder Hlen Hw.
  assert (Hsh : shaped gapPx (fun h => minPx <= h <= maxPx) (isGap items)
                  (fst (computeHeightsToFit floorShare items minPx maxPx
                          budgetPx gapPx)) /\
                openCount (fun h => h >? minPx) (isGap items)
                  (fst (computeHeightsToFit floorShare items minPx maxPx
                          budgetPx gapPx)) = 0 /\
                snd (computeHeightsToFit floorShare items minPx maxPx
                       budgetPx gapPx) =
                sum (fst (computeHeightsToFit floorShare items minPx maxPx
                            budgetPx gapPx))).
  { unfold computeHeightsToFit.
    destruct items as [|it0 items0] eqn:Ei;
      [split; [constructor | split; reflexivity]|].
    rewrite <- Ei in *. clear Ei it0 items0.
    set (hs0 := clamped floorShare items minPx maxPx budgetPx gapPx).
    assert (Hsh0 : shaped gapPx (fun h => minPx <= h <= maxPx)
                     (isGap items) hs0)
      by (apply clamped_shaped; intros; lia).
    pose proof (redistribute_shaped items minPx maxPx gapPx
                  (fun h => minPx <= h <= maxPx)
                  ltac:(cbv beta; intros; lia) ltac:(cbv beta; intros; lia)
                  2000 hs0 (budgetPx - totalH hs0) Hsh0) as Hfin.
    pose proof (shrink_saturates items minPx maxPx budgetPx gapPx Hunder 1999
                  hs0 (budgetPx - totalH hs0) Hsh0 eq_refl) as Hsat.
    destruct (redistribute items minPx maxPx 2000 hs0 (budgetPx - totalH hs0))
      as [hs d].
    cbn [fst snd] in *. split; [exact Hfin|]. split; [|reflexivity].
    apply Hsat.
    pose proof (shrink_room_least _ _ _ _ _ Hsh0) as Hleast.
    pose proof (shrink_room _ _ _ _ _ Hsh0) as [Hc Hroom].
    pose proof (nonGapCount_le_length items) as Hn.
    rewrite <- nonGapCount_flags in Hleast, Hc, Hroom.
    apply (saturated_zero _ (Z.of_nat (List.length items)) (maxPx - minPx));
      lia. }
  destruct Hsh as (Hsh & Hc & Htot).
  pose proof (none_shrinkable _ _ _ _ _ Hsh Hc) as Hall.
  split.
  - apply Forall2_map_left
      with (R := fun (b : bool) h => h = if b then gapPx else minPx).
    eapply Forall2_impl; [|exact Hall]. cbv beta.
    intros b h Hb. destruct b; exact Hb.
  - rewrite Htot, (shaped_sum _ _ _ _ Hsh).
    pose proof (shrink_room_least _ _ _ _ _ Hsh) as Hleast.
    pose proof (shrink_room _ _ _ _ _ Hsh) as [_ Hroom].
    rewrite <- nonGapCount_flags in Hleast, Hroom.
    rewrite Hc in Hleast, Hroom. unfold fixedGap, gapCount. lia.
Qed.

Lemma computeHeightsToFit_bottoms_out_witness :
  fst (computeHeightsToFit exactShare Samples.threeEqual 10 140 5 52) =
    [10; 10; 10] /\
  snd (computeHeightsToFit exactShare Samples.threeEqual 10 140 5 52) = 30.
Proof.
  destruct (computeHeightsToFit_bottoms_out exactShare Samples.threeEqual
              10 140 5 52) as [Hall Htot].
  - lia.
  - vm_compute. discriminate.
  - vm_compute. reflexivity.
  - vm_compute. reflexivity.
  - split; [|exact Htot].
    destruct (fst (computeHeightsToFit exactShare Samples.threeEqual
                     10 140 5 52)) as [|a [|b [|c [|e l]]]];
      inversion Hall as [|? ? ? ? Ha H1]; subst;
      inversion H1 as [|? ? ? ? Hb H2]; subst;
      inversion H2 as [|? ? ? ? Hc H3]; subst;
      inversion H3; subst. reflexivity.
Defined.

(** ** The first layout of the top stack and of a nested stack *)

Import Expansion Page.

Lemma fit_fills floorShare items minPx maxPx budgetPx gapPx :
  minPx * nonGapCount items <= budgetPx - fixedGap items gapPx
    <= maxPx * nonGapCount items ->
  Z.of_nat (List.length items) < 2 ^ 32 ->
  maxPx - minPx < 2 ^ 1024 ->
  sum (fst (computeHeightsToFit floorShare items minPx maxPx budgetPx gapPx))
    = budgetPx.
Proof.
  intros Hfeas Hlen Hw.
  unfold computeHeightsToFit.
  destruct items as [|it0 items0] eqn:Ei.
  { unfold fixedGap, gapCount, nonGapCount in Hfeas. cbn in Hfeas.
    cbn. lia. }
  rewrite <- Ei in *. clear Ei it0 items0.
  set (hs0 := clamped floorShare items minPx maxPx budgetPx gapPx).
  set (d0 := budgetPx - totalH hs0).
  pose proof (redistribute_sum items minPx maxPx 2000 hs0 d0) as Hsum.
  assert (Hz : snd (redistribute items minPx maxPx 2000 hs0 d0) = 0).
  2:{ destruct (redistribute items minPx maxPx 2000 hs0 d0) as [hs d].
      cbn [fst snd] in *. unfold d0, totalH in Hsum. lia. }
  pose proof (nonGapCount_le_length items) as Hn.
  destruct (Z.eq_dec d0 0) as [E0|E0].
  { rewrite E0. now rewrite loop_done. }
  assert (Hmm : minPx <= maxPx \/ nonGapCount items = 0).
  { destruct (Z.le_gt_cases minPx maxPx) as [Hmm|Hmm]; [now left|right].
    destruct (Z.eq_dec (nonGapCount items) 0) as [|Hne]; [assumption|].
    assert (1 * 1 <= (minPx - maxPx) * nonGapCount items)
      by (apply Z.mul_le_mono_nonneg; lia).
    lia. }
  destruct Hmm as [Hmm|Hn0].
  - assert (Hsh : shaped gapPx (fun h => minPx <= h <= maxPx) (isGap items) hs0)
      by (apply clamped_shaped; intros; lia).
    destruct (deficit_room items minPx maxPx budgetPx gapPx Hfeas hs0 d0 Hsh
                eq_refl) as [Hg Hs].
    pose proof (grow_room _ _ _ _ _ Hsh) as [Hcg _].
    pose proof (shrink_room _ _ _ _ _ Hsh) as [Hcs _].
    rewrite <- nonGapCount_flags in Hcg, Hcs.
    destruct (Z.lt_ge_cases 0 d0) as [Hpos|Hneg].
    + apply (grow_converges items minPx maxPx budgetPx gapPx Hfeas 1999);
        auto.
      apply (bounded_potential _ (Z.of_nat (List.length items))
               (maxPx - minPx)); lia.
    + apply (shrink_converges items minPx maxPx budgetPx gapPx Hfeas 1999);
        auto; [lia|].
      apply (bounded_potential _ (Z.of_nat (List.length items))
               (maxPx - minPx)); lia.
  - exfalso. apply E0.
    assert (Hsh : shaped gapPx (fun _ => True) (isGap items) hs0)
      by (apply clamped_shaped; auto).
    pose proof (shaped_sum _ _ _ _ Hsh) as Hs.
    rewrite (nonGapSum_all_gaps _ _ _ _ Hsh) in Hs.
    + unfold d0, totalH. unfold fixedGap, gapCount in Hfeas.
      rewrite Hn0 in Hfeas. lia.
    + rewrite nonGapCount_flags in Hn0. lia.
Qed.

Lemma gapCount_items (items : list DisplayItem) :
  gapCount items = Z.of_nat (List.length (filter _isGap items)).
Proof.
  unfold gapCount, isGap. f_equal.
  induction items as [|it l IH]; [reflexivity|].
  cbn [map filter]. destruct (_isGap it); cbn [List.length]; now rewrite IH.
Qed.

Lemma mapi_blocks {A : Type} (mk : A -> Z -> Block) (R : A -> Z -> Prop)
  (items : list A) (hs : list Z) :
  Forall2 R items hs ->
  forall pre,
    mapiFrom (List.length pre)
      (fun i it => mk it (nth i (pre ++ hs) 0)) items =
    map (fun p => mk (fst p) (snd p)) (combine items hs).
Proof.
  induction 1 as [|it h items hs _ _ IH]; intros pre; [reflexivity|].
  cbn [mapiFrom combine map fst snd]. rewrite nth_middle. f_equal.
  specialize (IH (pre ++ [h])).
  rewrite length_app, Nat.add_1_r, <- app_assoc in IH. exact IH.
Qed.

Lemma combine_fst {A : Type} (R : A -> Z -> Prop) (items : list A)
  (hs : list Z) :
  Forall2 R items hs ->
  map fst (combine items hs) = items /\ map snd (combine items hs) = hs.
Proof.
  induction 1 as [|it h items hs _ _ [IH1 IH2]]; [split; reflexivity|].
  cbn [combine map fst snd]. now rewrite IH1, IH2.
Qed.

(** X24 -- the first layout of the top stack: [renderTop] makes one
    slice for each item of the root, in order, each at its remembered base
    height; a gap is 52 pixels high and any other item between 52 and 140;
    and the slices together are as high as the budget (the visible height,
    at least 320 and at least 52 for every item), unless all items at 140
    pixels are lower than that, in which case every one of them is 140
    pixels high. *)
Theorem renderTop_layout (nodes : list FlatNode)
  (floorShare : Z -> Z -> Z -> Z) (root : FlatNode)
  (clientHeight : option Z) :
  let items := itemsForNode nodes root in
  let gaps := Z.of_nat (List.length (filter _isGap items)) in
  let solid := nonGapCount items in
  let visible :=
    Z.max 320 (match clientHeight with Some h => h | None => 900 end) in
  let slices := renderTop nodes floorShare root clientHeight in
  Z.of_nat (List.length items) < 2 ^ 32 ->
  map b_item slices = items /\
  Forall (fun s => b_baseH s = Some (b_height s) /\
                   if _isGap (b_item s) then b_height s = 52
                   else 52 <= b_height s <= 140) slices /\
  sum (map b_height slices) =
    Z.min (Z.max (gaps * 52 + solid * 52) visible) (gaps * 52 + solid * 140).
Proof.
  cbv zeta. intros Hlen. unfold renderTop. cbv zeta.
  fold (nonGapCount (itemsForNode nodes root)).
  set (items := itemsForNode nodes root) in *.
  set (visible :=
         Z.max 320 (match clientHeight with Some h => h | None => 900 end)).
  unfold MIN_PX, GAP_PX_OUTER, HOME_MAX.
  set (budget := Z.max (Z.of_nat (List.length (filter _isGap items)) * 52 +
                        nonGapCount items * 52) visible).
  pose proof (computeHeightsToFit_shaped floorShare items 52 140 budget 52
                (fun h => 52 <= h <= 140)
                ltac:(cbv beta; intros; lia) ltac:(cbv beta; intros; lia)
                ltac:(cbv beta; intros; lia)) as Hsh.
  pose proof (gapCount_items items) as Hg.
  pose proof (nonGapCount_le_length items) as Hn.
  assert (Hsum :
    sum (fst (computeHeightsToFit floorShare items 52 140 budget 52)) =
    Z.min budget (Z.of_nat (List.length (filter _isGap items)) * 52 +
                  nonGapCount items * 140)).
  { destruct (Z.le_gt_cases (budget - fixedGap items 52)
                (140 * nonGapCount items)) as [Hfit|Hbig].
    - rewrite (fit_fills floorShare items 52 140 budget 52);
        unfold fixedGap in *; rewrite ?Hg in *;
        [|subst budget; lia|exact Hlen|vm_compute; reflexivity].
      lia.
    - destruct (fit_tops_out floorShare items 52 140 budget 52) as [Hall Htot];
        [lia|lia|exact Hlen|vm_compute; reflexivity|].
      revert Htot. unfold computeHeightsToFit at 1.
      destruct items as [|it0 items0] eqn:Ei.
      + intros _. unfold fixedGap in Hbig. rewrite Hg in Hbig. cbn in *. lia.
      + rewrite <- Ei in *.
        destruct (redistribute items 52 140 2000 _ _) as [hs d] eqn:Er.
        cbn [snd]. intros Htot.
        unfold computeHeightsToFit. rewrite Ei, <- Ei, Er. cbn [fst].
        unfold totalH in Htot. rewrite Htot.
        unfold fixedGap in *. rewrite Hg in *. lia. }
  set (hs := fst (computeHeightsToFit floorShare items 52 140 budget 52)) in *.
  unfold mapi.
  pose proof (mapi_blocks sliceOf _ items hs Hsh []) as Hm.
  cbn [List.length app] in Hm. rewrite Hm. clear Hm.
  destruct (combine_fst _ items hs Hsh) as [Hfst Hsnd].
  split; [|split].
  - rewrite map_map. cbn [fst snd].
    rewrite <- Hfst at 2. apply map_ext. intros [it h]. reflexivity.
  - apply Forall_forall. intros s Hs. apply in_map_iff in Hs.
    destruct Hs as ([it h] & <- & Hp). cbn [fst snd].
    split; [reflexivity|].
    change (b_item (sliceOf it h)) with it.
    change (b_height (sliceOf it h)) with h.
    clear -Hsh Hp. induction Hsh as [|a b l l' Hab _ IH]; [contradiction|].
    destruct Hp as [E|Hp]; [|now apply IH].
    injection E as -> ->. destruct (_isGap it); exact Hab.
  - rewrite map_map. cbn [fst snd].
    rewrite <- Hsum.
    transitivity (sum (map snd (combine items hs))); [|now rewrite Hsnd].
    reflexivity.
Qed.

Lemma renderTop_layout_witness :
  sum (map b_height Samples.deepSlices) = 384.
Proof.
  destruct (renderTop_layout Samples.deepNodes exactShare Samples.deepRoot
              (Some 600)) as (_ & _ & H).
  - vm_compute. reflexivity.
  - exact H.
Defined.

(** X25 -- the first layout of a nested stack: [renderInner] makes one
    slice for each item of the node, in order, every one of them 44 pixels
    high, gap or not, with that height remembered as its base height. *)
Theorem renderInner_layout (nodes : list FlatNode) (parentNode : FlatNode) :
  map b_item (renderInner nodes parentNode) = itemsForNode nodes parentNode /\
  Forall (fun s => b_height s = 44 /\ b_baseH s = Some 44)
         (renderInner nodes parentNode) /\
  sum (map b_height (renderInner nodes parentNode)) =
    44 * Z.of_nat (List.length (itemsForNode nodes parentNode)).
Proof.
  unfold renderInner. cbv zeta.
  set (items := itemsForNode nodes parentNode).
  unfold MIN_PX_INNER, GAP_PX_INNER, computeCompactHeights. cbn [fst].
  set (hs := map (fun it => if _isGap it then 44 else 44) items).
  assert (Hsh : Forall2 (fun (it : DisplayItem) h => h = 44) items hs).
  { subst hs. induction items as [|it l IH]; constructor; [|exact IH].
    now destruct (_isGap it). }
  unfold mapi.
  pose proof (mapi_blocks innerSliceOf _ items hs Hsh []) as Hm.
  cbn [List.length app] in Hm. rewrite Hm. clear Hm.
  destruct (combine_fst _ items hs Hsh) as [Hfst Hsnd].
  assert (Hall : Forall (fun h => h = 44) hs).
  { clear Hfst Hsnd. induction Hsh as [|a b l l' Hab _ IH]; constructor;
      [exact Hab | exact IH]. }
  split; [|split].
  - rewrite map_map. transitivity (map fst (combine items hs));
      [reflexivity | exact Hfst].
  - apply Forall_forall. intros s Hs. apply in_map_iff in Hs.
    destruct Hs as ([it h] & <- & Hp). cbn [fst snd].
    assert (Hh : In h hs) by (rewrite <- Hsnd; apply (in_map snd _ _ Hp)).
    rewrite Forall_forall in Hall. rewrite (Hall h Hh).
    split; reflexivity.
  - rewrite map_map. transitivity (sum (map snd (combine items hs)));
      [reflexivity|].
    rewrite Hsnd, (Forall2_length Hsh). clear -Hall.
    induction Hall as [|h l Hh _ IH]; [reflexivity|].
    cbn [List.length]. rewrite sum_cons, IH, Nat2Z.inj_succ. lia.
Qed.

(** ** The text of a marker *)







